(** * Crate-to-Stage reconstruction of TinyUSDZ (usdc-reader.cc)

    A shallow embedding of the USDC reader's reconstruction pipeline
    ([USDCReader::Impl] in [src/usdc-reader.cc], with the data types of
    [src/prim-types.hh]) and the properties of it that the design
    document states.

    Conventions.
    - C++ integers are [Z]; casts are written out ([to_int32], [to_uint32]).
    - [half], [float] and [double] are the bit patterns of the IEEE 754
      encodings (16, 32 and 64 bits), as [Z].
    - [std::vector] is [list]; [std::map], [std::unordered_map] and
      [std::set] are stdpp's [gmap] and [gset].
    - A member function of [Impl] is a computation in the monad [M Impl]:
      it reads and writes the reader ([_err], [_warn], [_prim_table], the
      decoded tables) and ends in [Ret v] (normal return), [Fail]
      ([return false] or [nullopt] after an error was pushed) or
      [Undefined] (a read past the end of a [std::vector]). *)

From Stdlib Require Import ZArith Lia.
From stdpp Require Import base option list strings gmap fin_maps pretty.

Set Warnings "-register-all".
Local Open Scope Z_scope.

(** ** Integer casts *)

Definition to_uint32 (z : Z) : Z := z mod 2 ^ 32.

Definition to_int32 (z : Z) : Z :=
  let r := z mod 2 ^ 32 in if r <? 2 ^ 31 then r else r - 2 ^ 32.

Definition INT_MAX : Z := 2 ^ 31 - 1.

(** [~0u] *)
Definition UINT32_ALL_ONES : Z := Z.lxor 0 (Z.ones 32).

(** ** Enumerations of prim-types.hh *)

Module SpecType.
Inductive t :=
| Unknown | Attribute | Connection | Expression | Mapper | MapperArg | Prim
| PseudoRoot | Relationship | RelationshipTarget | Variant | VariantSet
| Invalid.
#[global] Instance eq_dec : EqDecision t.
Proof. solve_decision. Defined.
(** Modelled from the spec: [to_string(SpecType)] of prim-types.cc, which
    is not among the sources; it only feeds diagnostics. *)
Definition to_string (s : t) : string :=
  match s with
  | Unknown => "SpecTypeUnknown"
  | Attribute => "SpecTypeAttribute"
  | Connection => "SpecTypeConnection"
  | Expression => "SpecTypeExpression"
  | Mapper => "SpecTypeMapper"
  | MapperArg => "SpecTypeMapperArg"
  | Prim => "SpecTypePrim"
  | PseudoRoot => "SpecTypePseudoRoot"
  | Relationship => "SpecTypeRelationship"
  | RelationshipTarget => "SpecTypeRelationshipTarget"
  | Variant => "SpecTypeVariant"
  | VariantSet => "SpecTypeVariantSet"
  | Invalid => "SpecTypeInvalid"
  end.
End SpecType.

Module ListEditQual.
Inductive t :=
| ResetToExplicit | Append | Add | Delete | Prepend | Order | Invalid.
#[global] Instance eq_dec : EqDecision t.
Proof. solve_decision. Defined.
(** Modelled from the spec: [to_string(ListEditQual)] of prim-types.cc,
    which is not among the sources; the texts are those of the comments
    of the enum and only feed diagnostics. *)
Definition to_string (q : t) : string :=
  match q with
  | ResetToExplicit => "unqualified"
  | Append => "append"
  | Add => "add"
  | Delete => "delete"
  | Prepend => "prepend"
  | Order => "order"
  | Invalid => "[[Invalid ListEditQual value]]"
  end.
End ListEditQual.

Module Specifier.
Inductive t := Def | Over | Class | Invalid.
#[global] Instance eq_dec : EqDecision t.
Proof. solve_decision. Defined.
End Specifier.

Module Variability.
Inductive t := Varying | Uniform | Config | Invalid.
End Variability.

Module Interpolation.
Inductive t := Constant | Uniform | Varying | Vertex | FaceVarying | Invalid.
End Interpolation.

Module Kind.
Inductive t :=
| Model | Group | Assembly | Component | Subcomponent | SceneLibrary | Invalid.
End Kind.

Module Axis.
Inductive t := X | Y | Z | Invalid.
End Axis.

(** ** Path, StringData, ListOp *)

Record Path := mkPath {
  prim_part : string;
  prop_part : string;
  valid : bool
}.

Definition GetPrimPart (p : Path) : string := prim_part p.
Definition GetPropPart (p : Path) : string := prop_part p.

Record StringData := StringData_full {
  sd_value : string;
  is_triple_quoted : bool;
  single_quote : bool;
  line_row : Z;
  line_col : Z
}.

(** A default-constructed [StringData] with [value] and
    [is_triple_quoted] assigned. *)
Definition mkStringData (v : string) (triple : bool) : StringData :=
  StringData_full v triple false 0 0.

Record ListOp (T : Type) := mkListOp {
  is_explicit : bool;
  explicit_items : list T;
  added_items : list T;
  prepended_items : list T;
  appended_items : list T;
  deleted_items : list T;
  ordered_items : list T
}.
Arguments mkListOp {T}.
Arguments is_explicit {T}.
Arguments explicit_items {T}.
Arguments added_items {T}.
Arguments prepended_items {T}.
Arguments appended_items {T}.
Arguments deleted_items {T}.
Arguments ordered_items {T}.

Definition IsExplicit {T} (l : ListOp T) : bool := is_explicit l.
Definition GetExplicitItems {T} (l : ListOp T) : list T := explicit_items l.
Definition GetAddedItems {T} (l : ListOp T) : list T := added_items l.
Definition GetPrependedItems {T} (l : ListOp T) : list T := prepended_items l.
Definition GetAppendedItems {T} (l : ListOp T) : list T := appended_items l.
Definition GetDeletedItems {T} (l : ListOp T) : list T := deleted_items l.
Definition GetOrderedItems {T} (l : ListOp T) : list T := ordered_items l.

(** [v.size()] used as a condition: true iff the vector is not empty. *)
Definition nonempty {T} (l : list T) : bool :=
  match l with [] => false | _ :: _ => true end.

(** ** Values (value::Value behind crate::CrateValue)

    One constructor per type the reader extracts with [get_value<T>] or
    [as<T>]; every other type is [VOther], which no typed extraction of
    the reader matches. *)

Definition half := Z.
Definition float := Z.
Definition double := Z.

Inductive Value :=
| VNull
| VBool (b : bool)
| VInt (i : Z)
| VHalf (x : half)
| VHalf2 (x y : half)
| VHalf3 (x y z : half)
| VHalf4 (x y z w : half)
| VFloat (x : float)
| VFloat2 (x y : float)
| VFloat3 (x y z : float)
| VFloat4 (x y z w : float)
| VDouble (x : double)
| VDouble2 (x y : double)
| VDouble3 (x y z : double)
| VDouble4 (x y z w : double)
| VToken (s : string)
| VString (s : string)
| VVariability (v : Variability.t)
| VSpecifier (s : Specifier.t)
| VTokenVector (l : list string)
| VPathVector (l : list Path)
| VListOpToken (l : ListOp string)
| VListOpPath (l : ListOp Path)
| VTimeSamples (times : list double) (values : list Value)
| VCustomData (d : list (string * Value))
| VOther (tyname : string).

Definition CustomDataType := list (string * Value).

Record TimeSamples := mkTimeSamples {
  ts_times : list double;
  ts_values : list Value
}.

Definition FieldValuePair : Type := string * Value.
Definition FieldValuePairVector := list FieldValuePair.

(** Typed extraction: [Some] iff the runtime tag is the requested one. *)
Definition get_bool (v : Value) : option bool :=
  match v with VBool b => Some b | _ => None end.
Definition get_int (v : Value) : option Z :=
  match v with VInt i => Some i | _ => None end.
Definition get_float (v : Value) : option float :=
  match v with VFloat x => Some x | _ => None end.
Definition get_double (v : Value) : option double :=
  match v with VDouble x => Some x | _ => None end.
Definition get_token (v : Value) : option string :=
  match v with VToken s => Some s | _ => None end.
Definition get_string (v : Value) : option string :=
  match v with VString s => Some s | _ => None end.
Definition get_Variability (v : Value) : option Variability.t :=
  match v with VVariability x => Some x | _ => None end.
Definition get_Specifier (v : Value) : option Specifier.t :=
  match v with VSpecifier x => Some x | _ => None end.
Definition get_token_vector (v : Value) : option (list string) :=
  match v with VTokenVector l => Some l | _ => None end.
Definition get_path_vector (v : Value) : option (list Path) :=
  match v with VPathVector l => Some l | _ => None end.
Definition get_ListOp_token (v : Value) : option (ListOp string) :=
  match v with VListOpToken l => Some l | _ => None end.
Definition get_ListOp_Path (v : Value) : option (ListOp Path) :=
  match v with VListOpPath l => Some l | _ => None end.
Definition get_TimeSamples (v : Value) : option TimeSamples :=
  match v with VTimeSamples t vs => Some (mkTimeSamples t vs) | _ => None end.
Definition get_CustomData (v : Value) : option CustomDataType :=
  match v with VCustomData d => Some d | _ => None end.

(** The type ids [UpcastType] dispatches on. *)
Inductive TypeId :=
| TYPE_ID_HALF | TYPE_ID_HALF2 | TYPE_ID_HALF3 | TYPE_ID_HALF4
| TYPE_ID_FLOAT | TYPE_ID_FLOAT2 | TYPE_ID_FLOAT3 | TYPE_ID_FLOAT4
| TYPE_ID_DOUBLE | TYPE_ID_DOUBLE2 | TYPE_ID_DOUBLE3 | TYPE_ID_DOUBLE4
| TYPE_ID_OTHER (name : string).

(** Modelled from the spec: [Value::type_name()] of value-types.hh, which
    is not among the sources ("supports ... a type-name query"): the USD
    type name of the runtime tag. The names from ["specifier"] on are those
    of the [DEFINE_TYPE_TRAIT] lines of prim-types.hh. *)
Definition type_name (v : Value) : string :=
  match v with
  | VNull => "null"
  | VBool _ => "bool"
  | VInt _ => "int"
  | VHalf _ => "half"
  | VHalf2 _ _ => "half2"
  | VHalf3 _ _ _ => "half3"
  | VHalf4 _ _ _ _ => "half4"
  | VFloat _ => "float"
  | VFloat2 _ _ => "float2"
  | VFloat3 _ _ _ => "float3"
  | VFloat4 _ _ _ _ => "float4"
  | VDouble _ => "double"
  | VDouble2 _ _ => "double2"
  | VDouble3 _ _ _ => "double3"
  | VDouble4 _ _ _ _ => "double4"
  | VToken _ => "token"
  | VString _ => "string"
  | VVariability _ => "variability"
  | VSpecifier _ => "specifier"
  | VTokenVector _ => "token[]"
  | VPathVector _ => "PathVector"
  | VListOpToken _ => "ListOpToken"
  | VListOpPath _ => "ListOpPath"
  | VTimeSamples _ _ => "TimeSamples"
  | VCustomData _ => "customData"
  | VOther n => n
  end.

(** ** Relation, AttrMeta, PrimAttrib, Property (prim-types.hh) *)

Module RelationType.
Inductive t := Empty | String | Path | PathVector.
End RelationType.

(** [AttrMeta] and, below, [PrimMeta]: the members [meta] and
    [stringData], which the reader never writes, are left out. *)
Record AttrMeta := mkAttrMeta {
  am_interpolation : option Interpolation.t;
  am_elementSize : option Z;
  am_comment : option StringData;
  am_customData : option CustomDataType
}.

Definition AttrMeta_default : AttrMeta := mkAttrMeta None None None None.

Record Relation := mkRelation {
  rel_type : RelationType.t;
  targetString : string;
  targetPath : Path;
  targetPathVector : list Path;
  rel_listOpQual : ListEditQual.t;
  rel_meta : AttrMeta
}.

(** [Path()] *)
Definition Path_default : Path := mkPath "" "" false.

(** [Relation()] *)
Definition Relation_default : Relation :=
  mkRelation RelationType.Empty "" Path_default [] ListEditQual.ResetToExplicit
             AttrMeta_default.

Definition SetListEditQualifier (q : ListEditQual.t) (r : Relation) : Relation :=
  mkRelation (rel_type r) (targetString r) (targetPath r) (targetPathVector r) q
             (rel_meta r).

Definition SetEmpty (r : Relation) : Relation :=
  mkRelation RelationType.Empty (targetString r) (targetPath r)
             (targetPathVector r) (rel_listOpQual r) (rel_meta r).

Definition Set_Path (p : Path) (r : Relation) : Relation :=
  mkRelation RelationType.Path (targetString r) p (targetPathVector r)
             (rel_listOpQual r) (rel_meta r).

Definition Set_PathVector (pv : list Path) (r : Relation) : Relation :=
  mkRelation RelationType.PathVector (targetString r) (targetPath r) pv
             (rel_listOpQual r) (rel_meta r).

(** primvar::PrimVar: empty, a scalar, or time samples. *)
Inductive PrimVar :=
| PrimVar_empty
| PrimVar_scalar (v : Value)
| PrimVar_timesamples (ts : TimeSamples).

(** Modelled from the spec: [PrimVar::type_name()] of primvar.hh, which is
    not among the sources (the design document only says that a value
    answers a type-name query): the type name of the held value, empty
    when nothing is held. No property below depends on it. *)
Definition PrimVar_type_name (v : PrimVar) : string :=
  match v with
  | PrimVar_empty => ""
  | PrimVar_scalar x => type_name x
  | PrimVar_timesamples ts =>
    match ts_values ts with [] => "" | x :: _ => type_name x end
  end.

Record PrimAttrib := mkPrimAttrib {
  variability : Variability.t;
  attr_meta : AttrMeta;
  _type_name : string;
  _var : PrimVar
}.

Definition PrimAttrib_default : PrimAttrib :=
  mkPrimAttrib Variability.Varying AttrMeta_default "" PrimVar_empty.

Definition set_variability (v : Variability.t) (a : PrimAttrib) : PrimAttrib :=
  mkPrimAttrib v (attr_meta a) (_type_name a) (_var a).
Definition set_type_name (tn : string) (a : PrimAttrib) : PrimAttrib :=
  mkPrimAttrib (variability a) (attr_meta a) tn (_var a).
Definition set_var (v : PrimVar) (a : PrimAttrib) : PrimAttrib :=
  mkPrimAttrib (variability a) (attr_meta a)
    (if String.eqb (_type_name a) "" then PrimVar_type_name v else _type_name a)
    v.
Definition set_attr_meta (m : AttrMeta) (a : PrimAttrib) : PrimAttrib :=
  mkPrimAttrib (variability a) m (_type_name a) (_var a).
Definition get_var (a : PrimAttrib) : PrimVar := _var a.

Module PropertyType.
Inductive t :=
| EmptyAttrib | Attrib | Relation | NoTargetsRelation | Connection.
#[global] Instance eq_dec : EqDecision t.
Proof. solve_decision. Defined.
End PropertyType.

Record Property := mkProperty {
  attrib : PrimAttrib;
  rel : Relation;
  prop_type : PropertyType.t;
  prop_listOpQual : ListEditQual.t;
  has_custom : bool
}.

(** [Property(const std::string &type_name, bool custom)] *)
Definition Property_of_type_name (tn : string) (custom : bool) : Property :=
  mkProperty (set_type_name tn PrimAttrib_default) Relation_default
             PropertyType.EmptyAttrib ListEditQual.ResetToExplicit custom.

(** [Property(const PrimAttrib &a, bool custom)] *)
Definition Property_of_attrib (a : PrimAttrib) (custom : bool) : Property :=
  mkProperty a Relation_default PropertyType.Attrib
             ListEditQual.ResetToExplicit custom.

(** [Property(const Relation &r, bool isConnection, bool custom)] *)
Definition Property_of_relation (r : Relation) (isConnection custom : bool)
  : Property :=
  mkProperty PrimAttrib_default r
    (if isConnection then PropertyType.Connection else PropertyType.Relation)
    ListEditQual.ResetToExplicit custom.

Definition IsAttrib (p : Property) : bool :=
  bool_decide (prop_type p = PropertyType.EmptyAttrib)
  || bool_decide (prop_type p = PropertyType.Attrib).
Definition IsRel (p : Property) : bool :=
  bool_decide (prop_type p = PropertyType.Relation)
  || bool_decide (prop_type p = PropertyType.NoTargetsRelation).
Definition IsConnection (p : Property) : bool :=
  bool_decide (prop_type p = PropertyType.Connection).

(** ** APISchemas and ListOp conversion *)

Module APIName.
Inductive t :=
| MaterialBindingAPI | SkelBindingAPI | Preliminary_AnchoringAPI
| Preliminary_PhysicsColliderAPI | Preliminary_PhysicsMaterialAPI
| Preliminary_PhysicsRigidBodyAPI.
End APIName.

Record APISchemas := mkAPISchemas {
  api_listOpQual : ListEditQual.t;
  api_names : list (APIName.t * string)
}.

(** [nonstd::expected<T, std::string>] *)
Inductive expected (T : Type) :=
| Expected (v : T)
| Unexpected (e : string).
Arguments Expected {T}.
Arguments Unexpected {T}.

Definition SchemaHandler (tok : string) : option APIName.t :=
  if String.eqb tok "MaterialBindingAPI" then Some APIName.MaterialBindingAPI
  else if String.eqb tok "SkelBindingAPI" then Some APIName.SkelBindingAPI
  else if String.eqb tok "Preliminary_AnchoringAPI"
       then Some APIName.Preliminary_AnchoringAPI
  else if String.eqb tok "Preliminary_PhysicsColliderAPI"
       then Some APIName.Preliminary_PhysicsColliderAPI
  else if String.eqb tok "Preliminary_PhysicsMaterialAPI"
       then Some APIName.Preliminary_PhysicsMaterialAPI
  else if String.eqb tok "Preliminary_PhysicsRigidBodyAPI"
       then Some APIName.Preliminary_PhysicsRigidBodyAPI
  else None.

(** The loop every branch of [ToAPISchemas] runs over its bucket: push
    [(name, "")] per item, or leave with the unsupported-schema error. *)
Fixpoint collect_schemas (items : list string) (names : list (APIName.t * string))
  : expected (list (APIName.t * string)) :=
  match items with
  | [] => Expected names
  | item :: rest =>
    match SchemaHandler item with
    | Some pv => collect_schemas rest (names ++ [(pv, "")])
    | None => Unexpected ("Invalid or Unsupported API schema: " +:+ item)
    end
  end.

Definition multi_qualifier_error : string :=
  "Currently TinyUSDZ does not support ListOp with different ListEdit qualifiers.".

Definition ordered_items_error : string := "TODO: Ordered ListOp items.".

Definition schemas_of (qual : ListEditQual.t) (items : list string)
  : expected APISchemas :=
  match collect_schemas items [] with
  | Expected names => Expected (mkAPISchemas qual names)
  | Unexpected e => Unexpected e
  end.

Definition ToAPISchemas (arg : ListOp string) : expected APISchemas :=
  if IsExplicit arg then
    schemas_of ListEditQual.ResetToExplicit (GetExplicitItems arg)
  else if nonempty (GetExplicitItems arg) then
    if nonempty (GetAddedItems arg) || nonempty (GetAppendedItems arg)
       || nonempty (GetDeletedItems arg) || nonempty (GetPrependedItems arg)
       || nonempty (GetOrderedItems arg)
    then Unexpected multi_qualifier_error
    else schemas_of ListEditQual.ResetToExplicit (GetExplicitItems arg)
  else if nonempty (GetAddedItems arg) then
    if nonempty (GetExplicitItems arg) || nonempty (GetAppendedItems arg)
       || nonempty (GetDeletedItems arg) || nonempty (GetPrependedItems arg)
       || nonempty (GetOrderedItems arg)
    then Unexpected multi_qualifier_error
    else schemas_of ListEditQual.Add (GetAddedItems arg)
  else if nonempty (GetAppendedItems arg) then
    if nonempty (GetExplicitItems arg) || nonempty (GetAddedItems arg)
       || nonempty (GetDeletedItems arg) || nonempty (GetPrependedItems arg)
       || nonempty (GetOrderedItems arg)
    then Unexpected multi_qualifier_error
    else schemas_of ListEditQual.Append (GetAppendedItems arg)
  else if nonempty (GetDeletedItems arg) then
    if nonempty (GetExplicitItems arg) || nonempty (GetAddedItems arg)
       || nonempty (GetAppendedItems arg) || nonempty (GetPrependedItems arg)
       || nonempty (GetOrderedItems arg)
    then Unexpected multi_qualifier_error
    else schemas_of ListEditQual.Delete (GetDeletedItems arg)
  else if nonempty (GetPrependedItems arg) then
    if nonempty (GetExplicitItems arg) || nonempty (GetAddedItems arg)
       || nonempty (GetAppendedItems arg) || nonempty (GetDeletedItems arg)
       || nonempty (GetOrderedItems arg)
    then Unexpected multi_qualifier_error
    else schemas_of ListEditQual.Prepend (GetPrependedItems arg)
  else if nonempty (GetOrderedItems arg) then
    if nonempty (GetExplicitItems arg) || nonempty (GetAddedItems arg)
       || nonempty (GetAppendedItems arg) || nonempty (GetDeletedItems arg)
       || nonempty (GetPrependedItems arg)
    then Unexpected multi_qualifier_error
    else Unexpected ordered_items_error
  else Unexpected "Internal error: ListOp conversion.".

Definition DecodeListOp {T} (arg : ListOp T) : list (ListEditQual.t * list T) :=
  if IsExplicit arg then
    [(ListEditQual.ResetToExplicit, GetExplicitItems arg)]
  else
    (if nonempty (GetExplicitItems arg)
     then [(ListEditQual.ResetToExplicit, GetExplicitItems arg)] else [])
    ++ (if nonempty (GetAddedItems arg)
        then [(ListEditQual.Add, GetAddedItems arg)] else [])
    ++ (if nonempty (GetAppendedItems arg)
        then [(ListEditQual.Append, GetAppendedItems arg)] else [])
    ++ (if nonempty (GetDeletedItems arg)
        then [(ListEditQual.Delete, GetDeletedItems arg)] else [])
    ++ (if nonempty (GetPrependedItems arg)
        then [(ListEditQual.Prepend, GetPrependedItems arg)] else [])
    ++ (if nonempty (GetOrderedItems arg)
        then [(ListEditQual.Order, GetOrderedItems arg)] else []).

(** ** The reader's monad *)

Inductive Outcome (A : Type) :=
| Ret (a : A)
| Fail
| Undefined.
Arguments Ret {A}.
Arguments Fail {A}.
Arguments Undefined {A}.

Definition M (S A : Type) : Type := S → Outcome A * S.

Definition bind {S A B} (m : M S A) (k : A → M S B) : M S B :=
  λ s, match m s with
       | (Ret a, s') => k a s'
       | (Fail, s') => (Fail, s')
       | (Undefined, s') => (Undefined, s')
       end.

#[global] Instance M_ret {S} : MRet (M S) := λ A a s, (Ret a, s).
#[global] Instance M_bind {S} : MBind (M S) := λ A B k m, bind m k.

Definition gets {S A} (f : S → A) : M S A := λ s, (Ret (f s), s).
Definition modify {S} (f : S → S) : M S unit := λ s, (Ret tt, f s).
Definition undefined {S A} : M S A := λ s, (Undefined, s).

(** A [for] loop over a vector whose body may leave the function. *)
Fixpoint for_each {S A B} (body : A → B → M S B) (l : list A) (acc : B)
  : M S B :=
  match l with
  | [] => mret acc
  | x :: rest => acc' ← body x acc; for_each body rest acc'
  end.

(** Run a computation on the first component of a pair state. *)
Definition liftI {S X A} (m : M S A) : M (S * X) A :=
  λ sx, let '(o, s') := m sx.1 in (o, (s', sx.2)).

(** ** Decoded tables and the reader state *)

Record Node := mkNode {
  node_children : list Z
}.
Definition GetChildren (n : Node) : list Z := node_children n.

Record Spec := mkSpec {
  path_index : Z;
  fieldset_index : Z;
  spec_type : SpecType.t
}.

Record CrateReader := mkCrateReader {
  cr_nodes : list Node;
  cr_specs : list Spec;
  cr_paths : list Path;
  cr_elemPaths : list Path;
  cr_live_fieldsets : gmap Z FieldValuePairVector
}.

Definition NumNodes (c : CrateReader) : Z := Z.of_nat (length (cr_nodes c)).

Record Impl := mkImpl {
  crate_reader : CrateReader;
  _err : list string;
  _warn : list string;
  _nodes : list Node;
  _specs : list Spec;
  _paths : list Path;
  _elemPaths : list Path;
  _live_fieldsets : gmap Z FieldValuePairVector;
  _prim_table : gset Z
}.

(** A reader right after construction and [ReadUSDC]. *)
Definition Impl_init (c : CrateReader) : Impl :=
  mkImpl c [] [] [] [] [] [] ∅ ∅.

Definition PushError (s : string) (i : Impl) : Impl :=
  mkImpl (crate_reader i) (_err i ++ [s]) (_warn i) (_nodes i) (_specs i)
         (_paths i) (_elemPaths i) (_live_fieldsets i) (_prim_table i).

Definition PushWarn (s : string) (i : Impl) : Impl :=
  mkImpl (crate_reader i) (_err i) (_warn i ++ [s]) (_nodes i) (_specs i)
         (_paths i) (_elemPaths i) (_live_fieldsets i) (_prim_table i).

Definition prim_table_insert (n : Z) (i : Impl) : Impl :=
  mkImpl (crate_reader i) (_err i) (_warn i) (_nodes i) (_specs i)
         (_paths i) (_elemPaths i) (_live_fieldsets i) ({[n]} ∪ _prim_table i).

Definition load_tables (i : Impl) : Impl :=
  let c := crate_reader i in
  mkImpl c (_err i) (_warn i) (cr_nodes c) (cr_specs c) (cr_paths c)
         (cr_elemPaths c) (cr_live_fieldsets c) (_prim_table i).

(** The reader inside a larger state: [Impl] alone, or [Impl] next to the
    [Stage] (or [StageMetas]) a function writes through a pointer. *)
Class ReaderState (S : Type) := update_impl : (Impl → Impl) → S → S.
#[global] Instance ReaderState_Impl : ReaderState Impl := λ f i, f i.
#[global] Instance ReaderState_pair {X} : ReaderState (Impl * X) :=
  λ f s, (f s.1, s.2).

(** [PUSH_ERROR(s)], [PUSH_WARN(s)], and [PUSH_ERROR_AND_RETURN(s)] of
    common-macros.inc: one message appended per use. *)
Definition PUSH_ERROR {St} `{!ReaderState St} (s : string) : M St unit :=
  modify (update_impl (PushError s)).
Definition PUSH_WARN {St} `{!ReaderState St} (s : string) : M St unit :=
  modify (update_impl (PushWarn s)).
Definition PUSH_ERROR_AND_RETURN {St} `{!ReaderState St} {A} (s : string)
  : M St A :=
  λ st, (Fail, update_impl (PushError s) st).

(** [if (!m) { PUSH_ERROR_AND_RETURN(s); }] *)
Definition or_error {St} `{!ReaderState St} {A} (m : M St A) (s : string)
  : M St A :=
  λ st, match m st with
        | (Fail, st') => (Fail, update_impl (PushError s) st')
        | r => r
        end.

(** [std::vector::operator[]] with a signed index. *)
Definition vector_at {A} (l : list A) (i : Z) : option A :=
  if i <? 0 then None else l !! Z.to_nat i.

(** ** Path registry *)

Definition GetPath (index : Z) : M Impl (option Path) :=
  λ i, if index <=? Z.of_nat (length (_paths i))
       then match _paths i !! Z.to_nat index with
            | Some p => (Ret (Some p), i)
            | None => (Undefined, i)
            end
       else (Ret None, i).

Definition GetElemPath (index : Z) : M Impl (option Path) :=
  λ i, if index <=? Z.of_nat (length (_elemPaths i))
       then match _elemPaths i !! Z.to_nat index with
            | Some p => (Ret (Some p), i)
            | None => (Undefined, i)
            end
       else (Ret None, i).

(** ** What the reader takes from files that are not modelled here

    The limits of [USDCReaderConfig] (usdc-reader.hh), the type tables and
    conversions of value-types.hh, the enum parsers of prim-types.cc and
    str-util.hh, and the per-schema [prim::ReconstructPrim<T>] of
    prim-reconstruct.cc. *)

Module PrimSchema.
Inductive t :=
| Xform | Model | Scope | GeomMesh | GeomPoints | GeomCylinder | GeomCube
| GeomCone | GeomSphere | GeomCapsule | GeomBasisCurves | GeomCamera
| LuxSphereLight | LuxDomeLight | LuxCylinderLight | LuxDiskLight
| LuxDistantLight | SkelRoot | Skeleton | SkelAnimation | Shader | Material.
(** The order in which [ReconstructPrimFromTypeName] tries them. *)
Definition all : list t :=
  [Xform; Model; Scope; GeomMesh; GeomPoints; GeomCylinder; GeomCube;
   GeomCone; GeomSphere; GeomCapsule; GeomBasisCurves; GeomCamera;
   LuxSphereLight; LuxDomeLight; LuxCylinderLight; LuxDiskLight;
   LuxDistantLight; SkelRoot; Skeleton; SkelAnimation; Shader; Material].
End PrimSchema.

(** What [prim::ReconstructPrim<T>(properties, refs, prim, &_warn, &err)]
    hands back: the typed prim on success, the warnings it appended and
    its error text. *)
Record SchemaResult (D : Type) := mkSchemaResult {
  sr_prim : option D;
  sr_warn : list string;
  sr_err : string
}.
Arguments mkSchemaResult {D}.
Arguments sr_prim {D}.
Arguments sr_warn {D}.
Arguments sr_err {D}.

Class Externals := {
  kMaxFieldValuePairs : Z;
  kMaxElementSize : Z;
  kMaxPrimNestLevel : Z;
  TryGetUnderlyingTypeId : string → option TypeId;
  half_to_float : half → float;
  float_to_double : float → double;
  InterpolationFromString : string → option Interpolation.t;
  KindFromString : string → option Kind.t;
  hasNewline : string → bool;
  ValidatePrimName : string → bool;
  schema_type_name : PrimSchema.t → string;
  SchemaData : Type;
  prim_ReconstructPrim :
    PrimSchema.t → gmap string Property → SchemaResult SchemaData
}.

Section Reader.
Context `{ext : Externals}.

(** ** UpcastType *)

Definition UpcastType (reqType : string) (inout : Value) : bool * Value :=
  match TryGetUnderlyingTypeId reqType with
  | None => (false, inout)
  | Some tyid =>
    match tyid, inout with
    | TYPE_ID_FLOAT, VHalf x => (true, VFloat (half_to_float x))
    | TYPE_ID_FLOAT2, VHalf2 x y =>
      (true, VFloat2 (half_to_float x) (half_to_float y))
    | TYPE_ID_FLOAT3, VHalf3 x y z =>
      (true, VFloat3 (half_to_float x) (half_to_float y) (half_to_float z))
    | TYPE_ID_FLOAT4, VHalf4 x y z w =>
      (true, VFloat4 (half_to_float x) (half_to_float y) (half_to_float z)
                     (half_to_float w))
    | TYPE_ID_DOUBLE, VHalf x =>
      (true, VDouble (float_to_double (half_to_float x)))
    | TYPE_ID_DOUBLE2, VHalf2 x y =>
      (true, VDouble2 (float_to_double (half_to_float x))
                      (float_to_double (half_to_float y)))
    | TYPE_ID_DOUBLE3, VHalf3 x y z =>
      (true, VDouble3 (float_to_double (half_to_float x))
                      (float_to_double (half_to_float y))
                      (float_to_double (half_to_float z)))
    | TYPE_ID_DOUBLE4, VHalf4 x y z w =>
      (true, VDouble4 (float_to_double (half_to_float x))
                      (float_to_double (half_to_float y))
                      (float_to_double (half_to_float z))
                      (float_to_double (half_to_float w)))
    | _, _ => (false, inout)
    end
  end.

(** ** ParseProperty *)

(** The locals of [ParseProperty] that its loop over the fields updates. *)
Record PropLocals := mkPropLocals {
  pl_custom : bool;
  pl_typeName : option string;
  pl_interpolation : option Interpolation.t;
  pl_elementSize : option Z;
  pl_customData : option CustomDataType;
  pl_comment : option StringData;
  pl_propType : PropertyType.t;
  pl_attr : PrimAttrib;
  pl_is_scalar : bool;
  pl_scalar : Value;
  pl_rel : Relation
}.

Definition PropLocals_init : PropLocals :=
  mkPropLocals false None None None None None PropertyType.EmptyAttrib
               PrimAttrib_default false VNull Relation_default.

Definition with_custom (b : bool) (l : PropLocals) : PropLocals :=
  mkPropLocals b (pl_typeName l) (pl_interpolation l) (pl_elementSize l)
    (pl_customData l) (pl_comment l) (pl_propType l) (pl_attr l)
    (pl_is_scalar l) (pl_scalar l) (pl_rel l).
Definition with_typeName (t : string) (l : PropLocals) : PropLocals :=
  mkPropLocals (pl_custom l) (Some t) (pl_interpolation l) (pl_elementSize l)
    (pl_customData l) (pl_comment l) (pl_propType l) (pl_attr l)
    (pl_is_scalar l) (pl_scalar l) (pl_rel l).
Definition with_interpolation (x : Interpolation.t) (l : PropLocals)
  : PropLocals :=
  mkPropLocals (pl_custom l) (pl_typeName l) (Some x) (pl_elementSize l)
    (pl_customData l) (pl_comment l) (pl_propType l) (pl_attr l)
    (pl_is_scalar l) (pl_scalar l) (pl_rel l).
Definition with_elementSize (x : Z) (l : PropLocals) : PropLocals :=
  mkPropLocals (pl_custom l) (pl_typeName l) (pl_interpolation l) (Some x)
    (pl_customData l) (pl_comment l) (pl_propType l) (pl_attr l)
    (pl_is_scalar l) (pl_scalar l) (pl_rel l).
Definition with_customData (x : CustomDataType) (l : PropLocals) : PropLocals :=
  mkPropLocals (pl_custom l) (pl_typeName l) (pl_interpolation l)
    (pl_elementSize l) (Some x) (pl_comment l) (pl_propType l) (pl_attr l)
    (pl_is_scalar l) (pl_scalar l) (pl_rel l).
Definition with_comment (x : StringData) (l : PropLocals) : PropLocals :=
  mkPropLocals (pl_custom l) (pl_typeName l) (pl_interpolation l)
    (pl_elementSize l) (pl_customData l) (Some x) (pl_propType l) (pl_attr l)
    (pl_is_scalar l) (pl_scalar l) (pl_rel l).
Definition with_propType (x : PropertyType.t) (l : PropLocals) : PropLocals :=
  mkPropLocals (pl_custom l) (pl_typeName l) (pl_interpolation l)
    (pl_elementSize l) (pl_customData l) (pl_comment l) x (pl_attr l)
    (pl_is_scalar l) (pl_scalar l) (pl_rel l).
Definition with_attr (x : PrimAttrib) (l : PropLocals) : PropLocals :=
  mkPropLocals (pl_custom l) (pl_typeName l) (pl_interpolation l)
    (pl_elementSize l) (pl_customData l) (pl_comment l) (pl_propType l) x
    (pl_is_scalar l) (pl_scalar l) (pl_rel l).
Definition with_scalar (x : Value) (l : PropLocals) : PropLocals :=
  mkPropLocals (pl_custom l) (pl_typeName l) (pl_interpolation l)
    (pl_elementSize l) (pl_customData l) (pl_comment l) (pl_propType l)
    (pl_attr l) true x (pl_rel l).
Definition with_rel (x : Relation) (l : PropLocals) : PropLocals :=
  mkPropLocals (pl_custom l) (pl_typeName l) (pl_interpolation l)
    (pl_elementSize l) (pl_customData l) (pl_comment l) (pl_propType l)
    (pl_attr l) (pl_is_scalar l) (pl_scalar l) x.

(** [rel.Set(path)] for one item, [rel.Set(items)] otherwise. *)
Definition Set_items (items : list Path) (r : Relation) : Relation :=
  match items with
  | [path] => Set_Path path r
  | _ => Set_PathVector items r
  end.

Definition multi_listop_warning (q : ListEditQual.t) : string :=
  "ListOp with multiple ListOpType is not supported for now. Use the first one: "
  +:+ ListEditQual.to_string q.

(** The [targetPaths] branch, once the value is known to be a
    [ListOp<Path>]. *)
Definition ParseProperty_targetPaths (p : ListOp Path) (l : PropLocals)
  : M Impl PropLocals :=
  match DecodeListOp p with
  | [] => PUSH_ERROR_AND_RETURN "`targetPaths` is empty."
  | (qual, items) :: more =>
    _ ← (if nonempty more then PUSH_WARN (multi_listop_warning qual)
         else mret tt);
    mret (with_rel (SetListEditQualifier qual (Set_items items (pl_rel l))) l)
  end.

(** The body of the loop over the fields: one [if]/[else if] per name. *)
Definition ParseProperty_field (fv : FieldValuePair) (l : PropLocals)
  : M Impl PropLocals :=
  let '(name, v) := fv in
  if String.eqb name "custom" then
    match get_bool v with
    | Some pv => mret (with_custom pv l)
    | None => PUSH_ERROR_AND_RETURN "`custom` field is not `bool` type."
    end
  else if String.eqb name "variability" then
    match get_Variability v with
    | Some pv => mret (with_attr (set_variability pv (pl_attr l)) l)
    | None =>
      PUSH_ERROR_AND_RETURN "`variability` field is not `varibility` type."
    end
  else if String.eqb name "typeName" then
    match get_token v with
    | Some pv => mret (with_typeName pv l)
    | None => PUSH_ERROR_AND_RETURN "`typeName` field is not `token` type."
    end
  else if String.eqb name "default" then
    mret (with_scalar v (with_propType PropertyType.Attrib l))
  else if String.eqb name "timeSamples" then
    let l := with_propType PropertyType.Attrib l in
    match get_TimeSamples v with
    | Some pv => mret (with_attr (set_var (PrimVar_timesamples pv) (pl_attr l)) l)
    | None => PUSH_ERROR_AND_RETURN "`timeSamples` is not TimeSamples data."
    end
  else if String.eqb name "interpolation" then
    let l := with_propType PropertyType.Attrib l in
    match get_token v with
    | Some pv =>
      match InterpolationFromString pv with
      | Some interp => mret (with_interpolation interp l)
      | None => PUSH_ERROR_AND_RETURN "Invalid token for `interpolation`."
      end
    | None =>
      PUSH_ERROR_AND_RETURN "`interpolation` field is not `token` type."
    end
  else if String.eqb name "connectionPaths" then
    let l := with_propType PropertyType.Connection l in
    match get_ListOp_Path v with
    | Some p =>
      if negb (IsExplicit p) then
        PUSH_ERROR_AND_RETURN
          "`connectionPaths` must be composed of Explicit items."
      else
        let items := GetExplicitItems p in
        if (Z.of_nat (length items) =? 0) then
          PUSH_ERROR_AND_RETURN "`connectionPaths` have empty Explicit items."
        else mret (with_rel (Set_items items (pl_rel l)) l)
    | None =>
      PUSH_ERROR_AND_RETURN
        "`connectionPaths` field is not `ListOp[Path]` type."
    end
  else if String.eqb name "targetPaths" then
    let l := with_propType PropertyType.Relation l in
    match get_ListOp_Path v with
    | Some p => ParseProperty_targetPaths p l
    | None =>
      PUSH_ERROR_AND_RETURN "`targetPaths` field is not `ListOp[Path]` type."
    end
  else if String.eqb name "elementSize" then
    match get_int v with
    | Some p =>
      if (p <? 1) || (to_uint32 p >? kMaxElementSize) then
        PUSH_ERROR_AND_RETURN
          ("`elementSize` must be within [1, " +:+ pretty kMaxElementSize
           +:+ "), but got " +:+ pretty p)
      else mret (with_elementSize p l)
    | None => PUSH_ERROR_AND_RETURN "`elementSize` field is not `int` type."
    end
  else if String.eqb name "targetChildren" then
    match get_path_vector v with
    | Some _ => mret l
    | None =>
      PUSH_ERROR_AND_RETURN "`targetChildren` field is not `PathVector` type."
    end
  else if String.eqb name "connectionChildren" then
    match get_path_vector v with
    | Some _ => mret l
    | None =>
      PUSH_ERROR_AND_RETURN
        "`connectionChildren` field is not `PathVector` type."
    end
  else if String.eqb name "customData" then
    match get_CustomData v with
    | Some pv => mret (with_customData pv l)
    | None =>
      PUSH_ERROR_AND_RETURN
        ("`customData` must be type `dictionary`, but got type `"
         +:+ type_name v +:+ "`")
    end
  else if String.eqb name "comment" then
    match get_string v with
    | Some pv => mret (with_comment (mkStringData pv (hasNewline pv)) l)
    | None =>
      PUSH_ERROR_AND_RETURN
        ("`comment` must be type `string`, but got type `"
         +:+ type_name v +:+ "`")
    end
  else
    _ ← PUSH_WARN ("TODO: " +:+ name); mret l.

(** Lines 1033-1051: the scalar goes into the attribute, up-cast when the
    declared type name is not the scalar's. *)
Definition store_scalar (l : PropLocals) : PrimAttrib :=
  if pl_is_scalar l then
    let scalar :=
      match pl_typeName l with
      | Some reqTy =>
        if negb (String.eqb reqTy (type_name (pl_scalar l)))
        then (UpcastType reqTy (pl_scalar l)).2
        else pl_scalar l
      | None => pl_scalar l
      end in
    set_var (PrimVar_scalar scalar) (pl_attr l)
  else pl_attr l.

(** Lines 1053-1065. *)
Definition store_metas (l : PropLocals) (a : PrimAttrib) : PrimAttrib :=
  let m := attr_meta a in
  let m := match pl_interpolation l with
           | Some x => mkAttrMeta (Some x) (am_elementSize m) (am_comment m)
                                  (am_customData m)
           | None => m end in
  let m := match pl_elementSize l with
           | Some x => mkAttrMeta (am_interpolation m) (Some (to_uint32 x))
                                  (am_comment m) (am_customData m)
           | None => m end in
  let m := match pl_customData l with
           | Some x => mkAttrMeta (am_interpolation m) (am_elementSize m)
                                  (am_comment m) (Some x)
           | None => m end in
  let m := match pl_comment l with
           | Some x => mkAttrMeta (am_interpolation m) (am_elementSize m)
                                  (Some x) (am_customData m)
           | None => m end in
  set_attr_meta m a.

Definition missing_typeName_error : string := "`typeName` field is missing.".

(** Lines 1067-1092. *)
Definition make_property (spec_type : SpecType.t) (l : PropLocals)
  (attr : PrimAttrib) : M Impl Property :=
  match pl_propType l with
  | PropertyType.EmptyAttrib =>
    match pl_typeName l with
    | Some tn => mret (Property_of_type_name tn (pl_custom l))
    | None =>
      if decide (spec_type = SpecType.Relationship) then
        mret (Property_of_relation (SetEmpty Relation_default) false
                                   (pl_custom l))
      else PUSH_ERROR_AND_RETURN missing_typeName_error
    end
  | PropertyType.Attrib => mret (Property_of_attrib attr (pl_custom l))
  | PropertyType.Connection =>
    mret (Property_of_relation (pl_rel l) true (pl_custom l))
  | PropertyType.Relation =>
    mret (Property_of_relation (pl_rel l) false (pl_custom l))
  | PropertyType.NoTargetsRelation => PUSH_ERROR_AND_RETURN "TODO:"
  end.

Definition ParseProperty (spec_type : SpecType.t) (fvs : FieldValuePairVector)
  : M Impl Property :=
  if Z.of_nat (length fvs) >? kMaxFieldValuePairs then
    PUSH_ERROR_AND_RETURN "Too much FieldValue pairs."
  else
    l ← for_each ParseProperty_field fvs PropLocals_init;
    make_property spec_type l (store_metas l (store_scalar l)).

(** ** BuildPropertyMap *)

(** [std::map::emplace]: inserts only when the key is absent. *)
Definition emplace (k : string) (v : Property) (m : gmap string Property)
  : gmap string Property :=
  match m !! k with
  | Some _ => m
  | None => <[k := v]> m
  end.

Definition invalid_specifier_id (spec_index specs_size : Z) : string :=
  "Invalid specifier id: " +:+ pretty spec_index +:+ ". Must be in range [0, "
  +:+ pretty specs_size +:+ ")".

Definition missing_fieldset (fieldset_index : Z) : string :=
  "FieldSet id: " +:+ pretty fieldset_index
  +:+ " must exist in live fieldsets.".

(** The body of the loop over [pathIndices]. *)
Definition BuildPropertyMap_step (psmap : gmap Z Z) (pathIndex : Z)
  (props : gmap string Property) : M Impl (gmap string Property) :=
  let child_index := to_int32 pathIndex in
  nodes_size ← gets (λ i, Z.of_nat (length (_nodes i)));
  if (child_index <? 0) || (child_index >=? to_int32 nodes_size) then
    PUSH_ERROR_AND_RETURN
      ("Invalid child node id: " +:+ pretty child_index
       +:+ ". Must be in range [0, " +:+ pretty nodes_size +:+ ")")
  else
    match psmap !! to_uint32 child_index with
    | None => mret props
    | Some spec_index =>
      specs ← gets _specs;
      if spec_index >=? Z.of_nat (length specs) then
        PUSH_ERROR_AND_RETURN
          (invalid_specifier_id spec_index (Z.of_nat (length specs)))
      else
        match vector_at specs spec_index with
        | None => undefined
        | Some spec =>
          if bool_decide (spec_type spec = SpecType.Attribute)
             || bool_decide (spec_type spec = SpecType.Relationship)
          then
            path ← GetPath (path_index spec);
            match path with
            | None => PUSH_ERROR_AND_RETURN "Invalid PathIndex."
            | Some path =>
              live ← gets _live_fieldsets;
              match live !! fieldset_index spec with
              | None =>
                PUSH_ERROR_AND_RETURN (missing_fieldset (fieldset_index spec))
              | Some child_fvs =>
                let prop_name := GetPropPart path in
                prop ← or_error (ParseProperty (spec_type spec) child_fvs)
                         ("Failed to construct Property `" +:+ prop_name
                          +:+ "` from FieldValuePairVector.");
                mret (emplace prop_name prop props)
              end
            end
          else mret props
        end
    end.

Definition BuildPropertyMap (pathIndices : list Z) (psmap : gmap Z Z)
  (props : gmap string Property) : M Impl (gmap string Property) :=
  for_each (BuildPropertyMap_step psmap) pathIndices props.

(** ** Prims and the Stage *)

Record PrimMeta := mkPrimMeta {
  pm_active : option bool;
  pm_kind : option Kind.t;
  pm_assetInfo : option CustomDataType;
  pm_customData : option CustomDataType;
  pm_doc : option StringData;
  pm_comment : option StringData;
  pm_apiSchemas : option APISchemas;
  pm_sceneName : option string
}.

Definition PrimMeta_default : PrimMeta :=
  mkPrimMeta None None None None None None None None.

(** A concrete schema value ([Xform], [GeomMesh], ...) boxed in a
    [value::Value]. *)
Record TypedPrim := mkTypedPrim {
  tp_schema : PrimSchema.t;
  tp_data : SchemaData;
  tp_meta : PrimMeta;
  tp_name : string
}.

Inductive Prim := mkPrim {
  elementPath : Path;
  prim_data : TypedPrim;
  children : list Prim
}.

Definition set_elementPath (p : Path) (x : Prim) : Prim :=
  mkPrim p (prim_data x) (children x).

(** [children.emplace_back(c)] *)
Definition add_child (c : Prim) (x : Prim) : Prim :=
  mkPrim (elementPath x) (prim_data x) (children x ++ [c]).

Record StageMetas := mkStageMetas {
  upAxis : option Axis.t;
  metersPerUnit : option double;
  timeCodesPerSecond : option double;
  startTimeCode : option double;
  endTimeCode : option double;
  defaultPrim : option string;
  customLayerData : option CustomDataType;
  sm_doc : option StringData;
  sm_comment : option StringData
}.

Definition StageMetas_default : StageMetas :=
  mkStageMetas None None None None None None None None None.

Record Stage := mkStage {
  stage_metas : StageMetas;
  root_prims : list Prim
}.

Definition GetRootPrims (s : Stage) : list Prim := root_prims s.
Definition GetMetas (s : Stage) : StageMetas := stage_metas s.
Definition set_metas (m : StageMetas) (s : Stage) : Stage :=
  mkStage m (root_prims s).
Definition set_root_prims (l : list Prim) (s : Stage) : Stage :=
  mkStage (stage_metas s) l.

(** ** ReconstructPrim<T> and ReconstructPrimFromTypeName *)

Definition ReconstructPrim (T : PrimSchema.t) (node : Node) (psmap : gmap Z Z)
  : M Impl SchemaData :=
  properties ← or_error (BuildPropertyMap (GetChildren node) psmap ∅)
                 "Failed to build PropertyMap.";
  let r := prim_ReconstructPrim T properties in
  _ ← for_each (λ w (_ : unit), PUSH_WARN w) (sr_warn r) tt;
  match sr_prim r with
  | Some d => mret d
  | None => PUSH_ERROR_AND_RETURN (sr_err r)
  end.

Definition find_schema (typeName : string) : option PrimSchema.t :=
  List.find (λ T, String.eqb typeName (schema_type_name T)) PrimSchema.all.

Definition ReconstructPrimFromTypeName (typeName prim_name : string)
  (node : Node) (psmap : gmap Z Z) (meta : PrimMeta) : M Impl (option Prim) :=
  match find_schema typeName with
  | Some T =>
    λ i, match ReconstructPrim T node psmap i with
         | (Ret d, i') =>
           (Ret (Some (mkPrim Path_default (mkTypedPrim T d meta prim_name) [])),
            i')
         | (Fail, i') =>
           (Ret None, PushError ("Failed to reconstruct Prim " +:+ typeName) i')
         | (Undefined, i') => (Undefined, i')
         end
  | None =>
    _ ← PUSH_WARN ("TODO or unsupported prim type: " +:+ typeName);
    mret None
  end.

(** ** ParsePrimFields *)

(** The out-parameters of [ParsePrimFields]. *)
Record PrimFields := mkPrimFields {
  pf_typeName : option string;
  pf_specifier : option Specifier.t;
  pf_properties : list string;
  pf_primMeta : PrimMeta
}.

Definition PrimFields_init : PrimFields :=
  mkPrimFields None None [] PrimMeta_default.

Definition with_primMeta (f : PrimMeta → PrimMeta) (l : PrimFields)
  : PrimFields :=
  mkPrimFields (pf_typeName l) (pf_specifier l) (pf_properties l)
               (f (pf_primMeta l)).

Definition must_be_type (field ty : string) (v : Value) : string :=
  "`" +:+ field +:+ "` must be type `" +:+ ty +:+ "`, but got type `"
  +:+ type_name v +:+ "`".

Definition ParsePrimFields_field (fv : FieldValuePair) (l : PrimFields)
  : M Impl PrimFields :=
  let '(name, v) := fv in
  if String.eqb name "typeName" then
    match get_token v with
    | Some pv => mret (mkPrimFields (Some pv) (pf_specifier l)
                                    (pf_properties l) (pf_primMeta l))
    | None => PUSH_ERROR_AND_RETURN (must_be_type "typeName" "token" v)
    end
  else if String.eqb name "specifier" then
    match get_Specifier v with
    | Some pv => mret (mkPrimFields (pf_typeName l) (Some pv)
                                    (pf_properties l) (pf_primMeta l))
    | None => PUSH_ERROR_AND_RETURN (must_be_type "specifier" "Specifier" v)
    end
  else if String.eqb name "properties" then
    match get_token_vector v with
    | Some pv => mret (mkPrimFields (pf_typeName l) (pf_specifier l) pv
                                    (pf_primMeta l))
    | None => PUSH_ERROR_AND_RETURN (must_be_type "properties" "token[]" v)
    end
  else if String.eqb name "primChildren" then
    match get_token_vector v with
    | Some _ => mret l
    | None => PUSH_ERROR_AND_RETURN (must_be_type "primChildren" "token[]" v)
    end
  else if String.eqb name "active" then
    match get_bool v with
    | Some pv =>
      mret (with_primMeta (λ m, mkPrimMeta (Some pv) (pm_kind m)
              (pm_assetInfo m) (pm_customData m) (pm_doc m) (pm_comment m)
              (pm_apiSchemas m) (pm_sceneName m)) l)
    | None => PUSH_ERROR_AND_RETURN (must_be_type "properties" "token[]" v)
    end
  else if String.eqb name "assetInfo" then
    match get_CustomData v with
    | Some pv =>
      mret (with_primMeta (λ m, mkPrimMeta (pm_active m) (pm_kind m)
              (Some pv) (pm_customData m) (pm_doc m) (pm_comment m)
              (pm_apiSchemas m) (pm_sceneName m)) l)
    | None => PUSH_ERROR_AND_RETURN (must_be_type "assetInfo" "dictionary" v)
    end
  else if String.eqb name "kind" then
    match get_token v with
    | Some pv =>
      match KindFromString pv with
      | Some kv =>
        mret (with_primMeta (λ m, mkPrimMeta (pm_active m) (Some kv)
                (pm_assetInfo m) (pm_customData m) (pm_doc m) (pm_comment m)
                (pm_apiSchemas m) (pm_sceneName m)) l)
      | None =>
        PUSH_ERROR_AND_RETURN
          ("Invalid token for `kind` Prim metadata: `" +:+ pv +:+ "`")
      end
    | None => PUSH_ERROR_AND_RETURN (must_be_type "kind" "token" v)
    end
  else if String.eqb name "apiSchemas" then
    match get_ListOp_token v with
    | Some listop =>
      match ToAPISchemas listop with
      | Unexpected e =>
        PUSH_ERROR_AND_RETURN ("Failed to validate `apiSchemas`: " +:+ e)
      | Expected ret =>
        mret (with_primMeta (λ m, mkPrimMeta (pm_active m) (pm_kind m)
                (pm_assetInfo m) (pm_customData m) (pm_doc m) (pm_comment m)
                (Some ret) (pm_sceneName m)) l)
      end
    | None =>
      PUSH_ERROR_AND_RETURN (must_be_type "apiSchemas" "ListOp[Token]" v)
    end
  else if String.eqb name "documentation" then
    match get_string v with
    | Some pv =>
      mret (with_primMeta (λ m, mkPrimMeta (pm_active m) (pm_kind m)
              (pm_assetInfo m) (pm_customData m)
              (Some (mkStringData pv (hasNewline pv))) (pm_comment m)
              (pm_apiSchemas m) (pm_sceneName m)) l)
    | None => PUSH_ERROR_AND_RETURN (must_be_type "documentation" "string" v)
    end
  else if String.eqb name "comment" then
    match get_string v with
    | Some pv =>
      mret (with_primMeta (λ m, mkPrimMeta (pm_active m) (pm_kind m)
              (pm_assetInfo m) (pm_customData m) (pm_doc m)
              (Some (mkStringData pv (hasNewline pv)))
              (pm_apiSchemas m) (pm_sceneName m)) l)
    | None => PUSH_ERROR_AND_RETURN (must_be_type "comment" "string" v)
    end
  else if String.eqb name "customData" then
    match get_CustomData v with
    | Some pv =>
      mret (with_primMeta (λ m, mkPrimMeta (pm_active m) (pm_kind m)
              (pm_assetInfo m) (Some pv) (pm_doc m) (pm_comment m)
              (pm_apiSchemas m) (pm_sceneName m)) l)
    | None => PUSH_ERROR_AND_RETURN (must_be_type "customData" "dictionary" v)
    end
  else if String.eqb name "sceneName" then
    match get_string v with
    | Some pv =>
      mret (with_primMeta (λ m, mkPrimMeta (pm_active m) (pm_kind m)
              (pm_assetInfo m) (pm_customData m) (pm_doc m) (pm_comment m)
              (pm_apiSchemas m) (Some pv)) l)
    | None => PUSH_ERROR_AND_RETURN (must_be_type "sceneName" "string" v)
    end
  else
    _ ← PUSH_WARN ("PrimProp TODO: " +:+ name); mret l.

Definition ParsePrimFields (fvs : FieldValuePairVector) : M Impl PrimFields :=
  for_each ParsePrimFields_field fvs PrimFields_init.

(** ** ReconstrcutStageMeta *)

Definition newline : string := String (Ascii.ascii_of_nat 10) EmptyString.

(** [metas->field = ...] *)
Definition set_meta (f : StageMetas → StageMetas) : M (Impl * StageMetas) unit :=
  modify (λ s, (s.1, f s.2)).

(** A time code or unit field: float (promoted) or double. *)
Definition float_or_double (v : Value) : option double :=
  match get_float v with
  | Some vf => Some (float_to_double vf)
  | None => get_double v
  end.

Definition must_be_double_or_float (field : string) (v : Value) : string :=
  "`" +:+ field +:+ "` value must be double or float type, but got '"
  +:+ type_name v +:+ "'".

Definition type_must_be (ty field : string) (v : Value) : string :=
  "Type must be `" +:+ ty +:+ "` for `" +:+ field +:+ "`, but got "
  +:+ type_name v +:+ newline.

Definition ReconstrcutStageMeta_field (fv : FieldValuePair)
  (primChildren : list string) : M (Impl * StageMetas) (list string) :=
  let '(name, v) := fv in
  let set f := (_ ← set_meta f; mret primChildren) in
  if String.eqb name "upAxis" then
    match get_token v with
    | None => PUSH_ERROR_AND_RETURN "`upAxis` must be `token` type."
    | Some t =>
      let axis a := set (λ m, mkStageMetas (Some a) (metersPerUnit m)
                      (timeCodesPerSecond m) (startTimeCode m) (endTimeCode m)
                      (defaultPrim m) (customLayerData m) (sm_doc m)
                      (sm_comment m)) in
      if String.eqb t "Y" then axis Axis.Y
      else if String.eqb t "Z" then axis Axis.Z
      else if String.eqb t "X" then axis Axis.X
      else PUSH_ERROR_AND_RETURN
             ("`upAxis` must be 'X', 'Y' or 'Z' but got '" +:+ t
              +:+ "'(note: Case sensitive)")
    end
  else if String.eqb name "metersPerUnit" then
    match float_or_double v with
    | Some d => set (λ m, mkStageMetas (upAxis m) (Some d)
                      (timeCodesPerSecond m) (startTimeCode m) (endTimeCode m)
                      (defaultPrim m) (customLayerData m) (sm_doc m)
                      (sm_comment m))
    | None => PUSH_ERROR_AND_RETURN (must_be_double_or_float "metersPerUnit" v)
    end
  else if String.eqb name "timeCodesPerSecond" then
    match float_or_double v with
    | Some d => set (λ m, mkStageMetas (upAxis m) (metersPerUnit m) (Some d)
                      (startTimeCode m) (endTimeCode m)
                      (defaultPrim m) (customLayerData m) (sm_doc m)
                      (sm_comment m))
    | None =>
      PUSH_ERROR_AND_RETURN (must_be_double_or_float "timeCodesPerSecond" v)
    end
  else if String.eqb name "startTimeCode" then
    match float_or_double v with
    | Some d => set (λ m, mkStageMetas (upAxis m) (metersPerUnit m)
                      (timeCodesPerSecond m) (Some d) (endTimeCode m)
                      (defaultPrim m) (customLayerData m) (sm_doc m)
                      (sm_comment m))
    | None => PUSH_ERROR_AND_RETURN (must_be_double_or_float "startTimeCode" v)
    end
  else if String.eqb name "endTimeCode" then
    match float_or_double v with
    | Some d => set (λ m, mkStageMetas (upAxis m) (metersPerUnit m)
                      (timeCodesPerSecond m) (startTimeCode m) (Some d)
                      (defaultPrim m) (customLayerData m) (sm_doc m)
                      (sm_comment m))
    | None => PUSH_ERROR_AND_RETURN (must_be_double_or_float "endTimeCode" v)
    end
  else if String.eqb name "defaultPrim" then
    match get_token v with
    | None => PUSH_ERROR_AND_RETURN "`defaultPrim` must be `token` type."
    | Some t => set (λ m, mkStageMetas (upAxis m) (metersPerUnit m)
                      (timeCodesPerSecond m) (startTimeCode m) (endTimeCode m)
                      (Some t) (customLayerData m) (sm_doc m) (sm_comment m))
    end
  else if String.eqb name "customLayerData" then
    match get_CustomData v with
    | Some d => set (λ m, mkStageMetas (upAxis m) (metersPerUnit m)
                      (timeCodesPerSecond m) (startTimeCode m) (endTimeCode m)
                      (defaultPrim m) (Some d) (sm_doc m) (sm_comment m))
    | None =>
      PUSH_ERROR_AND_RETURN
        ("customLayerData must be `dictionary` type, but got type `"
         +:+ type_name v)
    end
  else if String.eqb name "primChildren" then
    match get_token_vector v with
    | None => PUSH_ERROR_AND_RETURN (type_must_be "token[]" "primChildren" v)
    | Some l => mret l
    end
  else if String.eqb name "documentation" then
    match get_string v with
    | None => PUSH_ERROR_AND_RETURN (type_must_be "string" "documentation" v)
    | Some t => set (λ m, mkStageMetas (upAxis m) (metersPerUnit m)
                      (timeCodesPerSecond m) (startTimeCode m) (endTimeCode m)
                      (defaultPrim m) (customLayerData m)
                      (Some (mkStringData t (hasNewline t))) (sm_comment m))
    end
  else if String.eqb name "comment" then
    match get_string v with
    | None => PUSH_ERROR_AND_RETURN (type_must_be "string" "comment" v)
    | Some t => set (λ m, mkStageMetas (upAxis m) (metersPerUnit m)
                      (timeCodesPerSecond m) (startTimeCode m) (endTimeCode m)
                      (defaultPrim m) (customLayerData m) (sm_doc m)
                      (Some (mkStringData t (hasNewline t))))
    end
  else
    _ ← PUSH_WARN ("[StageMeta] TODO: " +:+ name +:+ newline);
    mret primChildren.

Definition ReconstrcutStageMeta (fvs : FieldValuePairVector)
  : M (Impl * StageMetas) (list string) :=
  for_each ReconstrcutStageMeta_field fvs [].

(** [ReconstrcutStageMeta(fvs, &stage->GetMetas(), ...)] *)
Definition on_stage_metas {A} (m : M (Impl * StageMetas) A)
  : M (Impl * Stage) A :=
  λ s, let '(o, r) := m (s.1, GetMetas s.2) in (o, (r.1, set_metas r.2 s.2)).

(** ** ReconstructPrimNode *)

Abbreviation RS := (Impl * Stage)%type.

Definition too_many_fields_error : string := "Too much FieldValue pairs.".

(** The branch [current == 0]: the pseudo-root carries the Stage metas. *)
Definition ReconstructPrimNode_root (current : Z) (spec : Spec)
  (fvs : FieldValuePairVector) : M RS (option Prim) :=
  pv ← liftI (GetElemPath (to_uint32 current));
  match pv with
  | None =>
    PUSH_ERROR_AND_RETURN "(Internal error). Root Element Path not found."
  | Some _ =>
    if negb (bool_decide (spec_type spec = SpecType.PseudoRoot)) then
      PUSH_ERROR_AND_RETURN
        "SpecTypePseudoRoot expected for root layer(Stage) element."
    else
      _ ← or_error (on_stage_metas (ReconstrcutStageMeta fvs))
            "Failed to reconstruct StageMeta.";
      _ ← modify (update_impl (prim_table_insert current));
      mret None
  end.

(** The branch [spec.spec_type == SpecType::Prim]. *)
Definition ReconstructPrimNode_Prim (current : Z) (node : Node)
  (psmap : gmap Z Z) (pf : PrimFields) : M RS (option Prim) :=
  pv ← liftI (GetElemPath (to_uint32 current));
  match pv with
  | None => PUSH_ERROR_AND_RETURN "(Internal errror) Element path not found."
  | Some elemPath =>
    match pf_specifier pf with
    | None =>
      PUSH_ERROR_AND_RETURN
        "`specifier` field is missing for FieldSets with SpecType::Prim."
    | Some Specifier.Class =>
      _ ← PUSH_WARN "TODO: `class` specifier. skipping this model...";
      mret None
    | Some Specifier.Over =>
      _ ← PUSH_WARN "TODO: `over` specifier. skipping this model...";
      mret None
    | Some Specifier.Invalid => PUSH_ERROR_AND_RETURN "Invalid Specifier."
    | Some Specifier.Def =>
      typeName ← match pf_typeName pf with
                 | Some t => mret t
                 | None =>
                   _ ← PUSH_WARN
                         "Treat this node as Model(where `typeName` is missing.";
                   mret "Model"
                 end;
      let prim_name := GetPrimPart elemPath in
      if negb (ValidatePrimName prim_name) then
        PUSH_ERROR_AND_RETURN "Invalid Prim name."
      else
        prim ← liftI (ReconstructPrimFromTypeName typeName prim_name node psmap
                        (pf_primMeta pf));
        let prim := set_elementPath elemPath <$> prim in
        table ← gets (λ s : RS, _prim_table s.1);
        _ ← (if bool_decide (current ∈ table) then mret tt
             else modify (update_impl (prim_table_insert current)));
        mret prim
    end
  end.

Definition ReconstructPrimNode (parent current level : Z) (psmap : gmap Z Z)
  : M RS (option Prim) :=
  nodes ← gets (λ s : RS, _nodes s.1);
  match vector_at nodes current with
  | None => undefined
  | Some node =>
    match psmap !! to_uint32 current with
    | None => mret None
    | Some spec_index =>
      specs ← gets (λ s : RS, _specs s.1);
      if spec_index >=? Z.of_nat (length specs) then
        PUSH_ERROR_AND_RETURN
          (invalid_specifier_id spec_index (Z.of_nat (length specs)))
      else
        match vector_at specs spec_index with
        | None => undefined
        | Some spec =>
          table ← gets (λ s : RS, _prim_table s.1);
          if (bool_decide (spec_type spec = SpecType.Attribute)
              || bool_decide (spec_type spec = SpecType.Relationship))
             && bool_decide (parent ∈ table)
          then mret None
          else
            live ← gets (λ s : RS, _live_fieldsets s.1);
            match live !! fieldset_index spec with
            | None =>
              PUSH_ERROR_AND_RETURN (missing_fieldset (fieldset_index spec))
            | Some fvs =>
              if Z.of_nat (length fvs) >? kMaxFieldValuePairs then
                PUSH_ERROR_AND_RETURN too_many_fields_error
              else if current =? 0 then
                ReconstructPrimNode_root current spec fvs
              else
                pf ← or_error (liftI (ParsePrimFields fvs))
                       "Failed to parse Prim fields.";
                match spec_type spec with
                | SpecType.Prim => ReconstructPrimNode_Prim current node psmap pf
                | SpecType.VariantSet =>
                  _ ← PUSH_WARN "TODO: SpecTypeVariantSet"; mret None
                | SpecType.Variant =>
                  _ ← PUSH_WARN "TODO: SpecTypeVariant"; mret None
                | SpecType.Attribute =>
                  _ ← PUSH_WARN
                        "TODO: SpecTypeAttribute(in conjunction with Class/Over specifier?)";
                  mret None
                | ty =>
                  PUSH_ERROR_AND_RETURN
                    ("TODO: specTy = " +:+ SpecType.to_string ty)
                end
            end
        end
    end
  end.

(** ** ReconstructPrimRecursively *)

Definition depth_error : string := "Prim hierarchy is too deep.".

(** Lines 1836-1845: hand the reconstructed Prim to the Stage's root list
    (the parent is node 0) or to the parent's Prim. The result is the
    parent's Prim as the caller sees it afterwards. *)
Definition attach_prim (parent : Z) (prim rootPrim : option Prim)
  : M RS (option Prim) :=
  if parent =? 0 then
    match prim with
    | Some p =>
      _ ← modify (λ s : RS,
                    (s.1, set_root_prims (GetRootPrims s.2 ++ [p]) s.2));
      mret rootPrim
    | None => mret rootPrim
    end
  else
    match prim, rootPrim with
    | Some p, Some r => mret (Some (add_child p r))
    | _, _ => mret rootPrim
    end.

(** The loop over [node.GetChildren()]; [rec] is the recursive call and
    [None] means that it ran out of fuel. *)
Fixpoint for_children
  (rec : Z → option Prim → RS → option (Outcome (option Prim) * RS))
  (cs : list Z) (currPrim : option Prim) (s : RS)
  : option (Outcome (option Prim) * RS) :=
  match cs with
  | [] => Some (Ret currPrim, s)
  | c :: rest =>
    match rec c currPrim s with
    | None => None
    | Some (Ret currPrim', s') => for_children rec rest currPrim' s'
    | Some (Fail, s') => Some (Fail, s')
    | Some (Undefined, s') => Some (Undefined, s')
    end
  end.

(** [ReconstructPrimRecursively] with an explicit bound [fuel] on the depth
    of the calls ([None]: the bound was reached); the depth check makes
    [depth_budget level] enough, as is proved below. The result is the parent's
    Prim ([rootPrim], written through a pointer in the source) after the
    call. [level + 1] at [INT_MAX] overflows an [int]: undefined. *)
Fixpoint ReconstructPrimRecursively_fuel (fuel : nat) (parent current : Z)
  (rootPrim : option Prim) (level : Z) (psmap : gmap Z Z) (s : RS)
  : option (Outcome (option Prim) * RS) :=
  if level >? to_int32 kMaxPrimNestLevel then
    Some (PUSH_ERROR_AND_RETURN depth_error s)
  else
    let nodes_size := Z.of_nat (length (_nodes s.1)) in
    if (current <? 0) || (current >=? to_int32 nodes_size) then
      Some (PUSH_ERROR_AND_RETURN
              ("Invalid current node id: " +:+ pretty current
               +:+ ". Must be in range [0, " +:+ pretty nodes_size +:+ ")") s)
    else
      match ReconstructPrimNode parent current level psmap s with
      | (Fail, s1) => Some (Fail, s1)
      | (Undefined, s1) => Some (Undefined, s1)
      | (Ret prim, s1) =>
        match vector_at (_nodes s1.1) current with
        | None => Some (Undefined, s1)
        | Some node =>
          match fuel with
          | O => None
          | S fuel' =>
            match for_children
                    (λ c currPrim s',
                       if level =? INT_MAX then Some (Undefined, s')
                       else ReconstructPrimRecursively_fuel fuel' current
                              (to_int32 c) currPrim (level + 1) psmap s')
                    (GetChildren node) prim s1 with
            | None => None
            | Some (Ret prim', s2) => Some (attach_prim parent prim' rootPrim s2)
            | Some (Fail, s2) => Some (Fail, s2)
            | Some (Undefined, s2) => Some (Undefined, s2)
            end
          end
        end
      end.

(** The depth check lets a call at [level] nest at most this deep. *)
Definition depth_budget (level : Z) : nat :=
  Z.to_nat (to_int32 kMaxPrimNestLevel + 1 - level).

Definition ReconstructPrimRecursively (parent current : Z)
  (rootPrim : option Prim) (level : Z) (psmap : gmap Z Z)
  : M RS (option Prim) :=
  λ s, match ReconstructPrimRecursively_fuel (depth_budget level) parent
               current rootPrim level psmap s with
       | Some r => r
       | None => (Undefined, s)
       end.

(** ** ReconstructStage *)

Definition duplicate_path_index_error : string :=
  "Multiple PathIndex found in Crate data.".

(** The body of the loop over [_specs]; the accumulator is the loop index
    and the map so far. *)
Definition path_index_to_spec_index_step (spec : Spec) (acc : Z * gmap Z Z)
  : M Impl (Z * gmap Z Z) :=
  let '(i, m) := acc in
  if path_index spec =? UINT32_ALL_ONES then mret (i + 1, m)
  else
    match m !! path_index spec with
    | Some _ => PUSH_ERROR_AND_RETURN duplicate_path_index_error
    | None => mret (i + 1, <[path_index spec := to_uint32 i]> m)
    end.

Definition build_path_index_to_spec_index_map (specs : list Spec)
  : M Impl (gmap Z Z) :=
  r ← for_each path_index_to_spec_index_step specs (0, ∅);
  mret r.2.

Definition ReconstructStage : M RS unit :=
  c ← gets (λ s : RS, crate_reader s.1);
  if NumNodes c =? 0 then
    _ ← PUSH_WARN "Empty scene."; mret tt
  else
    _ ← modify (update_impl load_tables);
    specs ← gets (λ s : RS, _specs s.1);
    path_index_to_spec_index_map ←
      liftI (build_path_index_to_spec_index_map specs);
    _ ← modify (λ s : RS, (s.1, set_root_prims [] s.2));
    _ ← or_error (ReconstructPrimRecursively (-1) 0 None 0
                    path_index_to_spec_index_map)
          "Failed to reconstruct Stage(Prim hierarchy)";
    mret tt.

End Reader.

Abbreviation RS := (Impl * Stage)%type.

(** ** Vocabulary of the design document

    Definitions that follow the words of the design document; the theorems
    below compare them with the functions embedded from the source. *)

(** The six buckets of a list-op in the order [DecodeListOp] looks at
    them. *)
Definition buckets {T} (arg : ListOp T) : list (ListEditQual.t * list T) :=
  [ (ListEditQual.ResetToExplicit, GetExplicitItems arg);
    (ListEditQual.Add, GetAddedItems arg);
    (ListEditQual.Append, GetAppendedItems arg);
    (ListEditQual.Delete, GetDeletedItems arg);
    (ListEditQual.Prepend, GetPrependedItems arg);
    (ListEditQual.Order, GetOrderedItems arg) ].

Definition nonempty_buckets {T} (arg : ListOp T)
  : list (ListEditQual.t * list T) :=
  List.filter (λ b, nonempty b.2) (buckets arg).

Definition first_nonempty_bucket {T} (arg : ListOp T)
  : option (ListEditQual.t * list T) :=
  List.find (λ b, nonempty b.2) (buckets arg).

(** The targets a relation holds. *)
Definition targets (r : Relation) : list Path :=
  match rel_type r with
  | RelationType.Path => [targetPath r]
  | RelationType.PathVector => targetPathVector r
  | _ => []
  end.

(** The classification a field name asks for, if any (the assignments to
    [propType] in the loop of [ParseProperty]). *)
Definition classifier (name : string) : option PropertyType.t :=
  if String.eqb name "default" || String.eqb name "timeSamples"
     || String.eqb name "interpolation"
  then Some PropertyType.Attrib
  else if String.eqb name "connectionPaths" then Some PropertyType.Connection
  else if String.eqb name "targetPaths" then Some PropertyType.Relation
  else None.

Definition last_classifier (fvs : FieldValuePairVector)
  : option PropertyType.t :=
  last (omap (λ fv : FieldValuePair, classifier fv.1) fvs).

(** The classification by precedence over the fields seen, in the words
    of the design document; [None] is the missing-typeName error. *)
Definition precedence_class (spec_type : SpecType.t)
  (fvs : FieldValuePairVector) : option PropertyType.t :=
  let seen name := existsb (λ fv : FieldValuePair, String.eqb fv.1 name) fvs in
  if seen "default" || seen "timeSamples" then Some PropertyType.Attrib
  else if seen "connectionPaths" then Some PropertyType.Connection
  else if seen "targetPaths" then Some PropertyType.Relation
  else if seen "typeName" then Some PropertyType.EmptyAttrib
  else if bool_decide (spec_type = SpecType.Relationship)
       then Some PropertyType.Relation
  else None.

(** The value of the last field called [name]. *)
Definition last_field (name : string) (fvs : FieldValuePairVector)
  : option Value :=
  last (omap (λ fv : FieldValuePair,
                if String.eqb fv.1 name then Some fv.2 else None) fvs).

(** Lanes of a half-precision scalar or vector. *)
Definition half_lanes (v : Value) : option (list half) :=
  match v with
  | VHalf x => Some [x]
  | VHalf2 x y => Some [x; y]
  | VHalf3 x y z => Some [x; y; z]
  | VHalf4 x y z w => Some [x; y; z; w]
  | _ => None
  end.

(** Lane count and precision ([true]: double) of a float or double base
    type. *)
Definition float_family (t : TypeId) : option (nat * bool) :=
  match t with
  | TYPE_ID_FLOAT => Some (1%nat, false)
  | TYPE_ID_FLOAT2 => Some (2%nat, false)
  | TYPE_ID_FLOAT3 => Some (3%nat, false)
  | TYPE_ID_FLOAT4 => Some (4%nat, false)
  | TYPE_ID_DOUBLE => Some (1%nat, true)
  | TYPE_ID_DOUBLE2 => Some (2%nat, true)
  | TYPE_ID_DOUBLE3 => Some (3%nat, true)
  | TYPE_ID_DOUBLE4 => Some (4%nat, true)
  | _ => None
  end.

Definition pack_lanes (is_double : bool) (l : list Z) : option Value :=
  match is_double, l with
  | false, [x] => Some (VFloat x)
  | false, [x; y] => Some (VFloat2 x y)
  | false, [x; y; z] => Some (VFloat3 x y z)
  | false, [x; y; z; w] => Some (VFloat4 x y z w)
  | true, [x] => Some (VDouble x)
  | true, [x; y] => Some (VDouble2 x y)
  | true, [x; y; z] => Some (VDouble3 x y z)
  | true, [x; y; z; w] => Some (VDouble4 x y z w)
  | _, _ => None
  end.

(** The reader with the warnings [ws] appended and nothing else changed. *)
Definition add_warnings (ws : list string) (i : Impl) : Impl :=
  mkImpl (crate_reader i) (_err i) (_warn i ++ ws) (_nodes i) (_specs i)
         (_paths i) (_elemPaths i) (_live_fieldsets i) (_prim_table i).

Section Vocabulary.
Context `{ext : Externals}.

(** The up-cast rule: a value that is the half-precision counterpart of
    the base type of the declared name is widened lane by lane; any other
    value is kept. *)
Definition widened (declared : string) (v : Value) : Value :=
  match TryGetUnderlyingTypeId declared with
  | Some base =>
    match float_family base, half_lanes v with
    | Some (n, is_double), Some hs =>
      if bool_decide (length hs = n) then
        default v
          (pack_lanes is_double
             (List.map (λ h, if is_double
                            then float_to_double (half_to_float h)
                            else half_to_float h) hs))
      else v
    | _, _ => v
    end
  | None => v
  end.

(** The "required type" column of the field table of the property
    parser: the field passes the check of its branch. *)
Definition field_accepted (fv : FieldValuePair) : bool :=
  let '(name, v) := fv in
  if String.eqb name "custom" then bool_decide (is_Some (get_bool v))
  else if String.eqb name "variability" then
    bool_decide (is_Some (get_Variability v))
  else if String.eqb name "typeName" then bool_decide (is_Some (get_token v))
  else if String.eqb name "default" then true
  else if String.eqb name "timeSamples" then
    bool_decide (is_Some (get_TimeSamples v))
  else if String.eqb name "interpolation" then
    match get_token v with
    | Some t => bool_decide (is_Some (InterpolationFromString t))
    | None => false
    end
  else if String.eqb name "connectionPaths" then
    match get_ListOp_Path v with
    | Some p => IsExplicit p && nonempty (GetExplicitItems p)
    | None => false
    end
  else if String.eqb name "targetPaths" then
    match get_ListOp_Path v with
    | Some p => IsExplicit p || nonempty (nonempty_buckets p)
    | None => false
    end
  else if String.eqb name "elementSize" then
    match get_int v with
    | Some p => (1 <=? p) && (to_uint32 p <=? kMaxElementSize)
    | None => false
    end
  else if String.eqb name "targetChildren"
          || String.eqb name "connectionChildren" then
    bool_decide (is_Some (get_path_vector v))
  else if String.eqb name "customData" then
    bool_decide (is_Some (get_CustomData v))
  else if String.eqb name "comment" then bool_decide (is_Some (get_string v))
  else true.

Definition fieldset_accepted (fvs : FieldValuePairVector) : bool :=
  (Z.of_nat (length fvs) <=? kMaxFieldValuePairs)
  && forallb field_accepted fvs.

(** Node [n] has a chain of [d] nested children below it. *)
Fixpoint has_depth (nodes : list Node) (d : nat) (n : Z) : bool :=
  match d with
  | O => bool_decide (is_Some (vector_at nodes n))
  | S d' =>
    match vector_at nodes n with
    | Some node => existsb (λ c, has_depth nodes d' (to_int32 c))
                           (GetChildren node)
    | None => false
    end
  end.

(** [ReconstructPrimRecursively] up to, and without, the final hand-over
    of the reconstructed Prim ([attach_prim]): the checks, the node and
    the loop over its children. *)
Definition visit_node_fuel (fuel : nat) (parent current level : Z)
  (psmap : gmap Z Z) (s : RS) : option (Outcome (option Prim) * RS) :=
  if level >? to_int32 kMaxPrimNestLevel then
    Some (PUSH_ERROR_AND_RETURN depth_error s)
  else
    let nodes_size := Z.of_nat (length (_nodes s.1)) in
    if (current <? 0) || (current >=? to_int32 nodes_size) then
      Some (PUSH_ERROR_AND_RETURN
              ("Invalid current node id: " +:+ pretty current
               +:+ ". Must be in range [0, " +:+ pretty nodes_size +:+ ")") s)
    else
      match ReconstructPrimNode parent current level psmap s with
      | (Fail, s1) => Some (Fail, s1)
      | (Undefined, s1) => Some (Undefined, s1)
      | (Ret prim, s1) =>
        match vector_at (_nodes s1.1) current with
        | None => Some (Undefined, s1)
        | Some node =>
          match fuel with
          | O => None
          | S fuel' =>
            for_children
              (λ c currPrim s',
                 if level =? INT_MAX then Some (Undefined, s')
                 else ReconstructPrimRecursively_fuel fuel' current
                        (to_int32 c) currPrim (level + 1) psmap s')
              (GetChildren node) prim s1
          end
        end
      end.

(** The result of a call whose Prim is dropped: the state the call left,
    and no Prim for the caller. *)
Definition drop_prim (r : option (Outcome (option Prim) * RS))
  : option (Outcome (option Prim) * RS) :=
  match r with
  | Some (Ret _, s2) => Some (Ret None, s2)
  | other => other
  end.

End Vocabulary.

(** ** A reference instance of the externals

    Used to run the reader on concrete scenes. *)

(** Modelled from the spec: [half_to_float] of value-types.hh, which is not
    among the sources ("component-wise half→float"): the exact IEEE 754
    widening of a binary16 bit pattern to binary32. *)
Definition half_to_float_bits (h : Z) : Z :=
  let sign := Z.shiftl (Z.land (Z.shiftr h 15) 1) 31 in
  let e := Z.land (Z.shiftr h 10) 31 in
  let m := Z.land h 1023 in
  if e =? 0 then
    if m =? 0 then sign
    else
      let k := Z.log2 m in
      Z.lor sign (Z.lor (Z.shiftl (k + 103) 23)
                        (Z.shiftl (m - Z.shiftl 1 k) (23 - k)))
  else if e =? 31 then Z.lor sign (Z.lor 2139095040 (Z.shiftl m 13))
  else Z.lor sign (Z.lor (Z.shiftl (e + 112) 23) (Z.shiftl m 13)).

(** Modelled from the spec: the conversion [double(float)] of C++
    ("half→double"), the exact IEEE 754 widening of a binary32 bit
    pattern to binary64. *)
Definition float_to_double_bits (f : Z) : Z :=
  let sign := Z.shiftl (Z.land (Z.shiftr f 31) 1) 63 in
  let e := Z.land (Z.shiftr f 23) 255 in
  let m := Z.land f 8388607 in
  if e =? 0 then
    if m =? 0 then sign
    else
      let k := Z.log2 m in
      Z.lor sign (Z.lor (Z.shiftl (k + 874) 52)
                        (Z.shiftl (m - Z.shiftl 1 k) (52 - k)))
  else if e =? 255 then
    Z.lor sign (Z.lor (Z.shiftl 2047 52) (Z.shiftl m 29))
  else Z.lor sign (Z.lor (Z.shiftl (e + 896) 52) (Z.shiftl m 29)).

(** Modelled from the spec: [TryGetUnderlyingTypeId] of value-types.hh,
    which is not among the sources ("the underlying base type of the
    declared name"): base types map to themselves, role types to their
    arithmetic base type. *)
Definition reference_underlying_type (name : string) : option TypeId :=
  let table : list (string * TypeId) :=
    [ ("half", TYPE_ID_HALF); ("half2", TYPE_ID_HALF2);
      ("half3", TYPE_ID_HALF3); ("half4", TYPE_ID_HALF4);
      ("float", TYPE_ID_FLOAT); ("float2", TYPE_ID_FLOAT2);
      ("float3", TYPE_ID_FLOAT3); ("float4", TYPE_ID_FLOAT4);
      ("double", TYPE_ID_DOUBLE); ("double2", TYPE_ID_DOUBLE2);
      ("double3", TYPE_ID_DOUBLE3); ("double4", TYPE_ID_DOUBLE4);
      ("color3h", TYPE_ID_HALF3); ("color3f", TYPE_ID_FLOAT3);
      ("color3d", TYPE_ID_DOUBLE3); ("color4f", TYPE_ID_FLOAT4);
      ("point3f", TYPE_ID_FLOAT3); ("normal3f", TYPE_ID_FLOAT3);
      ("vector3f", TYPE_ID_FLOAT3); ("texCoord2f", TYPE_ID_FLOAT2);
      ("bool", TYPE_ID_OTHER "bool"); ("int", TYPE_ID_OTHER "int");
      ("token", TYPE_ID_OTHER "token"); ("string", TYPE_ID_OTHER "string") ] in
  snd <$> List.find (λ e, String.eqb name e.1) table.

Definition reference_interpolation (s : string) : option Interpolation.t :=
  if String.eqb s "constant" then Some Interpolation.Constant
  else if String.eqb s "uniform" then Some Interpolation.Uniform
  else if String.eqb s "varying" then Some Interpolation.Varying
  else if String.eqb s "vertex" then Some Interpolation.Vertex
  else if String.eqb s "faceVarying" then Some Interpolation.FaceVarying
  else None.

Definition reference_kind (s : string) : option Kind.t :=
  if String.eqb s "model" then Some Kind.Model
  else if String.eqb s "group" then Some Kind.Group
  else if String.eqb s "assembly" then Some Kind.Assembly
  else if String.eqb s "component" then Some Kind.Component
  else if String.eqb s "subcomponent" then Some Kind.Subcomponent
  else if String.eqb s "sceneLibrary" then Some Kind.SceneLibrary
  else None.

Fixpoint reference_hasNewline (s : string) : bool :=
  match s with
  | EmptyString => false
  | String c rest =>
    (Nat.eqb (Ascii.nat_of_ascii c) 10) || reference_hasNewline rest
  end.

Definition reference_schema_type_name (T : PrimSchema.t) : string :=
  match T with
  | PrimSchema.Xform => "Xform"
  | PrimSchema.Model => "Model"
  | PrimSchema.Scope => "Scope"
  | PrimSchema.GeomMesh => "Mesh"
  | PrimSchema.GeomPoints => "Points"
  | PrimSchema.GeomCylinder => "Cylinder"
  | PrimSchema.GeomCube => "Cube"
  | PrimSchema.GeomCone => "Cone"
  | PrimSchema.GeomSphere => "Sphere"
  | PrimSchema.GeomCapsule => "Capsule"
  | PrimSchema.GeomBasisCurves => "BasisCurves"
  | PrimSchema.GeomCamera => "Camera"
  | PrimSchema.LuxSphereLight => "SphereLight"
  | PrimSchema.LuxDomeLight => "DomeLight"
  | PrimSchema.LuxCylinderLight => "CylinderLight"
  | PrimSchema.LuxDiskLight => "DiskLight"
  | PrimSchema.LuxDistantLight => "DistantLight"
  | PrimSchema.SkelRoot => "SkelRoot"
  | PrimSchema.Skeleton => "Skeleton"
  | PrimSchema.SkelAnimation => "SkelAnimation"
  | PrimSchema.Shader => "Shader"
  | PrimSchema.Material => "Material"
  end.

(** The reference externals with nesting limit [nest]; a schema keeps the
    property map it is given. *)
Definition reference_externals (nest : Z) : Externals := {|
  kMaxFieldValuePairs := 4096;
  kMaxElementSize := 512;
  kMaxPrimNestLevel := nest;
  TryGetUnderlyingTypeId := reference_underlying_type;
  half_to_float := half_to_float_bits;
  float_to_double := float_to_double_bits;
  InterpolationFromString := reference_interpolation;
  KindFromString := reference_kind;
  hasNewline := reference_hasNewline;
  ValidatePrimName := λ s, negb (String.eqb s "");
  schema_type_name := reference_schema_type_name;
  SchemaData := gmap string Property;
  prim_ReconstructPrim := λ _ props, mkSchemaResult (Some props) [] ""
|}.

(** ** Concrete inputs *)

Definition demo_ext : Externals := reference_externals 256.

Definition root_path : Path := mkPath "/" "" true.
Definition path_A : Path := mkPath "/A" "" true.
Definition path_B : Path := mkPath "/B" "" true.

Definition empty_crate : CrateReader := mkCrateReader [] [] [] [] ∅.

(** A fieldset with both a default value and a connection. *)
Definition default_then_connection : FieldValuePairVector :=
  [ ("typeName", VToken "float"); ("default", VFloat 1065353216);
    ("connectionPaths", VListOpPath (mkListOp true [path_A] [] [] [] [] [])) ].

(** [typeName = "float3"], [default = half3(1.0, 2.0, 3.0)]. *)
Definition float3_with_half3_default : FieldValuePairVector :=
  [ ("typeName", VToken "float3"); ("default", VHalf3 15360 16384 16896) ].

(** A [targetPaths] list-op whose Prepend and Append buckets are the
    non-empty ones. *)
Definition prepend_and_append : ListOp Path :=
  mkListOp false [] [] [path_A] [path_B] [] [].

(** Two spec records that claim path index 5, in a crate without nodes. *)
Definition two_specs_one_path_index : CrateReader :=
  mkCrateReader [] [mkSpec 5 0 SpecType.Prim; mkSpec 5 1 SpecType.Prim]
                [] [] ∅.

(** The same two spec records in a crate with a pseudo-root node. *)
Definition two_specs_one_path_index_rooted : CrateReader :=
  mkCrateReader [mkNode []]
                [mkSpec 5 0 SpecType.Prim; mkSpec 5 1 SpecType.Prim]
                [root_path] [root_path] ∅.

(** A Prim node 1 with two property children, nodes 2 and 3, whose paths
    both have the property part [x]; the first is a [float] attribute, the
    second an [int] attribute. *)
Definition duplicate_property_reader : Impl :=
  mkImpl empty_crate [] []
    [mkNode [1]; mkNode [2; 3]; mkNode []; mkNode []]
    [ mkSpec 0 0 SpecType.PseudoRoot; mkSpec 1 1 SpecType.Prim;
      mkSpec 2 2 SpecType.Attribute; mkSpec 3 3 SpecType.Attribute ]
    [root_path; path_A; mkPath "/A" "x" true; mkPath "/A" "x" true]
    [root_path; mkPath "A" "" true; mkPath "x" "" true; mkPath "x" "" true]
    (list_to_map
       [ (0, []);
         (1, [("specifier", VSpecifier Specifier.Def);
              ("typeName", VToken "Xform")]);
         (2, [("typeName", VToken "float"); ("default", VFloat 1065353216)]);
         (3, [("typeName", VToken "int"); ("default", VInt 7)]) ])
    ∅.

(** The pseudo-root, below it the Prim [A] with the given specifier, and
    below [A] the Prim [B], a [def Xform]. *)
Definition nested_scene (specifier_A : Specifier.t) : CrateReader :=
  mkCrateReader
    [mkNode [1]; mkNode [2]; mkNode []]
    [ mkSpec 0 0 SpecType.PseudoRoot; mkSpec 1 1 SpecType.Prim;
      mkSpec 2 2 SpecType.Prim ]
    [root_path; path_A; mkPath "/A/B" "" true]
    [root_path; mkPath "A" "" true; mkPath "B" "" true]
    (list_to_map
       [ (0, [("upAxis", VToken "Y")]);
         (1, [("specifier", VSpecifier specifier_A);
              ("typeName", VToken "Xform")]);
         (2, [("specifier", VSpecifier Specifier.Def);
              ("typeName", VToken "Xform")]) ]).

(** A Prim node 1 with three property children: node 2 is the attribute
    [y], nodes 3 and 4 both have the property part [x], the first a
    [float] attribute, the second an [int] attribute. *)
Definition duplicate_after_other_reader : Impl :=
  mkImpl empty_crate [] []
    [mkNode [1]; mkNode [2; 3; 4]; mkNode []; mkNode []; mkNode []]
    [ mkSpec 0 0 SpecType.PseudoRoot; mkSpec 1 1 SpecType.Prim;
      mkSpec 2 2 SpecType.Attribute; mkSpec 3 3 SpecType.Attribute;
      mkSpec 4 4 SpecType.Attribute ]
    [ root_path; path_A; mkPath "/A" "y" true; mkPath "/A" "x" true;
      mkPath "/A" "x" true ]
    [ root_path; mkPath "A" "" true; mkPath "y" "" true; mkPath "x" "" true;
      mkPath "x" "" true ]
    (list_to_map
       [ (0, []);
         (1, [("specifier", VSpecifier Specifier.Def);
              ("typeName", VToken "Xform")]);
         (2, [("typeName", VToken "double"); ("default", VDouble 0)]);
         (3, [("typeName", VToken "float"); ("default", VFloat 1065353216)]);
         (4, [("typeName", VToken "int"); ("default", VInt 7)]) ])
    ∅.

(** The pseudo-root, below it the Prim [G], a [def Xform], below [G] the
    Prim [A], an [over], and below [A] the Prim [B], a [def Xform]. *)
Definition orphan_scene : CrateReader :=
  mkCrateReader
    [mkNode [1]; mkNode [2]; mkNode [3]; mkNode []]
    [ mkSpec 0 0 SpecType.PseudoRoot; mkSpec 1 1 SpecType.Prim;
      mkSpec 2 2 SpecType.Prim; mkSpec 3 3 SpecType.Prim ]
    [root_path; mkPath "/G" "" true; mkPath "/G/A" "" true;
     mkPath "/G/A/B" "" true]
    [root_path; mkPath "G" "" true; mkPath "A" "" true; mkPath "B" "" true]
    (list_to_map
       [ (0, [("upAxis", VToken "Y")]);
         (1, [("specifier", VSpecifier Specifier.Def);
              ("typeName", VToken "Xform")]);
         (2, [("specifier", VSpecifier Specifier.Over);
              ("typeName", VToken "Xform")]);
         (3, [("specifier", VSpecifier Specifier.Def);
              ("typeName", VToken "Xform")]) ]).

Definition identity_psmap (n : nat) : gmap Z Z :=
  list_to_map (List.map (λ k, (Z.of_nat k, Z.of_nat k)) (seq 0 n)).

(** Two results with the same effect on the reader and the same kind of
    outcome. *)
Definition same_effect {A} (r1 r2 : Outcome A * Impl) : Prop :=
  r1.2 = r2.2
  ∧ match r1.1, r2.1 with
    | Ret _, Ret _ | Fail, Fail | Undefined, Undefined => True
    | _, _ => False
    end.

(** The second reader differs from the first in its diagnostics only. *)
Definition diag_only (i i' : Impl) : Prop :=
  crate_reader i' = crate_reader i ∧ _nodes i' = _nodes i
  ∧ _specs i' = _specs i ∧ _paths i' = _paths i
  ∧ _elemPaths i' = _elemPaths i ∧ _live_fieldsets i' = _live_fieldsets i
  ∧ _prim_table i' = _prim_table i.

Definition diag_only_fst {X} (s s' : Impl * X) : Prop := diag_only s.1 s'.1.

(** Node [n] may be marked as a Prim: its spec is the pseudo-root spec of
    node 0, or a Prim spec. *)
Definition marks_prim (psmap : gmap Z Z) (specs : list Spec) (n : Z) : Prop :=
  ∃ spec_index spec,
    psmap !! to_uint32 n = Some spec_index
    ∧ vector_at specs spec_index = Some spec
    ∧ ((n = 0 ∧ spec_type spec = SpecType.PseudoRoot)
       ∨ spec_type spec = SpecType.Prim).

(** The second reader has the tables of the first, and its Prim marker
    table is the same or has [current] added, which then may be marked. *)
Definition node_effect (psmap : gmap Z Z) (current : Z) (i i' : Impl) : Prop :=
  crate_reader i' = crate_reader i ∧ _nodes i' = _nodes i
  ∧ _specs i' = _specs i ∧ _paths i' = _paths i
  ∧ _elemPaths i' = _elemPaths i ∧ _live_fieldsets i' = _live_fieldsets i
  ∧ (_prim_table i' = _prim_table i
     ∨ (_prim_table i' = {[current]} ∪ _prim_table i
        ∧ marks_prim psmap (_specs i) current)).

(** The second reader has the tables of the first and, if every marked
    node of the first may be marked, so has the second. *)
Definition rec_effect (psmap : gmap Z Z) (i i' : Impl) : Prop :=
  crate_reader i' = crate_reader i ∧ _nodes i' = _nodes i
  ∧ _specs i' = _specs i ∧ _paths i' = _paths i
  ∧ _elemPaths i' = _elemPaths i ∧ _live_fieldsets i' = _live_fieldsets i
  ∧ ((∀ n, n ∈ _prim_table i → marks_prim psmap (_specs i) n) →
     ∀ n, n ∈ _prim_table i' → marks_prim psmap (_specs i') n).

Definition rec_effect_fst {X} (psmap : gmap Z Z) (s s' : Impl * X) : Prop :=
  rec_effect psmap s.1 s'.1.

(** Every marked node may be marked. *)
Definition prim_table_inv (psmap : gmap Z Z) (i : Impl) : Prop :=
  ∀ n, n ∈ _prim_table i → marks_prim psmap (_specs i) n.

(** However [m] ends, it leaves a state related to the one it started
    in. *)
Definition preserves {St A} (R : St → St → Prop) (m : M St A) : Prop :=
  ∀ s, R s (m s).2.

(** [R] lets the reader inside the state change in its diagnostics. *)
Class DiagFrame (St : Type) `{!ReaderState St} (R : St → St → Prop) :=
  diag_frame : ∀ (f : Impl → Impl) (s : St),
    (∀ i, diag_only i (f i)) → R s (update_impl f s).

(** ** More of prim-types.hh: Path, Property, ListOpHeader *)

Definition slash : Ascii.ascii := Eval cbv in Ascii.ascii_of_nat 47.
Definition dot : Ascii.ascii := Eval cbv in Ascii.ascii_of_nat 46.

(** [s.find_last_of(c)]: the position of the last [c], [None] for
    [npos]. *)
Fixpoint find_last_of (c : Ascii.ascii) (s : string) : option nat :=
  match s with
  | EmptyString => None
  | String a rest =>
    match find_last_of c rest with
    | Some k => Some (S k)
    | None => if Ascii.eqb a c then Some 0%nat else None
    end
  end.

Definition IsValid (p : Path) : bool := valid p.

Definition Path_IsEmpty (p : Path) : bool :=
  (String.length (prim_part p) =? 0)%nat
  && (String.length (prop_part p) =? 0)%nat.

Definition full_path_name (p : Path) : string :=
  let s := if negb (valid p) then "#INVALID#" else "" in
  let s := s +:+ prim_part p in
  if (String.length (prop_part p) =? 0)%nat then s
  else s +:+ ("." +:+ prop_part p).

Definition IsRootPath (p : Path) : bool :=
  if negb (valid p) then false
  else if (String.length (prim_part p) =? 1)%nat
          && bool_decide (String.get 0 (prim_part p) = Some slash)
       then true
       else false.

Definition IsRootPrim (p : Path) : bool :=
  if negb (valid p) then false
  else if IsRootPath p then false
  else if (1 <? String.length (prim_part p))%nat
          && bool_decide (String.get 0 (prim_part p) = Some slash)
       then
         if bool_decide (find_last_of slash (prim_part p) = Some 0%nat)
         then true else false
       else false.

Definition IsAbsolutePath (p : Path) : bool :=
  if negb (String.length (prim_part p) =? 0)%nat then
    if (0 <? String.length (prim_part p))%nat
       && bool_decide (String.get 0 (prim_part p) = Some slash)
    then true else false
  else false.

Definition IsRelativePath (p : Path) : bool :=
  if negb (String.length (prim_part p) =? 0)%nat then negb (IsAbsolutePath p)
  else true.

(** [prim_part.erase(0, 1)] *)
Definition erase_first (s : string) : string :=
  match s with EmptyString => EmptyString | String _ rest => rest end.

(** [MakeRelative()], which changes the Path in place: the Path
    afterwards. *)
Definition MakeRelative (p : Path) : Path :=
  if IsAbsolutePath p && (1 <? String.length (prim_part p))%nat
  then mkPath (erase_first (prim_part p)) (prop_part p) (valid p)
  else p.

(** [Relation::IsPath()] *)
Definition IsPath (r : Relation) : bool :=
  match rel_type r with RelationType.Path => true | _ => false end.

(** [Property::GetConnectionTarget()] *)
Definition GetConnectionTarget (p : Property) : option Path :=
  if negb (IsConnection p) then None
  else if IsPath (rel p) then Some (targetPath (rel p))
  else None.

Module ListOpHeader.
Definition IsExplicitBit : Z := Z.shiftl 1 0.
Definition HasExplicitItemsBit : Z := Z.shiftl 1 1.
Definition HasAddedItemsBit : Z := Z.shiftl 1 2.
Definition HasDeletedItemsBit : Z := Z.shiftl 1 3.
Definition HasOrderedItemsBit : Z := Z.shiftl 1 4.
Definition HasPrependedItemsBit : Z := Z.shiftl 1 5.
Definition HasAppendedItemsBit : Z := Z.shiftl 1 6.

(** [uint8_t bits] *)
Record t := mk { bits : Z }.

(** [bits & Bit] as a [bool]. *)
Definition has (bit : Z) (h : t) : bool := negb (Z.land (bits h) bit =? 0).

Definition IsExplicit : t → bool := has IsExplicitBit.
Definition HasExplicitItems : t → bool := has HasExplicitItemsBit.
Definition HasAddedItems : t → bool := has HasAddedItemsBit.
Definition HasPrependedItems : t → bool := has HasPrependedItemsBit.
Definition HasAppendedItems : t → bool := has HasAppendedItemsBit.
Definition HasDeletedItems : t → bool := has HasDeletedItemsBit.
Definition HasOrderedItems : t → bool := has HasOrderedItemsBit.

(** [bits |= cond ? Bit : 0], stored in the [uint8_t]. *)
Definition or_bit (cond : bool) (bit : Z) (b : Z) : Z :=
  Z.lor b (if cond then bit else 0) mod 2 ^ 8.

(** [ListOpHeader(ListOpHeader const &op)] *)
Definition copy (op : t) : t :=
  let b := 0 in
  let b := or_bit (IsExplicit op) IsExplicitBit b in
  let b := or_bit (HasExplicitItems op) HasExplicitItemsBit b in
  let b := or_bit (HasAddedItems op) HasAddedItemsBit b in
  let b := or_bit (HasPrependedItems op) HasPrependedItemsBit b in
  let b := or_bit (HasAppendedItems op) HasAppendedItemsBit b in
  let b := or_bit (HasDeletedItems op) HasDeletedItemsBit b in
  let b := or_bit (HasOrderedItems op) HasOrderedItemsBit b in
  mk b.
End ListOpHeader.

(** ** More of usdc-reader.cc: the constructor and ReadUSDC *)

(** What [Impl(sr, config)] leaves in [_config.numThreads] (in a build
    without [__wasi__]); [hardware_concurrency] is the [unsigned] that
    [std::thread::hardware_concurrency()] returns. *)
Definition Impl_numThreads (hardware_concurrency numThreads : Z) : Z :=
  let numThreads :=
    if numThreads =? -1 then Z.max 1 (to_int32 hardware_concurrency)
    else numThreads in
  Z.min 1024 numThreads.

(** The crate reader while it reads ([crate::CrateReader] of
    crate-reader.hh, which is not among the sources): its constructor
    from the thread count, the stages [ReadUSDC] calls, each with its
    [bool] and the reader after the call, and its diagnostics. *)
Class CrateReading := {
  Crate : Type;
  new_CrateReader : Z → Crate;
  ReadBootStrap : Crate → bool * Crate;
  ReadTOC : Crate → bool * Crate;
  ReadTokens : Crate → bool * Crate;
  ReadStrings : Crate → bool * Crate;
  ReadFields : Crate → bool * Crate;
  ReadFieldSets : Crate → bool * Crate;
  ReadPaths : Crate → bool * Crate;
  ReadSpecs : Crate → bool * Crate;
  BuildLiveFieldSets : Crate → bool * Crate;
  crate_GetWarning : Crate → list string;
  crate_GetError : Crate → list string
}.

Section ReadUSDC.
Context `{cr : CrateReading}.

(** The members of the reader that [ReadUSDC] writes. *)
Record Reading := mkReading {
  rd_crate : Crate;
  rd_warn : list string;
  rd_err : list string
}.

(** [if (!crate_reader->Stage()) { _warn = crate_reader->GetWarning();
    _err = crate_reader->GetError(); return false; }] and then the rest
    [k] of the function. *)
Definition or_bail (stage : Crate → bool * Crate)
  (k : Reading → bool * Reading) (r : Reading) : bool * Reading :=
  let '(ok, c) := stage (rd_crate r) in
  if ok then k (mkReading c (rd_warn r) (rd_err r))
  else (false, mkReading c (crate_GetWarning c) (crate_GetError c)).

(** [ReadUSDC()], entered with the thread count of the configuration and
    the diagnostics [warn] and [err] of the reader; the crate reader is
    made anew. *)
Definition ReadUSDC (numThreads : Z) (warn err : list string)
  : bool * Reading :=
  (or_bail ReadBootStrap $ or_bail ReadTOC $ or_bail ReadTokens
   $ or_bail ReadStrings $ or_bail ReadFields $ or_bail ReadFieldSets
   $ or_bail ReadPaths $ or_bail ReadSpecs $ or_bail BuildLiveFieldSets
   $ λ r, (true, r))
    (mkReading (new_CrateReader numThreads) warn err).

(** The stages in the order [ReadUSDC] calls them. *)
Definition stages : list (Crate → bool * Crate) :=
  [ReadBootStrap; ReadTOC; ReadTokens; ReadStrings; ReadFields; ReadFieldSets;
   ReadPaths; ReadSpecs; BuildLiveFieldSets].

(** The stages [l] up to the first that fails: whether all succeeded, and
    the crate reader they leave. *)
Fixpoint run_stages (l : list (Crate → bool * Crate)) (c : Crate)
  : bool * Crate :=
  match l with
  | [] => (true, c)
  | stage :: rest =>
    let '(ok, c') := stage c in
    if ok then run_stages rest c' else (false, c')
  end.

End ReadUSDC.

(** ** Matrix helpers of xform.cc *)

(** [value::double3]; [value::matrix3d] and [value::matrix4d] with their
    [double m[N][N]], member [m3_ij] for [m[i][j]]. *)
Record double3 := mkDouble3 { v3_0 : double; v3_1 : double; v3_2 : double }.

Record matrix3d := mkMatrix3d {
  m3_00 : double; m3_01 : double; m3_02 : double;
  m3_10 : double; m3_11 : double; m3_12 : double;
  m3_20 : double; m3_21 : double; m3_22 : double
}.

Record matrix4d := mkMatrix4d {
  m4_00 : double; m4_01 : double; m4_02 : double; m4_03 : double;
  m4_10 : double; m4_11 : double; m4_12 : double; m4_13 : double;
  m4_20 : double; m4_21 : double; m4_22 : double; m4_23 : double;
  m4_30 : double; m4_31 : double; m4_32 : double; m4_33 : double
}.

(** The bit patterns of [0.0] and [1.0]. *)
Definition double_zero : double := 0.
Definition double_one : double := 4607182418800017408.

(** [Identity(&mat)] of prim-types.hh *)
Definition Identity3 : matrix3d :=
  mkMatrix3d double_one double_zero double_zero
             double_zero double_one double_zero
             double_zero double_zero double_one.

Definition Identity4 : matrix4d :=
  mkMatrix4d double_one double_zero double_zero double_zero
             double_zero double_one double_zero double_zero
             double_zero double_zero double_one double_zero
             double_zero double_zero double_zero double_one.

(** [to_matrix(m33, tx)] *)
Definition to_matrix (m33 : matrix3d) (tx : double3) : matrix4d :=
  let m := Identity4 in
  mkMatrix4d (m3_00 m33) (m3_01 m33) (m3_02 m33) (m4_03 m)
             (m3_10 m33) (m3_11 m33) (m3_12 m33) (m4_13 m)
             (m3_20 m33) (m3_21 m33) (m3_22 m33) (m4_23 m)
             (v3_0 tx) (v3_1 tx) (v3_2 tx) (m4_33 m).

(** [to_matrix3x3(m44, &tx)]: the matrix returned and the translation
    written to [tx]. *)
Definition to_matrix3x3 (m44 : matrix4d) : matrix3d * double3 :=
  (mkMatrix3d (m4_00 m44) (m4_01 m44) (m4_02 m44)
              (m4_10 m44) (m4_11 m44) (m4_12 m44)
              (m4_20 m44) (m4_21 m44) (m4_22 m44),
   mkDouble3 (m4_30 m44) (m4_31 m44) (m4_32 m44)).

(** [upper_left_3x3_only(m)]: the copy of [m] with [m[0][3]] (assigned
    three times), [m[3][0]], [m[3][1]], [m[3][2]] and [m[3][3]]
    overwritten. *)
Definition upper_left_3x3_only (m : matrix4d) : matrix4d :=
  mkMatrix4d (m4_00 m) (m4_01 m) (m4_02 m) double_zero
             (m4_10 m) (m4_11 m) (m4_12 m) (m4_13 m)
             (m4_20 m) (m4_21 m) (m4_22 m) (m4_23 m)
             double_zero double_zero double_zero double_one.

(** ** usdGeom.cc: GeomMesh::ValidateGeomSubset *)

Section GeomMesh.
(** The [faceVertexCounts] attribute of a mesh is a [TypedAttribute] of
    usdGeom.hh, which is not among the sources; it enters through the two
    members [ValidateGeomSubset] calls: whether it is authored, and its
    value if it has one. *)
Context {FaceVertexCounts : Type}
  (authored : FaceVertexCounts → bool)
  (GetValue : FaceVertexCounts → option (list Z)).

(** Of a [GeomSubset], the [uint32_t] face indices. *)
Record GeomSubset := mkGeomSubset { indices : list Z }.

(** Of a [GeomMesh], the members [ValidateGeomSubset] reads. *)
Record GeomMesh := mkGeomMesh {
  faceVertexCounts : FaceVertexCounts;
  geom_subset_children : list GeomSubset
}.

(** The lambda [CheckFaceIds]. *)
Definition CheckFaceIds (nfaces : Z) (ids : list Z) : bool :=
  if existsb (λ id, id >=? nfaces) ids then false else true.

(** The loop over the subsets: the error it returns with, if any. *)
Fixpoint check_subsets (n : Z) (subsets : list GeomSubset) : option string :=
  match subsets with
  | [] => None
  | subset :: rest =>
    if negb (CheckFaceIds n (indices subset))
    then Some ("Face index out-of-range." +:+ newline)
    else check_subsets n rest
  end.

Definition ValidateGeomSubset (mesh : GeomMesh) : expected bool :=
  match geom_subset_children mesh with
  | [] => Expected true
  | _ :: _ =>
    if negb (authored (faceVertexCounts mesh)) then
      Unexpected ("`faceVerexCounts` attribute is not present in GeomMesh."
                  +:+ newline)
    else if authored (faceVertexCounts mesh) then
      Unexpected ("TODO: Support faceVertexCounts.connect" +:+ newline)
    else
      match
        match GetValue (faceVertexCounts mesh) with
        | Some fv => check_subsets (Z.of_nat (length fv))
                                   (geom_subset_children mesh)
        | None => None
        end
      with
      | Some e => Unexpected e
      | None =>
        Unexpected ("TODO: Implent GeomMesh::ValidateGeomSubset" +:+ newline)
      end
  end.

End GeomMesh.

(** ** Vocabulary for the further properties *)

(** No [c] in [s]. *)
Fixpoint free_of (c : Ascii.ascii) (s : string) : bool :=
  match s with
  | EmptyString => true
  | String a rest => negb (Ascii.eqb a c) && free_of c rest
  end.

(** The bucket of a list-op that a qualifier names. *)
Definition bucket_of {T} (q : ListEditQual.t) (arg : ListOp T) : list T :=
  match q with
  | ListEditQual.ResetToExplicit => GetExplicitItems arg
  | ListEditQual.Add => GetAddedItems arg
  | ListEditQual.Append => GetAppendedItems arg
  | ListEditQual.Delete => GetDeletedItems arg
  | ListEditQual.Prepend => GetPrependedItems arg
  | ListEditQual.Order => GetOrderedItems arg
  | ListEditQual.Invalid => []
  end.

(** The entry of [APISchemas::names] for a token: the schema the token
    names, with an empty instance name. *)
Definition schema_entry (tok : string) (n : APIName.t * string) : Prop :=
  SchemaHandler tok = Some n.1 ∧ n.2 = "".

(** What [get] reads from the last field called [name] that it can
    read. (In a fieldset that a parser accepts, [get] reads every field
    called [name].) *)
Definition last_as {A} (name : string) (get : Value → option A)
  (fvs : FieldValuePairVector) : option A :=
  last (omap (λ fv : FieldValuePair,
                if String.eqb fv.1 name then get fv.2 else None) fvs).

(** [new] where it says something, [old] elsewhere. *)
Definition updated {A} (old new : option A) : option A :=
  match new with Some x => Some x | None => old end.

(** The readers of the fields that are not plain typed extractions. *)
Definition get_upAxis (v : Value) : option Axis.t :=
  t ← get_token v;
  if String.eqb t "Y" then Some Axis.Y
  else if String.eqb t "Z" then Some Axis.Z
  else if String.eqb t "X" then Some Axis.X
  else None.

Definition get_apiSchemas (v : Value) : option APISchemas :=
  l ← get_ListOp_token v;
  match ToAPISchemas l with Expected r => Some r | Unexpected _ => None end.

(** Every byte. *)
Definition all_bytes : list Z := List.map Z.of_nat (seq 0 256).

(** The second reader has the diagnostics of the first, in their order,
    possibly followed by more, and the Prim marks of the first, possibly
    with more. *)
Definition grows (i i' : Impl) : Prop :=
  _err i `prefix_of` _err i' ∧ _warn i `prefix_of` _warn i'
  ∧ _prim_table i ⊆ _prim_table i'.

(** What a function may do to the part of its state beside the reader. *)
Class Keeps (X : Type) := keeps : relation X.

(** The metas of the Stage may be overwritten. *)
#[global] Instance Keeps_StageMetas : Keeps StageMetas := λ _ _, True.

(** The root Prims of the Stage are only appended to. *)
#[global] Instance Keeps_Stage `{ext : Externals} : Keeps Stage :=
  λ st st', root_prims st `prefix_of` root_prims st'.

(** A state type with its reader and the relation of a state to a later
    one: the reader grows, and a change of the reader that makes it grow
    leads to a later state. *)
Class Ledger (St : Type) `{!ReaderState St} := {
  reader_of : St → Impl;
  later : relation St;
  later_preorder : PreOrder later;
  later_grows : ∀ s s', later s s' → grows (reader_of s) (reader_of s');
  later_update : ∀ f s, grows (reader_of s) (f (reader_of s)) →
                        later s (update_impl f s);
  reader_of_update : ∀ f s, reader_of (update_impl f s) = f (reader_of s)
}.
#[global] Existing Instance later_preorder.

(** [m] leads to a later state, and when it fails it has added an
    error. *)
Definition reports {St A} `{Ledger St} (m : M St A) : Prop :=
  ∀ s, later s (m s).2
       ∧ ((m s).1 = Fail →
          (length (_err (reader_of s))
           < length (_err (reader_of (m s).2)))%nat).

Section FurtherVocabulary.
Context `{ext : Externals}.

Definition get_interpolation (v : Value) : option Interpolation.t :=
  get_token v ≫= InterpolationFromString.

Definition get_kind (v : Value) : option Kind.t :=
  get_token v ≫= KindFromString.

(** A [string] field as the [StringData] the parsers make of it. *)
Definition get_StringData (v : Value) : option StringData :=
  (λ s, mkStringData s (hasNewline s)) <$> get_string v.

(** The qualifiers and metadata that the loop of [ParseProperty]
    collects. *)
Record PropMeta := mkPropMeta {
  m_custom : option bool;
  m_variability : option Variability.t;
  m_interpolation : option Interpolation.t;
  m_elementSize : option Z;
  m_customData : option CustomDataType;
  m_comment : option StringData
}.

(** Those a fieldset states. *)
Definition fieldset_meta (fvs : FieldValuePairVector) : PropMeta :=
  mkPropMeta (last_as "custom" get_bool fvs)
             (last_as "variability" get_Variability fvs)
             (last_as "interpolation" get_interpolation fvs)
             (last_as "elementSize" get_int fvs)
             (last_as "customData" get_CustomData fvs)
             (last_as "comment" get_StringData fvs).

(** Those the locals of [ParseProperty] hold. *)
Definition locals_meta (l : PropLocals) : PropMeta :=
  mkPropMeta (Some (pl_custom l)) (Some (variability (pl_attr l)))
             (pl_interpolation l) (pl_elementSize l) (pl_customData l)
             (pl_comment l).

Definition override (earlier newer : PropMeta) : PropMeta :=
  mkPropMeta (updated (m_custom earlier) (m_custom newer))
             (updated (m_variability earlier) (m_variability newer))
             (updated (m_interpolation earlier) (m_interpolation newer))
             (updated (m_elementSize earlier) (m_elementSize newer))
             (updated (m_customData earlier) (m_customData newer))
             (updated (m_comment earlier) (m_comment newer)).

(** The outputs of [ParsePrimFields] after the fields [fvs], started from
    the outputs [l]. *)
Definition PrimFields_after (l : PrimFields) (fvs : FieldValuePairVector)
  : PrimFields :=
  let m := pf_primMeta l in
  mkPrimFields
    (updated (pf_typeName l) (last_as "typeName" get_token fvs))
    (updated (pf_specifier l) (last_as "specifier" get_Specifier fvs))
    (default (pf_properties l) (last_as "properties" get_token_vector fvs))
    (mkPrimMeta
       (updated (pm_active m) (last_as "active" get_bool fvs))
       (updated (pm_kind m) (last_as "kind" get_kind fvs))
       (updated (pm_assetInfo m) (last_as "assetInfo" get_CustomData fvs))
       (updated (pm_customData m) (last_as "customData" get_CustomData fvs))
       (updated (pm_doc m) (last_as "documentation" get_StringData fvs))
       (updated (pm_comment m) (last_as "comment" get_StringData fvs))
       (updated (pm_apiSchemas m) (last_as "apiSchemas" get_apiSchemas fvs))
       (updated (pm_sceneName m) (last_as "sceneName" get_string fvs))).

(** The Prim metadata a fieldset states. *)
Definition fieldset_PrimMeta (fvs : FieldValuePairVector) : PrimMeta :=
  mkPrimMeta (last_as "active" get_bool fvs)
             (last_as "kind" get_kind fvs)
             (last_as "assetInfo" get_CustomData fvs)
             (last_as "customData" get_CustomData fvs)
             (last_as "documentation" get_StringData fvs)
             (last_as "comment" get_StringData fvs)
             (last_as "apiSchemas" get_apiSchemas fvs)
             (last_as "sceneName" get_string fvs).

(** The Stage metas after the fields [fvs], started from the metas [m]. *)
Definition StageMetas_after (m : StageMetas) (fvs : FieldValuePairVector)
  : StageMetas :=
  mkStageMetas
    (updated (upAxis m) (last_as "upAxis" get_upAxis fvs))
    (updated (metersPerUnit m) (last_as "metersPerUnit" float_or_double fvs))
    (updated (timeCodesPerSecond m)
             (last_as "timeCodesPerSecond" float_or_double fvs))
    (updated (startTimeCode m) (last_as "startTimeCode" float_or_double fvs))
    (updated (endTimeCode m) (last_as "endTimeCode" float_or_double fvs))
    (updated (defaultPrim m) (last_as "defaultPrim" get_token fvs))
    (updated (customLayerData m) (last_as "customLayerData" get_CustomData fvs))
    (updated (sm_doc m) (last_as "documentation" get_StringData fvs))
    (updated (sm_comment m) (last_as "comment" get_StringData fvs)).

(** Node [c] is a property of a Prim: it has an Attribute or Relationship
    spec whose path names the property [name] and whose fieldset parses
    to [prop]. *)
Definition property_child (psmap : gmap Z Z) (impl : Impl) (c : Z)
  (name : string) (prop : Property) : Prop :=
  ∃ spec_index spec path child_fvs,
    psmap !! to_uint32 (to_int32 c) = Some spec_index
    ∧ vector_at (_specs impl) spec_index = Some spec
    ∧ (spec_type spec = SpecType.Attribute
       ∨ spec_type spec = SpecType.Relationship)
    ∧ _paths impl !! Z.to_nat (path_index spec) = Some path
    ∧ name = GetPropPart path
    ∧ _live_fieldsets impl !! fieldset_index spec = Some child_fvs
    ∧ (ParseProperty (spec_type spec) child_fvs impl).1 = Ret prop.

(** [reports], for a call that may run out of fuel. *)
Definition reports_fuel (s : RS) (r : option (Outcome (option Prim) * RS))
  : Prop :=
  ∀ o s', r = Some (o, s') →
          (grows s.1 s'.1 ∧ root_prims s.2 `prefix_of` root_prims s'.2)
          ∧ (o = Fail → (length (_err s.1) < length (_err s'.1))%nat).

End FurtherVocabulary.

(** ** Further concrete inputs *)

(** A [float] attribute with a value, both qualifiers and metadata; the
    [elementSize] is stated twice. *)
Definition attribute_with_metadata : FieldValuePairVector :=
  [ ("typeName", VToken "float"); ("default", VFloat 1065353216);
    ("custom", VBool true); ("variability", VVariability Variability.Uniform);
    ("elementSize", VInt 3); ("comment", VString "c");
    ("elementSize", VInt 4) ].

(** A relationship with both qualifiers and a comment. *)
Definition relationship_with_metadata : FieldValuePairVector :=
  [ ("targetPaths", VListOpPath prepend_and_append); ("custom", VBool true);
    ("variability", VVariability Variability.Uniform);
    ("comment", VString "c") ].

(** An explicit [connectionPaths] list-op with two paths. *)
Definition connection_to_two : ListOp Path :=
  mkListOp true [path_A; path_B] [] [] [] [] [].

(** The fields of a Prim whose type name is stated twice. *)
Definition prim_fields_twice : FieldValuePairVector :=
  [ ("specifier", VSpecifier Specifier.Def); ("typeName", VToken "Xform");
    ("active", VBool true); ("typeName", VToken "Scope") ].

(** The fields of a pseudo-root whose up axis is stated twice. *)
Definition stage_fields_twice : FieldValuePairVector :=
  [ ("upAxis", VToken "Z"); ("primChildren", VTokenVector ["A"]);
    ("upAxis", VToken "Y") ].

(** * Properties *)

(** ** The monad *)

Lemma bind_ret_inv {St A B} (m : M St A) (k : A → M St B) s b s' :
  (m ≫= k) s = (Ret b, s') →
  ∃ a s1, m s = (Ret a, s1) ∧ k a s1 = (Ret b, s').
Proof.
  unfold mbind, M_bind, bind. destruct (m s) as [[a| |] s1]; try discriminate.
  eauto.
Qed.

Lemma bind_ret_l {St A B} (m : M St A) (k : A → M St B) s a s1 :
  m s = (Ret a, s1) → (m ≫= k) s = k a s1.
Proof. unfold mbind, M_bind, bind. by intros ->. Qed.

Lemma for_each_app {St A B} (body : A → B → M St B) l1 l2 acc s :
  for_each body (l1 ++ l2) acc s
  = (for_each body l1 acc ≫= for_each body l2) s.
Proof.
  revert acc s. induction l1 as [|x l1 IH]; intros acc s; simpl.
  - reflexivity.
  - unfold mbind, M_bind, bind in *.
    destruct (body x acc s) as [[a| |] s1]; try reflexivity.
    by rewrite IH.
Qed.

(** ** Path registry *)

(** C6 (defect): the bound check of [GetPath] and [GetElemPath] is
    [index <= size], so the index equal to the size of the table passes it
    and the lookup reads one element past the end instead of returning no
    value. *)
Theorem GetPath_at_table_size_reads_past_end (i : Impl) :
  GetPath (Z.of_nat (length (_paths i))) i = (Undefined, i)
  ∧ GetElemPath (Z.of_nat (length (_elemPaths i))) i = (Undefined, i).
Proof.
  unfold GetPath, GetElemPath. rewrite !Z.leb_refl, !Nat2Z.id.
  by rewrite !(lookup_ge_None_2 _ _ (Nat.le_refl _)).
Qed.

(** Above the size the lookups do return no value. *)
Lemma GetPath_above_size (i : Impl) (index : Z) :
  Z.of_nat (length (_paths i)) < index → GetPath index i = (Ret None, i).
Proof.
  intros H. unfold GetPath.
  destruct (Z.leb_spec index (Z.of_nat (length (_paths i)))); [lia | done].
Qed.

(** ** API schemas *)

Lemma nonempty_length {T} (l : list T) : nonempty l = true ↔ l ≠ [].
Proof. destruct l; simpl; split; congruence. Qed.



(** ** ParseProperty *)

Lemma add_warnings_nil i : add_warnings [] i = i.
Proof. destruct i. unfold add_warnings; cbn. by rewrite app_nil_r. Qed.

Lemma add_warnings_app ws1 ws2 i :
  add_warnings ws2 (add_warnings ws1 i) = add_warnings (ws1 ++ ws2) i.
Proof. unfold add_warnings; cbn. by rewrite app_assoc. Qed.

Lemma PushWarn_add_warnings w i : PushWarn w i = add_warnings [w] i.
Proof. reflexivity. Qed.

Lemma last_omap_cons {A B} (f : A → option B) (x : A) (l : list A) :
  last (omap f (x :: l))
  = match last (omap f l) with Some y => Some y | None => f x end.
Proof.
  cbn. destruct (f x) as [y|].
  - destruct (omap f l) as [|z l'] eqn:E; [reflexivity|].
    rewrite last_cons_cons. destruct (last (z :: l')) eqn:E'; [done|].
    by apply last_None in E'.
  - by destruct (last (omap f l)).
Qed.

(** Destructs the tests on a field name, in every order. *)
Ltac case_name name :=
  repeat match goal with
  | |- context [String.eqb name ?lit] =>
    let E := fresh "E" in
    destruct (String.eqb name lit) eqn:E;
    [apply String.eqb_eq in E; subst name; cbn|]
  end.

Lemma DecodeListOp_buckets {T} (p : ListOp T) :
  DecodeListOp p
  = if IsExplicit p then [(ListEditQual.ResetToExplicit, GetExplicitItems p)]
    else nonempty_buckets p.
Proof.
  destruct p as [e ex ad pr ap de od]. unfold DecodeListOp, nonempty_buckets.
  cbn. destruct e; [done|]. by destruct ex, ad, ap, de, pr, od.
Qed.

Lemma first_nonempty_bucket_head {T} (p : ListOp T) :
  first_nonempty_bucket p = head (nonempty_buckets p).
Proof.
  unfold first_nonempty_bucket, nonempty_buckets.
  induction (buckets p) as [|b l IH]; cbn; [done|].
  by destruct (nonempty b.2).
Qed.

Section ParsePropertyProps.
Context `{ext : Externals}.

(** The [targetPaths] branch on a list-op that decodes to at least one
    bucket: the first decoded bucket gives targets and qualifier, and a
    warning is pushed iff more buckets were decoded. *)
Lemma ParseProperty_targetPaths_accepted (p : ListOp Path) (l : PropLocals)
  (i : Impl) :
  IsExplicit p || nonempty (nonempty_buckets p) = true →
  ∃ q items more,
    DecodeListOp p = (q, items) :: more
    ∧ ParseProperty_targetPaths p l i
      = (Ret (with_rel (SetListEditQualifier q (Set_items items (pl_rel l))) l),
         add_warnings (if nonempty more then [multi_listop_warning q] else [])
                      i).
Proof.
  intros H. unfold ParseProperty_targetPaths.
  assert (DecodeListOp p ≠ []) as Hne.
  { rewrite DecodeListOp_buckets. destruct (IsExplicit p); [done|].
    cbn in H. by apply nonempty_length. }
  destruct (DecodeListOp p) as [|[q items] more]; [done|].
  exists q, items, more. split; [done|].
  destruct more; cbn; [by rewrite add_warnings_nil | reflexivity].
Qed.

Ltac use_acceptance :=
  repeat match goal with
  | H : bool_decide (is_Some ?x) = true |- _ =>
    apply bool_decide_eq_true in H; destruct H as [? H]; rewrite ?H
  | H : match ?x with Some _ => _ | None => false end = true |- _ =>
    destruct x eqn:?; [|discriminate H]
  | H : (_ && _) = true |- _ => apply andb_true_iff in H; destruct H
  end.

Ltac field_done :=
  first [ eexists _, []; rewrite add_warnings_nil; split; [reflexivity|]
        | eexists _, [_]; split; [reflexivity|] ];
  repeat split; try reflexivity; intros; try discriminate; try congruence.

(** One accepted field: the branch of the loop runs through, only warns,
    and updates the locals as its name says. *)
Lemma ParseProperty_field_accepted (fv : FieldValuePair) (l : PropLocals)
  (i : Impl) :
  field_accepted fv = true →
  ∃ l' ws,
    ParseProperty_field fv l i = (Ret l', add_warnings ws i)
    ∧ pl_propType l' = default (pl_propType l) (classifier fv.1)
    ∧ pl_typeName l'
      = (if String.eqb fv.1 "typeName" then get_token fv.2 else pl_typeName l)
    ∧ (pl_is_scalar l', pl_scalar l')
      = (if String.eqb fv.1 "default" then (true, fv.2)
         else (pl_is_scalar l, pl_scalar l))
    ∧ (String.eqb fv.1 "connectionPaths" = false →
       String.eqb fv.1 "targetPaths" = false → pl_rel l' = pl_rel l).
Proof.
  destruct fv as [name v]. unfold field_accepted, ParseProperty_field, classifier.
  cbn [fst snd]. case_name name.
  all: intros Hacc; use_acceptance.
  all: try solve [field_done].
  all: match goal with
       | H : IsExplicit ?p = true, H0 : nonempty (GetExplicitItems ?p) = true
         |- _ =>
         rewrite H; destruct (GetExplicitItems p); [discriminate H0|];
         cbn; field_done
       | H : IsExplicit ?p || _ = true |- _ =>
         destruct (ParseProperty_targetPaths_accepted p
                     (with_propType PropertyType.Relation l) i H)
           as (q & items & more & _ & ->);
         eexists _, _; split; [reflexivity|]; repeat split; intros; discriminate
       | H : (1 <=? ?z) = true, H0 : (to_uint32 ?z <=? _) = true |- _ =>
         apply Z.leb_le in H, H0;
         destruct (Z.ltb_spec z 1); [lia|];
         destruct (Z.gtb_spec (to_uint32 z) kMaxElementSize); [lia|];
         cbn; field_done
       end.
Qed.

Lemma classifier_None_rel (name : string) :
  classifier name = None →
  String.eqb name "connectionPaths" = false
  ∧ String.eqb name "targetPaths" = false.
Proof.
  unfold classifier.
  destruct (String.eqb name "default" || String.eqb name "timeSamples"
            || String.eqb name "interpolation"); [done|].
  by destruct (String.eqb name "connectionPaths"),
              (String.eqb name "targetPaths").
Qed.

Lemma classifier_range (name : string) (k : PropertyType.t) :
  classifier name = Some k →
  k = PropertyType.Attrib ∨ k = PropertyType.Connection
  ∨ k = PropertyType.Relation.
Proof.
  unfold classifier.
  destruct (String.eqb name "default" || String.eqb name "timeSamples"
            || String.eqb name "interpolation"); [naive_solver|].
  destruct (String.eqb name "connectionPaths"); [naive_solver|].
  destruct (String.eqb name "targetPaths"); naive_solver.
Qed.

Lemma last_classifier_range (fvs : FieldValuePairVector) (k : PropertyType.t) :
  last_classifier fvs = Some k →
  k = PropertyType.Attrib ∨ k = PropertyType.Connection
  ∨ k = PropertyType.Relation.
Proof.
  intros H%last_Some_elem_of. apply list_elem_of_omap in H as (fv & _ & H).
  by eapply classifier_range.
Qed.

Lemma last_classifier_None (fvs : FieldValuePairVector) :
  Forall (λ fv : FieldValuePair, classifier fv.1 = None) fvs →
  last_classifier fvs = None.
Proof.
  intros H. unfold last_classifier. apply last_None.
  induction H as [|fv fvs Hfv _ IH]; cbn; [done|]. by rewrite Hfv.
Qed.

(** The loop over an accepted fieldset runs through and leaves in the
    locals what the last field of each kind asked for. *)
Lemma ParseProperty_loop_accepted (fvs : FieldValuePairVector) :
  ∀ (l : PropLocals) (i : Impl),
  forallb field_accepted fvs = true →
  ∃ l' ws,
    for_each ParseProperty_field fvs l i = (Ret l', add_warnings ws i)
    ∧ pl_propType l' = default (pl_propType l) (last_classifier fvs)
    ∧ pl_typeName l'
      = match last_field "typeName" fvs with
        | Some v => get_token v
        | None => pl_typeName l
        end
    ∧ (pl_is_scalar l', pl_scalar l')
      = match last_field "default" fvs with
        | Some v => (true, v)
        | None => (pl_is_scalar l, pl_scalar l)
        end
    ∧ (Forall (λ fv : FieldValuePair, classifier fv.1 = None) fvs →
       pl_rel l' = pl_rel l).
Proof.
  induction fvs as [|fv fvs IH]; intros l i Hacc.
  - exists l, []. rewrite add_warnings_nil. by repeat split.
  - cbn in Hacc. apply andb_true_iff in Hacc as [Hfv Hfvs].
    destruct (ParseProperty_field_accepted fv l i Hfv)
      as (l1 & ws1 & Hstep & Hty1 & Htn1 & Hsc1 & Hrel1).
    destruct (IH l1 (add_warnings ws1 i) Hfvs)
      as (l' & ws2 & Hloop & Hty & Htn & Hsc & Hrel).
    exists l', (ws1 ++ ws2). cbn [for_each].
    rewrite (bind_ret_l _ _ _ _ _ Hstep), Hloop, add_warnings_app.
    split; [done|]. unfold last_classifier, last_field in *.
    rewrite !last_omap_cons. repeat split.
    + rewrite Hty, Hty1.
      match goal with |- context [last ?x] => destruct (last x) end;
        by destruct (classifier fv.1).
    + rewrite Htn, Htn1. cbn [fst snd].
      match goal with |- context [last ?x] => destruct (last x) end; [done|].
      by destruct (String.eqb fv.1 "typeName").
    + rewrite Hsc.
      match goal with |- context [last ?x] => destruct (last x) end; [done|].
      rewrite Hsc1. by destruct (String.eqb fv.1 "default").
    + intros Hall. apply Forall_cons in Hall as [Hc Hall].
      rewrite (Hrel Hall). apply classifier_None_rel in Hc as [? ?]. auto.
Qed.

Lemma fieldset_accepted_inv (fvs : FieldValuePairVector) :
  fieldset_accepted fvs = true →
  (Z.of_nat (length fvs) >? kMaxFieldValuePairs) = false
  ∧ forallb field_accepted fvs = true.
Proof.
  unfold fieldset_accepted. intros [H1 H2]%andb_true_iff. split; [|done].
  apply Z.leb_le in H1. destruct (Z.gtb_spec (Z.of_nat (length fvs))
                                    kMaxFieldValuePairs); [lia|done].
Qed.

(** What [ParseProperty] is on an accepted fieldset, in terms of the
    locals its loop leaves. *)
Lemma ParseProperty_accepted (spec_type : SpecType.t)
  (fvs : FieldValuePairVector) (i : Impl) :
  fieldset_accepted fvs = true →
  ∃ l' ws,
    for_each ParseProperty_field fvs PropLocals_init i
    = (Ret l', add_warnings ws i)
    ∧ ParseProperty spec_type fvs i
      = make_property spec_type l' (store_metas l' (store_scalar l'))
                      (add_warnings ws i)
    ∧ pl_propType l'
      = default PropertyType.EmptyAttrib (last_classifier fvs)
    ∧ pl_typeName l'
      = match last_field "typeName" fvs with
        | Some v => get_token v
        | None => None
        end
    ∧ (pl_is_scalar l', pl_scalar l')
      = match last_field "default" fvs with
        | Some v => (true, v)
        | None => (false, VNull)
        end.
Proof.
  intros [Hsize Hacc]%fieldset_accepted_inv.
  destruct (ParseProperty_loop_accepted fvs PropLocals_init i Hacc)
    as (l' & ws & Hloop & Hty & Htn & Hsc & _).
  exists l', ws. unfold ParseProperty. rewrite Hsize.
  rewrite (bind_ret_l _ _ _ _ _ Hloop). by repeat split.
Qed.

Lemma last_field_typeName_accepted (fvs : FieldValuePairVector) (v : Value) :
  forallb field_accepted fvs = true →
  last_field "typeName" fvs = Some v → ∃ tn, v = VToken tn.
Proof.
  intros Hacc H%last_Some_elem_of.
  apply list_elem_of_omap in H as ([name w] & Hin & H). cbn in H.
  destruct (String.eqb name "typeName") eqn:E; [|done].
  injection H as ->. apply String.eqb_eq in E as ->.
  rewrite forallb_forall in Hacc. apply list_elem_of_In, Hacc in Hin.
  cbn in Hin. apply bool_decide_eq_true in Hin as [tn Htn].
  exists tn. destruct v; cbn in Htn; congruence.
Qed.

(** C1, as amended: on a fieldset whose fields all have their required
    type, [ParseProperty] classifies by the LAST classifying field in
    fieldset order ([default], [timeSamples] or [interpolation]: Attr;
    [connectionPaths]: Connection; [targetPaths]: Relationship), not by a
    precedence among the fields seen; only when there is none does it go
    on as the claim says: [typeName] seen gives an EmptyAttr, else a
    Relationship spec gives a relationship without targets, else the
    missing-typeName error. *)
Theorem ParseProperty_classifies_by_last_field (spec_type : SpecType.t)
  (fvs : FieldValuePairVector) (i : Impl) :
  fieldset_accepted fvs = true →
  match last_classifier fvs with
  | Some k =>
    ∃ prop ws, ParseProperty spec_type fvs i = (Ret prop, add_warnings ws i)
               ∧ prop_type prop = k
  | None =>
    match last_field "typeName" fvs with
    | Some _ =>
      ∃ prop ws, ParseProperty spec_type fvs i = (Ret prop, add_warnings ws i)
                 ∧ prop_type prop = PropertyType.EmptyAttrib
    | None =>
      if decide (spec_type = SpecType.Relationship) then
        ∃ prop ws,
          ParseProperty spec_type fvs i = (Ret prop, add_warnings ws i)
          ∧ prop_type prop = PropertyType.Relation
          ∧ rel_type (rel prop) = RelationType.Empty
      else
        ∃ ws, ParseProperty spec_type fvs i
              = (Fail, PushError missing_typeName_error (add_warnings ws i))
    end
  end.
Proof.
  intros Hacc.
  destruct (ParseProperty_accepted spec_type fvs i Hacc)
    as (l' & ws & _ & -> & Hty & Htn & _).
  apply fieldset_accepted_inv in Hacc as [_ Hacc].
  unfold make_property. rewrite Hty, Htn.
  destruct (last_classifier fvs) as [k|] eqn:Hk; cbn.
  - apply last_classifier_range in Hk as [-> | [-> | ->]];
      eexists _, ws; split; reflexivity.
  - destruct (last_field "typeName" fvs) as [v|] eqn:Hv.
    + destruct (last_field_typeName_accepted fvs v Hacc Hv) as [tn ->].
      cbn. eexists _, ws. split; reflexivity.
    + destruct (decide (spec_type = SpecType.Relationship)).
      * eexists _, ws. repeat split; reflexivity.
      * exists ws. reflexivity.
Qed.

Lemma UpcastType_widened (reqType : string) (v : Value) :
  (UpcastType reqType v).2 = widened reqType v.
Proof.
  unfold UpcastType, widened.
  destruct (TryGetUnderlyingTypeId reqType) as [tyid|]; [|done].
  destruct tyid, v; reflexivity.
Qed.

Lemma store_metas_var (l : PropLocals) (a : PrimAttrib) :
  get_var (store_metas l a) = get_var a.
Proof.
  unfold store_metas.
  by destruct (pl_interpolation l), (pl_elementSize l), (pl_customData l),
              (pl_comment l).
Qed.

(** C2: an attribute whose declared type name is not the type name of its
    default value stores the value widened lane by lane when the value is
    the half-precision counterpart of the float or double base type of
    the declared name, and unchanged otherwise; so [typeName = "float3"]
    with a [half3] default stores the [float3] of the widened lanes. *)
Theorem ParseProperty_upcasts_half_default (spec_type : SpecType.t)
  (fvs : FieldValuePairVector) (i : Impl) (tn : string) (v : Value) :
  fieldset_accepted fvs = true →
  last_classifier fvs = Some PropertyType.Attrib →
  last_field "typeName" fvs = Some (VToken tn) →
  last_field "default" fvs = Some v →
  tn ≠ type_name v →
  (∃ prop ws,
     ParseProperty spec_type fvs i = (Ret prop, add_warnings ws i)
     ∧ prop_type prop = PropertyType.Attrib
     ∧ get_var (attrib prop) = PrimVar_scalar (widened tn v))
  ∧ (TryGetUnderlyingTypeId "float3" = Some TYPE_ID_FLOAT3 →
     ∀ x y z, widened "float3" (VHalf3 x y z)
              = VFloat3 (half_to_float x) (half_to_float y) (half_to_float z)).
Proof.
  intros Hacc Hk Htn Hv Hne. split.
  - destruct (ParseProperty_accepted spec_type fvs i Hacc)
      as (l' & ws & _ & -> & Hty & Htn' & Hsc).
    rewrite Hk in Hty. rewrite Htn in Htn'. rewrite Hv in Hsc.
    injection Hsc as His Hsc. cbn in Hty, Htn'.
    eexists _, ws. unfold make_property. rewrite Hty.
    split; [reflexivity|]. split; [reflexivity|].
    cbn [attrib Property_of_attrib]. rewrite store_metas_var.
    unfold store_scalar. rewrite His, Htn', Hsc.
    apply String.eqb_neq in Hne. rewrite Hne. cbn [negb].
    by rewrite UpcastType_widened.
  - intros Hty x y z. unfold widened. by rewrite Hty.
Qed.

Lemma Set_items_targets (items : list Path) (r : Relation) :
  targets (Set_items items r) = items.
Proof. by destruct items as [|? [|? ?]]. Qed.

(** C3, as amended: when the last classifying field of an accepted
    fieldset is a [targetPaths] whose list-op is not explicit and has more
    than one non-empty bucket, [ParseProperty] succeeds with a warning
    and the relationship takes the targets and the qualifier of the
    first non-empty bucket in the order ResetToExplicit, Add, Append,
    Delete, Prepend, Order; so when exactly the Prepend and Append
    buckets are non-empty it uses the items of the Append bucket. *)
Theorem ParseProperty_targetPaths_first_bucket (spec_type : SpecType.t)
  (pre post : FieldValuePairVector) (p : ListOp Path) (i : Impl) :
  fieldset_accepted (pre ++ ("targetPaths", VListOpPath p) :: post) = true →
  IsExplicit p = false →
  (2 ≤ length (nonempty_buckets p))%nat →
  Forall (λ fv : FieldValuePair, classifier fv.1 = None) post →
  ∃ prop ws q items,
    ParseProperty spec_type (pre ++ ("targetPaths", VListOpPath p) :: post) i
    = (Ret prop, add_warnings ws i)
    ∧ first_nonempty_bucket p = Some (q, items)
    ∧ prop_type prop = PropertyType.Relation
    ∧ targets (rel prop) = items
    ∧ rel_listOpQual (rel prop) = q
    ∧ multi_listop_warning q ∈ ws
    ∧ (nonempty_buckets p
       = [ (ListEditQual.Append, GetAppendedItems p);
           (ListEditQual.Prepend, GetPrependedItems p) ] →
       q = ListEditQual.Append ∧ items = GetAppendedItems p).
Proof.
  intros Hacc Hexp Hmulti Hpost.
  apply fieldset_accepted_inv in Hacc as [Hsize Hacc].
  rewrite forallb_app in Hacc. cbn [forallb] in Hacc.
  apply andb_true_iff in Hacc as [Hpre Hacc].
  apply andb_true_iff in Hacc as [Hfield Hpostacc].
  destruct (ParseProperty_loop_accepted pre PropLocals_init i Hpre)
    as (l1 & ws1 & Hloop1 & _).
  assert (IsExplicit p || nonempty (nonempty_buckets p) = true) as Hp.
  { rewrite Hexp. cbn [orb].
    destruct (nonempty_buckets p); [cbn in Hmulti; lia|done]. }
  destruct (ParseProperty_targetPaths_accepted p
              (with_propType PropertyType.Relation l1) (add_warnings ws1 i) Hp)
    as (q & items & more & Hdec & Hstep).
  rewrite DecodeListOp_buckets, Hexp in Hdec.
  assert (nonempty more = true) as Hmore.
  { rewrite Hdec in Hmulti. destruct more; [cbn in Hmulti; lia|done]. }
  rewrite Hmore in Hstep.
  set (l2 := with_rel (SetListEditQualifier q
                         (Set_items items (pl_rel
                            (with_propType PropertyType.Relation l1))))
                      (with_propType PropertyType.Relation l1)) in *.
  destruct (ParseProperty_loop_accepted post l2
              (add_warnings [multi_listop_warning q] (add_warnings ws1 i))
              Hpostacc)
    as (l3 & ws3 & Hloop3 & Hty3 & _ & _ & Hrel3).
  rewrite (last_classifier_None post Hpost) in Hty3. cbn in Hty3.
  specialize (Hrel3 Hpost).
  exists (Property_of_relation (pl_rel l3) false (pl_custom l3)),
         ((ws1 ++ [multi_listop_warning q]) ++ ws3), q, items.
  split.
  { assert (for_each ParseProperty_field
              (pre ++ ("targetPaths", VListOpPath p) :: post) PropLocals_init i
            = (Ret l3, add_warnings ((ws1 ++ [multi_listop_warning q]) ++ ws3)
                                    i)) as Hloop.
    { rewrite for_each_app, (bind_ret_l _ _ _ _ _ Hloop1). cbn [for_each].
      change (ParseProperty_field ("targetPaths", VListOpPath p) l1)
        with (ParseProperty_targetPaths p
                (with_propType PropertyType.Relation l1)).
      rewrite (bind_ret_l _ _ _ _ _ Hstep), Hloop3, !add_warnings_app.
      by rewrite <- ?app_assoc. }
    unfold ParseProperty. rewrite Hsize, (bind_ret_l _ _ _ _ _ Hloop).
    unfold make_property. by rewrite Hty3. }
  split. { by rewrite first_nonempty_bucket_head, Hdec. }
  split; [reflexivity|]. cbn [rel Property_of_relation]. rewrite Hrel3.
  split. { subst l2. cbn. apply Set_items_targets. }
  split; [reflexivity|].
  split. { set_solver. }
  intros Hexact. rewrite Hexact in Hdec. by injection Hdec as <- <- _.
Qed.

End ParsePropertyProps.

Lemma ParseProperty_classifies_by_last_field_witness :
  fieldset_accepted (ext := demo_ext) default_then_connection = true
  ∧ ∃ prop ws,
      ParseProperty (ext := demo_ext) SpecType.Attribute
                    default_then_connection (Impl_init empty_crate)
      = (Ret prop, add_warnings ws (Impl_init empty_crate))
      ∧ prop_type prop = PropertyType.Connection.
Proof.
  split; [reflexivity|].
  exact (ParseProperty_classifies_by_last_field (ext := demo_ext)
           SpecType.Attribute default_then_connection (Impl_init empty_crate)
           eq_refl).
Defined.

(** C1 as stated fails: with a [default] followed by a [connectionPaths]
    the precedence of the claim gives an Attr, the reader a Connection. *)
Lemma ParseProperty_precedence_counterexample :
  precedence_class SpecType.Attribute default_then_connection
  = Some PropertyType.Attrib
  ∧ ∃ prop i',
      ParseProperty (ext := demo_ext) SpecType.Attribute
                    default_then_connection (Impl_init empty_crate)
      = (Ret prop, i')
      ∧ prop_type prop = PropertyType.Connection
      ∧ prop_type prop ≠ PropertyType.Attrib.
Proof.
  split; [reflexivity|]. eexists _, _.
  split; [vm_compute; reflexivity|]. split; [reflexivity|discriminate].
Qed.

Lemma ParseProperty_upcasts_half_default_witness :
  (∃ prop ws,
     ParseProperty (ext := demo_ext) SpecType.Attribute
                   float3_with_half3_default (Impl_init empty_crate)
     = (Ret prop, add_warnings ws (Impl_init empty_crate))
     ∧ prop_type prop = PropertyType.Attrib
     ∧ get_var (attrib prop)
       = PrimVar_scalar (VFloat3 1065353216 1073741824 1077936128))
  ∧ widened (ext := demo_ext) "float3" (VHalf3 15360 16384 16896)
    = VFloat3 1065353216 1073741824 1077936128.
Proof.
  pose proof (ParseProperty_upcasts_half_default (ext := demo_ext)
                SpecType.Attribute float3_with_half3_default
                (Impl_init empty_crate) "float3"
                (VHalf3 15360 16384 16896)
                eq_refl eq_refl eq_refl eq_refl
                ltac:(discriminate)) as [H1 H2].
  split; [exact H1 | exact (H2 eq_refl 15360 16384 16896)].
Defined.

Lemma ParseProperty_targetPaths_first_bucket_witness :
  ∃ prop ws q items,
    ParseProperty (ext := demo_ext) SpecType.Relationship
                  [("targetPaths", VListOpPath prepend_and_append)]
                  (Impl_init empty_crate)
    = (Ret prop, add_warnings ws (Impl_init empty_crate))
    ∧ first_nonempty_bucket prepend_and_append = Some (q, items)
    ∧ prop_type prop = PropertyType.Relation
    ∧ targets (rel prop) = items
    ∧ rel_listOpQual (rel prop) = q
    ∧ multi_listop_warning q ∈ ws
    ∧ (nonempty_buckets prepend_and_append
       = [ (ListEditQual.Append, GetAppendedItems prepend_and_append);
           (ListEditQual.Prepend, GetPrependedItems prepend_and_append) ] →
       q = ListEditQual.Append ∧ items = GetAppendedItems prepend_and_append).
Proof.
  apply (ParseProperty_targetPaths_first_bucket (ext := demo_ext)
           SpecType.Relationship [] [] prepend_and_append
           (Impl_init empty_crate)).
  - reflexivity.
  - reflexivity.
  - cbn. lia.
  - constructor.
Defined.

(** C3 as stated fails in its example: with exactly the Prepend and Append
    buckets non-empty the relationship gets the items of the Append
    bucket, which comes first in the order, not those of Prepend. *)
Lemma ParseProperty_targetPaths_prepend_counterexample :
  ∃ prop i',
    ParseProperty (ext := demo_ext) SpecType.Relationship
                  [("targetPaths", VListOpPath prepend_and_append)]
                  (Impl_init empty_crate)
    = (Ret prop, i')
    ∧ targets (rel prop) = GetAppendedItems prepend_and_append
    ∧ rel_listOpQual (rel prop) = ListEditQual.Append
    ∧ targets (rel prop) ≠ GetPrependedItems prepend_and_append.
Proof.
  eexists _, _. split; [vm_compute; reflexivity|].
  split; [reflexivity|]. split; [reflexivity|]. discriminate.
Qed.

(** ** The path-index-to-spec-index map *)

Section PathIndexMap.
Context `{ext : Externals}.

(** A spec whose path index is already a key makes the loop fail. *)
Lemma path_index_loop_key_taken (specs : list Spec) :
  ∀ (i0 : Z) (m0 : gmap Z Z) (impl : Impl) (k : nat) (sk : Spec),
  specs !! k = Some sk →
  path_index sk ≠ UINT32_ALL_ONES →
  is_Some (m0 !! path_index sk) →
  for_each path_index_to_spec_index_step specs (i0, m0) impl
  = (Fail, PushError duplicate_path_index_error impl).
Proof.
  induction specs as [|spec specs IH]; intros i0 m0 impl k sk Hk Hne Hin;
    [done|].
  cbn [for_each]. unfold mbind, M_bind, bind.
  unfold path_index_to_spec_index_step at 1.
  destruct (Z.eqb_spec (path_index spec) UINT32_ALL_ONES) as [Hs|Hs].
  - destruct k as [|k]; [cbn in Hk; congruence|]. cbn. by eapply IH.
  - destruct (m0 !! path_index spec) eqn:Hm; [done|]. cbn.
    destruct k as [|k]; cbn in Hk.
    + injection Hk as ->. rewrite Hm in Hin. by destruct Hin.
    + eapply IH; [done..|].
      destruct (decide (path_index spec = path_index sk)) as [->|?].
      * by rewrite lookup_insert_eq.
      * by rewrite lookup_insert_ne.
Qed.

(** Two non-sentinel specs with one path index make the loop fail. *)
Lemma path_index_loop_duplicate (specs : list Spec) :
  ∀ (i0 : Z) (m0 : gmap Z Z) (impl : Impl) (j k : nat) (sj sk : Spec),
  (j < k)%nat →
  specs !! j = Some sj → specs !! k = Some sk →
  path_index sj = path_index sk →
  path_index sj ≠ UINT32_ALL_ONES →
  for_each path_index_to_spec_index_step specs (i0, m0) impl
  = (Fail, PushError duplicate_path_index_error impl).
Proof.
  induction specs as [|spec specs IH];
    intros i0 m0 impl j k sj sk Hjk Hj Hk Heq Hne; [done|].
  destruct k as [|k]; [lia|]. cbn in Hk.
  cbn [for_each]. unfold mbind, M_bind, bind.
  unfold path_index_to_spec_index_step at 1.
  destruct j as [|j]; cbn in Hj.
  - injection Hj as ->.
    destruct (Z.eqb_spec (path_index sj) UINT32_ALL_ONES); [done|].
    destruct (m0 !! path_index sj) eqn:Hm; [done|]. cbn.
    eapply path_index_loop_key_taken; [done| congruence |].
    rewrite <- Heq. by rewrite lookup_insert_eq.
  - destruct (Z.eqb_spec (path_index spec) UINT32_ALL_ONES).
    + cbn. eapply (IH _ _ _ j k); [lia|done..].
    + destruct (m0 !! path_index spec); [done|]. cbn.
      eapply (IH _ _ _ j k); [lia|done..].
Qed.

(** The loop either fails on a taken key or returns the map so far
    extended by the non-sentinel specs, each under its own index. *)
Lemma path_index_loop_result (specs : list Spec) :
  ∀ (i0 : Z) (m0 : gmap Z Z) (impl : Impl),
  for_each path_index_to_spec_index_step specs (i0, m0) impl
  = (Fail, PushError duplicate_path_index_error impl)
  ∨ ∃ n m,
      for_each path_index_to_spec_index_step specs (i0, m0) impl
      = (Ret (n, m), impl)
      ∧ (∀ p v, m0 !! p = Some v → m !! p = Some v)
      ∧ (∀ p v, m !! p = Some v →
           m0 !! p = Some v
           ∨ ∃ (j : nat) spec,
               specs !! j = Some spec ∧ path_index spec = p
               ∧ p ≠ UINT32_ALL_ONES ∧ v = to_uint32 (i0 + Z.of_nat j))
      ∧ (∀ (j : nat) spec,
           specs !! j = Some spec → path_index spec ≠ UINT32_ALL_ONES →
           m !! path_index spec = Some (to_uint32 (i0 + Z.of_nat j))).
Proof.
  induction specs as [|spec specs IH]; intros i0 m0 impl.
  - right. exists i0, m0. repeat split; [naive_solver..|done].
  - cbn [for_each]. unfold mbind, M_bind, bind.
    unfold path_index_to_spec_index_step at 1 3.
    destruct (Z.eqb_spec (path_index spec) UINT32_ALL_ONES) as [Hs|Hs].
    + cbn. destruct (IH (i0 + 1) m0 impl)
        as [->|(n & m & -> & Hmono & Hsound & Hcompl)]; [by left|].
      right. exists n, m. repeat split; [done| |].
      * intros p v Hp. destruct (Hsound p v Hp)
          as [?|(j & sp & ? & ? & ? & ->)]; [by left|].
        right. exists (S j), sp. repeat split; [done..|]. f_equal. lia.
      * intros [|j] sp Hj Hne; cbn in Hj; [congruence|].
        rewrite (Hcompl j sp Hj Hne). f_equal. f_equal. lia.
    + destruct (m0 !! path_index spec) eqn:Hm; [by left|]. cbn.
      destruct (IH (i0 + 1) (<[path_index spec:=to_uint32 i0]> m0) impl)
        as [->|(n & m & -> & Hmono & Hsound & Hcompl)]; [by left|].
      right. exists n, m. repeat split.
      * intros p v Hp. apply Hmono.
        rewrite lookup_insert_ne; [done|]. congruence.
      * intros p v Hp. destruct (Hsound p v Hp)
          as [Hins|(j & sp & ? & ? & ? & ->)].
        -- destruct (decide (path_index spec = p)) as [<-|Hp'].
           ++ rewrite lookup_insert_eq in Hins. injection Hins as <-.
              right. exists 0%nat, spec. repeat split; [done..|].
              f_equal. lia.
           ++ rewrite lookup_insert_ne in Hins by done. by left.
        -- right. exists (S j), sp. repeat split; [done..|]. f_equal. lia.
      * intros [|j] sp Hj Hne; cbn in Hj.
        -- injection Hj as <-. rewrite (Hmono (path_index spec) (to_uint32 i0)).
           ++ f_equal. f_equal. lia.
           ++ by rewrite lookup_insert_eq.
        -- rewrite (Hcompl j sp Hj Hne). f_equal. f_equal. lia.
Qed.

(** C4, as amended: when the crate has at least one node,
    [ReconstructStage] builds the path-index-to-spec-index map from the
    spec table, one entry per spec whose path index is not the sentinel
    [~0u], and fails with the duplicate-path-index error whenever two
    non-sentinel specs claim one path index. (With no node it returns
    with the empty-scene warning before it looks at the specs.) *)
Theorem ReconstructStage_duplicate_path_index (s : RS) :
  NumNodes (crate_reader s.1) ≠ 0 →
  (∀ (j k : nat) (sj sk : Spec),
     j ≠ k →
     cr_specs (crate_reader s.1) !! j = Some sj →
     cr_specs (crate_reader s.1) !! k = Some sk →
     path_index sj = path_index sk →
     path_index sj ≠ UINT32_ALL_ONES →
     ReconstructStage s
     = (Fail, update_impl (PushError duplicate_path_index_error)
                          (update_impl load_tables s)))
  ∧ (∀ impl : Impl,
       build_path_index_to_spec_index_map (cr_specs (crate_reader s.1)) impl
       = (Fail, PushError duplicate_path_index_error impl)
       ∨ ∃ m,
           build_path_index_to_spec_index_map (cr_specs (crate_reader s.1))
                                              impl
           = (Ret m, impl)
           ∧ ∀ p v,
               m !! p = Some v ↔
               ∃ (j : nat) spec,
                 cr_specs (crate_reader s.1) !! j = Some spec
                 ∧ path_index spec = p ∧ p ≠ UINT32_ALL_ONES
                 ∧ v = to_uint32 (Z.of_nat j)).
Proof.
  intros Hnodes. split.
  - intros j k sj sk Hjk Hj Hk Heq Hne.
    assert (∀ impl, for_each path_index_to_spec_index_step
                      (cr_specs (crate_reader s.1)) (0, ∅) impl
                    = (Fail, PushError duplicate_path_index_error impl))
      as Hfail.
    { intros impl. destruct (decide (j < k)%nat).
      - by eapply (path_index_loop_duplicate _ _ _ _ j k).
      - eapply (path_index_loop_duplicate _ _ _ _ k j); [lia|done..|congruence]. }
    unfold ReconstructStage, mbind, M_bind, bind, gets, modify. cbn.
    apply Z.eqb_neq in Hnodes. rewrite Hnodes.
    unfold liftI, build_path_index_to_spec_index_map, mbind, M_bind, bind.
    cbn. by rewrite Hfail.
  - intros impl. unfold build_path_index_to_spec_index_map, mbind, M_bind, bind.
    destruct (path_index_loop_result (cr_specs (crate_reader s.1)) 0 ∅ impl)
      as [->|(n & m & -> & _ & Hsound & Hcompl)]; [by left|].
    right. exists m. split; [done|]. intros p v. split.
    + intros Hp. destruct (Hsound p v Hp) as [?|(j & sp & ? & ? & ? & ->)];
        [done|]. exists j, sp. by rewrite Z.add_0_l.
    + intros (j & sp & Hj & <- & Hne & ->).
      by rewrite (Hcompl j sp Hj Hne), Z.add_0_l.
Qed.

End PathIndexMap.

Lemma ReconstructStage_duplicate_path_index_witness :
  ReconstructStage (ext := demo_ext)
    (Impl_init two_specs_one_path_index_rooted, mkStage StageMetas_default [])
  = (Fail,
     update_impl (PushError duplicate_path_index_error)
       (update_impl load_tables
          (Impl_init two_specs_one_path_index_rooted,
           mkStage StageMetas_default []))).
Proof.
  apply (proj1 (ReconstructStage_duplicate_path_index (ext := demo_ext)
                  (Impl_init two_specs_one_path_index_rooted,
                   mkStage StageMetas_default [])
                  ltac:(discriminate)) 0%nat 1%nat
               (mkSpec 5 0 SpecType.Prim) (mkSpec 5 1 SpecType.Prim));
    [lia | reflexivity | reflexivity | reflexivity | discriminate].
Defined.

(** C4 as stated fails: two specs claim path index 5, but the crate has
    no node, and [ReconstructStage] returns success with a warning. *)
Lemma ReconstructStage_duplicate_path_index_counterexample :
  let s := (Impl_init two_specs_one_path_index,
            mkStage (ext := demo_ext) StageMetas_default []) in
  cr_specs (crate_reader s.1) !! 0%nat = Some (mkSpec 5 0 SpecType.Prim)
  ∧ cr_specs (crate_reader s.1) !! 1%nat = Some (mkSpec 5 1 SpecType.Prim)
  ∧ ReconstructStage (ext := demo_ext) s
    = (Ret tt, update_impl (PushWarn "Empty scene.") s).
Proof. repeat split. Qed.

(** ** BuildPropertyMap *)

Section BuildPropertyMapProps.
Context `{ext : Externals}.

Lemma emplace_keeps (k name : string) (v earlier : Property)
  (props : gmap string Property) :
  props !! name = Some earlier → emplace k v props !! name = Some earlier.
Proof.
  intros H. unfold emplace. destruct (props !! k) eqn:Hk; [done|].
  rewrite lookup_insert_ne; [done|]. congruence.
Qed.

(** What one turn of the loop writes to the reader, and whether it goes
    on, does not depend on the map built so far. *)
Lemma BuildPropertyMap_step_same_effect (psmap : gmap Z Z) (pathIndex : Z)
  (props1 props2 : gmap string Property) (impl : Impl) :
  same_effect (BuildPropertyMap_step psmap pathIndex props1 impl)
              (BuildPropertyMap_step psmap pathIndex props2 impl).
Proof.
  unfold same_effect, BuildPropertyMap_step, or_error, GetPath.
  unfold mbind, M_bind, bind, gets, mret, M_ret, PUSH_ERROR_AND_RETURN,
    undefined.
  cbn. repeat (case_match; simplify_eq/=; try done).
Qed.

(** One turn of the loop never replaces an entry of the map. *)
Lemma BuildPropertyMap_step_keeps (psmap : gmap Z Z) (pathIndex : Z)
  (props props' : gmap string Property) (impl impl' : Impl) (name : string)
  (earlier : Property) :
  props !! name = Some earlier →
  BuildPropertyMap_step psmap pathIndex props impl = (Ret props', impl') →
  props' !! name = Some earlier.
Proof.
  intros Hin. unfold BuildPropertyMap_step, or_error, GetPath.
  unfold mbind, M_bind, bind, gets, mret, M_ret, PUSH_ERROR_AND_RETURN,
    undefined.
  cbn. repeat (case_match; simplify_eq/=; try done);
    intros; simplify_eq; by try apply emplace_keeps.
Qed.

Lemma emplace_fresh (k : string) (v : Property) (m : gmap string Property) :
  m !! k = None → emplace k v m !! k = Some v.
Proof. intros H. unfold emplace. rewrite H. apply lookup_insert_eq. Qed.

Lemma emplace_other (k name : string) (v : Property)
  (m : gmap string Property) :
  k ≠ name → emplace k v m !! name = m !! name.
Proof.
  intros H. unfold emplace. destruct (m !! k); [done|].
  by rewrite lookup_insert_ne.
Qed.

(** The loop never replaces an entry of the map. *)
Lemma BuildPropertyMap_keeps (pathIndices : list Z) (psmap : gmap Z Z) :
  ∀ (props props' : gmap string Property) (impl impl' : Impl)
    (name : string) (earlier : Property),
  props !! name = Some earlier →
  BuildPropertyMap pathIndices psmap props impl = (Ret props', impl') →
  props' !! name = Some earlier.
Proof.
  unfold BuildPropertyMap.
  induction pathIndices as [|c cs IH];
    intros props props' impl impl' name earlier Hin Hrun.
  - cbn in Hrun. unfold mret, M_ret in Hrun. by simplify_eq.
  - cbn [for_each] in Hrun.
    apply bind_ret_inv in Hrun as (props1 & impl1 & Hstep & Hrest).
    eapply IH; [|done]. by eapply BuildPropertyMap_step_keeps.
Qed.

End BuildPropertyMapProps.

(** C5 as stated fails: the children 2 and 3 of the Prim node both have
    the property name [x]; no warning is pushed and the map holds the
    Property parsed first (the [float] one), not the later [int] one. *)
Lemma BuildPropertyMap_duplicate_counterexample :
  ∃ props' impl' first second,
    BuildPropertyMap (ext := demo_ext) [2; 3] (identity_psmap 4) ∅
                     duplicate_property_reader
    = (Ret props', impl')
    ∧ ParseProperty (ext := demo_ext) SpecType.Attribute
        [("typeName", VToken "float"); ("default", VFloat 1065353216)]
        duplicate_property_reader = (Ret first, duplicate_property_reader)
    ∧ ParseProperty (ext := demo_ext) SpecType.Attribute
        [("typeName", VToken "int"); ("default", VInt 7)]
        duplicate_property_reader = (Ret second, duplicate_property_reader)
    ∧ props' !! "x" = Some first
    ∧ first ≠ second
    ∧ _warn impl' = [].
Proof.
  eexists _, _, _, _.
  split; [vm_compute; reflexivity|].
  split; [vm_compute; reflexivity|].
  split; [vm_compute; reflexivity|].
  split; [vm_compute; reflexivity|].
  split; [discriminate|reflexivity].
Qed.

(** ** What the parsers leave alone *)

#[global] Instance diag_only_refl : Reflexive diag_only.
Proof. intros i. by repeat split. Qed.

#[global] Instance diag_only_trans : Transitive diag_only.
Proof.
  intros i1 i2 i3 (?&?&?&?&?&?&?) (?&?&?&?&?&?&?).
  repeat split; congruence.
Qed.

#[global] Instance diag_only_fst_refl {X} : Reflexive (@diag_only_fst X).
Proof. intros s. apply diag_only_refl. Qed.

#[global] Instance diag_only_fst_trans {X} : Transitive (@diag_only_fst X).
Proof. intros s1 s2 s3. apply diag_only_trans. Qed.

#[global] Instance DiagFrame_impl : DiagFrame Impl diag_only.
Proof. intros f s Hf. apply Hf. Qed.

#[global] Instance DiagFrame_pair {X} : DiagFrame (Impl * X) diag_only_fst.
Proof. intros f s Hf. apply Hf. Qed.

Lemma diag_only_PushError (msg : string) (i : Impl) :
  diag_only i (PushError msg i).
Proof. by repeat split. Qed.

Lemma diag_only_PushWarn (msg : string) (i : Impl) :
  diag_only i (PushWarn msg i).
Proof. by repeat split. Qed.

Section Preserves.
Context {St : Type} (R : St → St → Prop) `{!Reflexive R} `{!Transitive R}.

Lemma preserves_mret {A} (a : A) : preserves R (mret a).
Proof. intros s. reflexivity. Qed.

Lemma preserves_gets {A} (f : St → A) : preserves R (gets f).
Proof. intros s. reflexivity. Qed.

Lemma preserves_undefined {A} : preserves R (@undefined St A).
Proof. intros s. reflexivity. Qed.

Lemma preserves_bind {A B} (m : M St A) (k : A → M St B) :
  preserves R m → (∀ a, preserves R (k a)) → preserves R (m ≫= k).
Proof.
  intros Hm Hk s. unfold mbind, M_bind, bind.
  specialize (Hm s). destruct (m s) as [[a| |] s1]; [|done..].
  etrans; [done | apply Hk].
Qed.

Lemma preserves_for_each {A B} (body : A → B → M St B) (l : list A) (acc : B) :
  (∀ x b, preserves R (body x b)) → preserves R (for_each body l acc).
Proof.
  intros Hbody. revert acc. induction l as [|x l IH]; intros acc.
  - apply preserves_mret.
  - cbn [for_each]. apply preserves_bind; [apply Hbody | apply IH].
Qed.

Context `{!ReaderState St} `{!DiagFrame St R}.

Lemma preserves_PUSH_ERROR_AND_RETURN {A} (msg : string) :
  preserves R (PUSH_ERROR_AND_RETURN (A := A) msg).
Proof. intros s. apply diag_frame, diag_only_PushError. Qed.

Lemma preserves_PUSH_WARN (msg : string) : preserves R (PUSH_WARN msg).
Proof. intros s. apply diag_frame, diag_only_PushWarn. Qed.

Lemma preserves_or_error {A} (m : M St A) (msg : string) :
  preserves R m → preserves R (or_error m msg).
Proof.
  intros Hm s. unfold or_error. specialize (Hm s).
  destruct (m s) as [[a| |] s1]; [done| |done].
  etrans; [done | apply diag_frame, diag_only_PushError].
Qed.

End Preserves.

Lemma preserves_liftI {X A} (m : M Impl A) :
  preserves diag_only m → preserves (@diag_only_fst X) (liftI m).
Proof.
  intros Hm [i x]. unfold liftI. cbn. specialize (Hm i).
  by destruct (m i) as [o i1].
Qed.

Lemma preserves_GetPath (index : Z) : preserves diag_only (GetPath index).
Proof. intros s. unfold GetPath. by repeat case_match. Qed.

Lemma preserves_GetElemPath (index : Z) :
  preserves diag_only (GetElemPath index).
Proof. intros s. unfold GetElemPath. by repeat case_match. Qed.

(** Walks through a computation built from the combinators above. *)
Ltac preserves_step :=
  match goal with
  | |- preserves _ (mret _) => refine (preserves_mret _ _)
  | |- preserves _ (_ ≫= _) =>
    refine (preserves_bind _ _ _ _ _); [|intros ?]
  | |- preserves _ (for_each _ _ _) =>
    refine (preserves_for_each _ _ _ _ _); intros ? ?
  | |- preserves _ (gets _) => refine (preserves_gets _ _)
  | |- preserves _ undefined => refine (preserves_undefined _)
  | |- preserves _ (PUSH_ERROR_AND_RETURN _) =>
    refine (preserves_PUSH_ERROR_AND_RETURN _ _)
  | |- preserves _ (PUSH_WARN _) => refine (preserves_PUSH_WARN _ _)
  | |- preserves _ (or_error _ _) => refine (preserves_or_error _ _ _ _)
  | |- preserves _ (liftI _) => apply preserves_liftI
  | |- preserves _ (GetPath _) => apply preserves_GetPath
  | |- preserves _ (GetElemPath _) => apply preserves_GetElemPath
  | |- preserves _ (match ?x with _ => _ end) => destruct x
  end.

Section ParsersPreserve.
Context `{ext : Externals}.

Lemma preserves_ParseProperty_field (fv : FieldValuePair) (l : PropLocals) :
  preserves diag_only (ParseProperty_field fv l).
Proof.
  unfold ParseProperty_field, ParseProperty_targetPaths.
  repeat preserves_step.
Qed.

Lemma preserves_ParseProperty (spec_type : SpecType.t)
  (fvs : FieldValuePairVector) :
  preserves diag_only (ParseProperty spec_type fvs).
Proof.
  unfold ParseProperty, make_property.
  repeat first [apply preserves_ParseProperty_field | preserves_step].
Qed.

Lemma preserves_BuildPropertyMap (pathIndices : list Z) (psmap : gmap Z Z)
  (props : gmap string Property) :
  preserves diag_only (BuildPropertyMap pathIndices psmap props).
Proof.
  unfold BuildPropertyMap, BuildPropertyMap_step.
  repeat first [apply preserves_ParseProperty | preserves_step].
Qed.

Lemma preserves_ReconstructPrim (T : PrimSchema.t) (node : Node)
  (psmap : gmap Z Z) :
  preserves diag_only (ReconstructPrim T node psmap).
Proof.
  unfold ReconstructPrim.
  repeat first [apply preserves_BuildPropertyMap | preserves_step].
Qed.

Lemma preserves_ReconstructPrimFromTypeName (typeName prim_name : string)
  (node : Node) (psmap : gmap Z Z) (meta : PrimMeta) :
  preserves diag_only
    (ReconstructPrimFromTypeName typeName prim_name node psmap meta).
Proof.
  unfold ReconstructPrimFromTypeName.
  destruct (find_schema typeName) as [T|]; [|repeat preserves_step].
  intros s. pose proof (preserves_ReconstructPrim T node psmap s) as H.
  destruct (ReconstructPrim T node psmap s) as [[d| |] s1]; [done| |done].
  etrans; [done | apply diag_only_PushError].
Qed.

Lemma preserves_ParsePrimFields (fvs : FieldValuePairVector) :
  preserves diag_only (ParsePrimFields fvs).
Proof.
  unfold ParsePrimFields, ParsePrimFields_field. repeat preserves_step.
Qed.

Lemma preserves_set_meta (f : StageMetas → StageMetas) :
  preserves diag_only_fst (set_meta f).
Proof. intros s. apply diag_only_refl. Qed.

Lemma preserves_ReconstrcutStageMeta (fvs : FieldValuePairVector) :
  preserves diag_only_fst (ReconstrcutStageMeta fvs).
Proof.
  unfold ReconstrcutStageMeta, ReconstrcutStageMeta_field. cbv zeta.
  repeat first [apply preserves_set_meta | preserves_step].
Qed.

Lemma preserves_on_stage_metas {A} (m : M (Impl * StageMetas) A) :
  preserves diag_only_fst m → preserves diag_only_fst (on_stage_metas m).
Proof.
  intros Hm [i st]. unfold on_stage_metas. cbn.
  specialize (Hm (i, GetMetas st)).
  by destruct (m (i, GetMetas st)) as [o [i1 ms]].
Qed.

End ParsersPreserve.

(** ** ReconstructPrimNode *)

Lemma diag_only_node_effect (psmap : gmap Z Z) (current : Z) (i i' : Impl) :
  diag_only i i' → node_effect psmap current i i'.
Proof. intros (?&?&?&?&?&?&?). repeat split; auto. Qed.

Lemma diag_only_insert_node_effect (psmap : gmap Z Z) (current : Z)
  (i i' : Impl) :
  diag_only i i' → marks_prim psmap (_specs i) current →
  node_effect psmap current i (prim_table_insert current i').
Proof.
  intros (?&?&?&?&?&?&Ht) Hm. repeat split; cbn; auto.
  right. by rewrite Ht.
Qed.

Section ReconstructPrimNodeProps.
Context `{ext : Externals}.

Ltac solve_preserves :=
  repeat first
    [ apply preserves_ParsePrimFields
    | apply preserves_ReconstructPrimFromTypeName
    | apply preserves_ReconstrcutStageMeta
    | refine (preserves_on_stage_metas _ _)
    | preserves_step ].

(** Runs the next call of the goal, keeping in [Hacc] that only the
    diagnostics changed since the state [s0]. *)
Ltac run_call s0 Hacc :=
  match goal with
  | |- context [match ?m ?st with _ => _ end] =>
    lazymatch type of (m st) with
    | (Outcome _ * _)%type =>
      let H := fresh "Hfr" in
      assert (preserves diag_only_fst m) as H by solve_preserves;
      specialize (H st);
      let o := fresh "o" in
      let s1 := fresh "s" in
      destruct (m st) as [o s1];
      assert (diag_only s0.1 s1.1) as Hacc' by (etrans; [exact Hacc | exact H]);
      clear H Hacc; rename Hacc' into Hacc;
      destruct o as [?| |]
    end
  end.

Ltac finish_node :=
  cbn [fst snd update_impl ReaderState_pair];
  first
    [ apply diag_only_node_effect; first
        [ assumption
        | etrans; [eassumption | first [ apply diag_only_PushError
                                       | apply diag_only_PushWarn ]] ]
    | apply diag_only_insert_node_effect; [assumption|] ].

(** What [ReconstructPrimNode] does to the reader, however it ends. *)
Lemma ReconstructPrimNode_effect (parent current level : Z)
  (psmap : gmap Z Z) (s : RS) :
  node_effect psmap current s.1
    (ReconstructPrimNode parent current level psmap s).2.1.
Proof.
  assert (diag_only s.1 s.1) as Hacc by reflexivity.
  unfold ReconstructPrimNode.
  unfold mbind, M_bind, bind, gets, mret, M_ret, undefined. cbn [fst snd].
  destruct (vector_at (_nodes s.1) current) as [node|] eqn:Hnode;
    [|by finish_node].
  destruct (psmap !! to_uint32 current) as [spec_index|] eqn:Hps;
    [|by finish_node].
  destruct (spec_index >=? _); [by finish_node|].
  destruct (vector_at (_specs s.1) spec_index) as [spec|] eqn:Hspec;
    [|by finish_node].
  destruct (_ && _); [by finish_node|].
  destruct (_live_fieldsets s.1 !! fieldset_index spec) as [fvs|];
    [|by finish_node].
  destruct (_ >? _); [by finish_node|].
  destruct (Z.eqb_spec current 0) as [Hc|Hc].
  - unfold ReconstructPrimNode_root.
    unfold mbind, M_bind, bind, gets, mret, M_ret, undefined, modify.
    run_call s Hacc; try by finish_node.
    destruct a; [|by finish_node].
    destruct (bool_decide_reflect (spec_type spec = SpecType.PseudoRoot))
      as [Hty|Hty]; cbn [negb]; [|by finish_node].
    run_call s Hacc; try by finish_node.
    finish_node. exists spec_index, spec. auto.
  - run_call s Hacc; try by finish_node.
    destruct (spec_type spec) eqn:Hty;
      unfold PUSH_WARN, PUSH_ERROR_AND_RETURN, modify; try by finish_node.
    unfold ReconstructPrimNode_Prim.
    unfold mbind, M_bind, bind, gets, mret, M_ret, undefined.
    run_call s Hacc; try by finish_node.
    destruct a0 as [elemPath|]; [|by finish_node].
    destruct (pf_specifier a) as [[| | |]|];
      unfold PUSH_WARN, PUSH_ERROR_AND_RETURN, modify; try by finish_node.
    destruct (pf_typeName a) as [tn|]; cbn [fst snd].
    + destruct (negb _); [by finish_node|].
      run_call s Hacc; try by finish_node.
      cbn [fst snd]. destruct (bool_decide _); [by finish_node|].
      finish_node. exists spec_index, spec. auto.
    + destruct (negb _); [by finish_node|].
      remember (update_impl (PushWarn _) s1) as s1' eqn:Es1.
      assert (diag_only s.1 s1'.1) as Hacc2.
      { subst s1'. etrans; [exact Hacc | apply diag_only_PushWarn]. }
      clear Hacc Es1.
      run_call s Hacc2; try by finish_node.
      cbn [fst snd]. destruct (bool_decide _); [by finish_node|].
      finish_node. exists spec_index, spec. auto.
Qed.

End ReconstructPrimNodeProps.

(** ** ReconstructPrimRecursively *)

Lemma to_int32_le (k : Z) : 0 ≤ k → to_int32 k ≤ k.
Proof.
  intros H. unfold to_int32. cbv zeta.
  pose proof (Z.mod_le k (2 ^ 32) H ltac:(lia)).
  destruct (_ <? _); lia.
Qed.

#[global] Instance rec_effect_refl psmap : Reflexive (rec_effect psmap).
Proof. intros i. by repeat split. Qed.

#[global] Instance rec_effect_trans psmap : Transitive (rec_effect psmap).
Proof.
  intros i1 i2 i3 (?&?&?&?&?&?&H12) (?&?&?&?&?&?&H23).
  repeat split; try congruence. auto.
Qed.

#[global] Instance rec_effect_fst_refl {X} psmap :
  Reflexive (@rec_effect_fst X psmap).
Proof. intros s. apply rec_effect_refl. Qed.

#[global] Instance rec_effect_fst_trans {X} psmap :
  Transitive (@rec_effect_fst X psmap).
Proof. intros s1 s2 s3. apply rec_effect_trans. Qed.

Lemma node_effect_rec_effect (psmap : gmap Z Z) (current : Z) (i i' : Impl) :
  node_effect psmap current i i' → rec_effect psmap i i'.
Proof.
  intros (?&?&Hs&?&?&?&Ht). repeat split; try done.
  intros Hinv n Hn. rewrite Hs.
  destruct Ht as [Ht|[Ht Hm]]; rewrite Ht in Hn; [by apply Hinv|].
  apply elem_of_union in Hn as [->%elem_of_singleton|Hn]; [done|].
  by apply Hinv.
Qed.

Lemma diag_only_rec_effect (psmap : gmap Z Z) (i i' : Impl) :
  diag_only i i' → rec_effect psmap i i'.
Proof.
  intros H. by eapply node_effect_rec_effect, (diag_only_node_effect _ 0).
Qed.

Section RecursionProps.
Context `{ext : Externals}.

Lemma attach_prim_reader (parent : Z) (prim rootPrim : option Prim) (s : RS) :
  (attach_prim parent prim rootPrim s).2.1 = s.1
  ∧ ∃ r, (attach_prim parent prim rootPrim s).1 = Ret r.
Proof.
  unfold attach_prim. destruct (parent =? 0), prim, rootPrim; cbn; eauto.
Qed.

(** The recursive function is the visit of the node followed by the
    hand-over of its Prim. *)
Lemma ReconstructPrimRecursively_fuel_visit (fuel : nat) (parent current : Z)
  (rootPrim : option Prim) (level : Z) (psmap : gmap Z Z) (s : RS) :
  ReconstructPrimRecursively_fuel fuel parent current rootPrim level psmap s
  = match visit_node_fuel fuel parent current level psmap s with
    | Some (Ret prim, s2) => Some (attach_prim parent prim rootPrim s2)
    | other => other
    end.
Proof.
  unfold visit_node_fuel. destruct fuel; cbn [ReconstructPrimRecursively_fuel];
    repeat (case_match; simplify_eq/=; try done).
Qed.

(** The loop over the children, given what each call guarantees. *)
Lemma for_children_effect (R : RS → RS → Prop) `{!Reflexive R}
  `{!Transitive R}
  (rec : Z → option Prim → RS → option (Outcome (option Prim) * RS))
  (cs : list Z) :
  (∀ c p s r, c ∈ cs → rec c p s = Some r → R s r.2) →
  ∀ p s r, for_children rec cs p s = Some r → R s r.2.
Proof.
  induction cs as [|c cs IH]; intros Hrec p s r H; cbn in H.
  - by simplify_eq.
  - destruct (rec c p s) as [[[p'| |] s1]|] eqn:E; simplify_eq.
    + etrans; [apply (Hrec c p s _ ltac:(left) E)|].
      eapply IH; [|done]. intros. eapply Hrec; [by right|done].
    + apply (Hrec c p s _ ltac:(left) E).
    + apply (Hrec c p s _ ltac:(left) E).
Qed.

(** However a call ends, the tables are those it started with and the
    Prim marker table stays within what may be marked. *)
Lemma ReconstructPrimRecursively_fuel_effect (psmap : gmap Z Z) (fuel : nat) :
  ∀ (parent current : Z) (rootPrim : option Prim) (level : Z) (s : RS)
    (r : Outcome (option Prim) * RS),
  ReconstructPrimRecursively_fuel fuel parent current rootPrim level psmap s
  = Some r →
  rec_effect psmap s.1 r.2.1.
Proof.
  induction fuel as [|fuel IH]; intros parent current rootPrim level s r H;
    cbn [ReconstructPrimRecursively_fuel] in H.
  all: destruct (level >? _);
    [simplify_eq; apply diag_only_rec_effect, diag_only_PushError|].
  all: destruct (_ || _);
    [simplify_eq; apply diag_only_rec_effect, diag_only_PushError|].
  all: pose proof (ReconstructPrimNode_effect parent current level psmap s)
    as Hnode%node_effect_rec_effect.
  all: destruct (ReconstructPrimNode parent current level psmap s)
    as [[prim| |] s1]; cbn [fst snd] in Hnode; simplify_eq; try done.
  all: destruct (vector_at (_nodes s1.1) current) as [node|];
    simplify_eq; try done.
  match type of H with
  | match ?fc with _ => _ end = _ => destruct fc as [[o s2]|] eqn:Hfc
  end; [|done].
  assert (rec_effect psmap s1.1 s2.1) as Hchildren.
  { eapply (for_children_effect (rec_effect_fst psmap)) in Hfc; [exact Hfc|].
    intros c p s' r' _ Hr. destruct (level =? INT_MAX).
    - simplify_eq. reflexivity.
    - by eapply IH. }
  assert (rec_effect psmap s.1 s2.1) as Hall by (by etrans).
  destruct o as [prim'| |]; simplify_eq; try done.
  by destruct (attach_prim_reader parent prim' rootPrim s2) as [-> _].
Qed.

Lemma for_children_ext
  (rec rec' : Z → option Prim → RS → option (Outcome (option Prim) * RS))
  (cs : list Z) :
  (∀ c p s, rec c p s = rec' c p s) →
  ∀ p s, for_children rec cs p s = for_children rec' cs p s.
Proof.
  intros Hext. induction cs as [|c cs IH]; intros p s; cbn; [done|].
  rewrite Hext. destruct (rec' c p s) as [[[p'| |] s1]|]; auto.
Qed.

Lemma for_children_total
  (rec : Z → option Prim → RS → option (Outcome (option Prim) * RS))
  (cs : list Z) :
  (∀ c p s, is_Some (rec c p s)) → ∀ p s, is_Some (for_children rec cs p s).
Proof.
  intros Hrec. induction cs as [|c cs IH]; intros p s; cbn; [done|].
  destruct (Hrec c p s) as [[[p'| |] s1] ->]; auto.
Qed.

Lemma depth_budget_step (level : Z) :
  level ≤ to_int32 kMaxPrimNestLevel →
  depth_budget level = S (depth_budget (level + 1)).
Proof. unfold depth_budget. lia. Qed.

(** Fuel above the depth budget changes nothing. *)
Lemma ReconstructPrimRecursively_fuel_enough (psmap : gmap Z Z) (fuel : nat) :
  ∀ (fuel' : nat) (parent current : Z) (rootPrim : option Prim) (level : Z)
    (s : RS),
  (depth_budget level ≤ fuel)%nat → (depth_budget level ≤ fuel')%nat →
  ReconstructPrimRecursively_fuel fuel parent current rootPrim level psmap s
  = ReconstructPrimRecursively_fuel fuel' parent current rootPrim level psmap s.
Proof.
  induction fuel as [|fuel IH];
    intros fuel' parent current rootPrim level s Hf Hf'.
  all: destruct fuel' as [|fuel']; cbn [ReconstructPrimRecursively_fuel].
  all: destruct (Z.gtb_spec level (to_int32 kMaxPrimNestLevel)) as [Hl|Hl];
    [done|].
  all: try (rewrite (depth_budget_step level Hl) in Hf, Hf'; lia).
  destruct (_ || _); [done|].
  destruct (ReconstructPrimNode parent current level psmap s)
    as [[prim| |] s1]; try done.
  destruct (vector_at (_nodes s1.1) current) as [node|]; [|done].
  rewrite (depth_budget_step level Hl) in Hf, Hf'.
  erewrite for_children_ext; [done|].
  intros c p s'. cbn beta. destruct (level =? INT_MAX); [done|].
  apply IH; lia.
Qed.

(** With the depth budget as fuel the function always returns. *)
Lemma ReconstructPrimRecursively_fuel_total (psmap : gmap Z Z) (fuel : nat) :
  ∀ (parent current : Z) (rootPrim : option Prim) (level : Z) (s : RS),
  (depth_budget level ≤ fuel)%nat →
  is_Some (ReconstructPrimRecursively_fuel fuel parent current rootPrim level
             psmap s).
Proof.
  induction fuel as [|fuel IH]; intros parent current rootPrim level s Hf;
    cbn [ReconstructPrimRecursively_fuel].
  all: destruct (Z.gtb_spec level (to_int32 kMaxPrimNestLevel)) as [Hl|Hl];
    [done|].
  all: rewrite (depth_budget_step level Hl) in Hf.
  1: lia.
  destruct (_ || _); [done|].
  destruct (ReconstructPrimNode parent current level psmap s)
    as [[prim| |] s1]; try done.
  destruct (vector_at (_nodes s1.1) current) as [node|]; [|done].
  match goal with
  | |- is_Some (match ?fc with _ => _ end) =>
    assert (is_Some fc) as [[[p'| |] s2] ->]; [|done..]
  end.
  apply for_children_total. intros c p s'.
  destruct (level =? INT_MAX); [done|]. apply IH. lia.
Qed.

(** The loop over the children does not return normally when the call on
    one child never does; [P] is what the calls before it keep. *)
Lemma for_children_hits (P : RS → Prop)
  (rec : Z → option Prim → RS → option (Outcome (option Prim) * RS))
  (cs : list Z) (c0 : Z) :
  c0 ∈ cs →
  (∀ c p s r x, P s → rec c p s = Some r → r.1 = Ret x → P r.2) →
  (∀ p s r x, P s → rec c0 p s = Some r → r.1 ≠ Ret x) →
  ∀ p s r x, P s → for_children rec cs p s = Some r → r.1 ≠ Ret x.
Proof.
  intros Hin Hkeep Hhit. induction cs as [|c cs IH]; intros p s r x HP H.
  - by apply elem_of_nil in Hin.
  - cbn in H. destruct (rec c p s) as [[[p'| |] s1]|] eqn:E; simplify_eq;
      try done.
    apply elem_of_cons in Hin as [->|Hin].
    + by apply (Hhit p s (Ret p', s1) p' HP) in E.
    + eapply IH; [done| |done]. apply (Hkeep c p s (Ret p', s1) p' HP E eq_refl).
Qed.

(** A call on a node with a chain of [d] nested children below it, at a
    level from which the chain passes the limit, does not return
    normally. *)
Lemma ReconstructPrimRecursively_fuel_too_deep (psmap : gmap Z Z)
  (nodes : list Node) (d : nat) :
  ∀ (fuel : nat) (parent current : Z) (rootPrim : option Prim) (level : Z)
    (s : RS) (r : Outcome (option Prim) * RS) (x : option Prim),
  _nodes s.1 = nodes →
  has_depth nodes d current = true →
  level + Z.of_nat d > to_int32 kMaxPrimNestLevel →
  ReconstructPrimRecursively_fuel fuel parent current rootPrim level psmap s
  = Some r →
  r.1 ≠ Ret x.
Proof.
  induction d as [|d IH];
    intros fuel parent current rootPrim level s r x Hnodes Hd Hlevel H.
  - destruct fuel; cbn [ReconstructPrimRecursively_fuel] in H.
    all: destruct (Z.gtb_spec level (to_int32 kMaxPrimNestLevel)); [|lia].
    all: by simplify_eq.
  - cbn [has_depth] in Hd.
    destruct (vector_at nodes current) as [node|] eqn:Hnode; [|done].
    apply existsb_exists in Hd as (c0 & Hc0%list_elem_of_In & Hd).
    pose proof (ReconstructPrimNode_effect parent current level psmap s)
      as (_ & Hn & _).
    destruct fuel; cbn [ReconstructPrimRecursively_fuel] in H.
    all: destruct (level >? _); [by simplify_eq|].
    all: destruct (_ || _); [by simplify_eq|].
    all: destruct (ReconstructPrimNode parent current level psmap s)
      as [[prim| |] s1]; cbn [fst snd] in Hn; simplify_eq; try done.
    all: rewrite Hn, Hnode in H.
    1: done.
    match type of H with
    | match ?fc with _ => _ end = _ => destruct fc as [[o s2]|] eqn:Hfc
    end; [|done].
    destruct o as [prim'| |]; simplify_eq; try done. exfalso.
    eapply (for_children_hits (λ s', _nodes s'.1 = _nodes s.1))
      with (x := prim') in Hfc; [by apply Hfc | done | | | done].
    + intros c p s' r' x' HP Hr _. destruct (level =? INT_MAX).
      * by simplify_eq.
      * apply ReconstructPrimRecursively_fuel_effect in Hr as (_ & Hr & _).
        congruence.
    + intros p s' r' x' HP Hr. destruct (level =? INT_MAX).
      * by simplify_eq.
      * eapply IH in Hr; [exact Hr | exact HP | exact Hd | lia].
Qed.

(** C8: a call at a level above [kMaxPrimNestLevel] fails with the depth
    error; the recursion is bounded by the depth limit, so that with the
    depth budget as fuel the function always returns; and a scene whose
    node 0 has a chain of [kMaxPrimNestLevel + 1] nested nodes below it is
    not reconstructed. *)
Theorem ReconstructPrimRecursively_depth_limit :
  (∀ (parent current : Z) (rootPrim : option Prim) (level : Z)
     (psmap : gmap Z Z) (s : RS),
     (level > to_int32 kMaxPrimNestLevel
      ∨ (0 ≤ kMaxPrimNestLevel ∧ level > kMaxPrimNestLevel)) →
     ReconstructPrimRecursively parent current rootPrim level psmap s
     = (Fail, update_impl (PushError depth_error) s))
  ∧ (∀ (fuel : nat) (parent current : Z) (rootPrim : option Prim) (level : Z)
       (psmap : gmap Z Z) (s : RS),
       (depth_budget level ≤ fuel)%nat →
       ReconstructPrimRecursively_fuel fuel parent current rootPrim level
         psmap s
       = Some (ReconstructPrimRecursively parent current rootPrim level
                 psmap s))
  ∧ (∀ s : RS,
       0 ≤ to_int32 kMaxPrimNestLevel →
       has_depth (cr_nodes (crate_reader s.1))
                 (Z.to_nat (to_int32 kMaxPrimNestLevel + 1)) 0 = true →
       (ReconstructStage s).1 = Fail ∨ (ReconstructStage s).1 = Undefined).
Proof.
  split; [|split].
  - intros parent current rootPrim level psmap s Hl.
    assert (level > to_int32 kMaxPrimNestLevel) as Hl'.
    { destruct Hl as [?|[H0 Hl]]; [done|].
      pose proof (to_int32_le kMaxPrimNestLevel H0). lia. }
    clear Hl. rename Hl' into Hl.
    unfold ReconstructPrimRecursively.
    destruct (depth_budget level); cbn [ReconstructPrimRecursively_fuel].
    all: by destruct (Z.gtb_spec level (to_int32 kMaxPrimNestLevel)); [|lia].
  - intros fuel parent current rootPrim level psmap s Hf.
    unfold ReconstructPrimRecursively.
    rewrite (ReconstructPrimRecursively_fuel_enough psmap fuel
               (depth_budget level)) by done.
    by destruct (ReconstructPrimRecursively_fuel_total psmap
                   (depth_budget level) parent current rootPrim level s)
      as [r ->].
  - intros s HK Hd.
    assert (NumNodes (crate_reader s.1) ≠ 0) as Hnum.
    { unfold NumNodes. destruct (cr_nodes (crate_reader s.1)); [|done].
      replace (Z.to_nat (to_int32 kMaxPrimNestLevel + 1))
        with (S (Z.to_nat (to_int32 kMaxPrimNestLevel))) in Hd by lia.
      done. }
    unfold ReconstructStage, mbind, M_bind, bind, gets, modify. cbn [fst snd].
    apply Z.eqb_neq in Hnum. rewrite Hnum.
    unfold liftI. cbn [fst snd update_impl ReaderState_pair].
    unfold build_path_index_to_spec_index_map, mbind, M_bind, bind, mret, M_ret.
    change (_specs (load_tables s.1)) with (cr_specs (crate_reader s.1)).
    destruct (path_index_loop_result (cr_specs (crate_reader s.1)) 0 ∅
                (load_tables s.1)) as [->|(n & m & -> & _)]; [by left|].
    cbn [fst snd]. unfold or_error, ReconstructPrimRecursively.
    match goal with
    | |- context [ReconstructPrimRecursively_fuel ?f ?pa ?cu ?rp ?lv ?ps ?st] =>
      destruct (ReconstructPrimRecursively_fuel_total ps f pa cu rp lv st
                  ltac:(done)) as [[o s2] Hr];
      rewrite Hr;
      pose proof (ReconstructPrimRecursively_fuel_too_deep ps
                    (cr_nodes (crate_reader s.1))
                    (Z.to_nat (to_int32 kMaxPrimNestLevel + 1))
                    f pa cu rp lv st (o, s2))
        as Hdeep
    end.
    destruct o as [x| |]; [|by left|by right].
    exfalso. eapply (Hdeep x); [done | exact Hd | lia | done | done].
Qed.

(** C9: after [ReconstructStage] on a reader whose marker table was
    empty, however it ends, every node index in [_prim_table] is node 0
    with the pseudo-root spec or a node whose spec has the type Prim, the
    spec of a node being the one the path-index-to-spec-index map gives
    it. *)
Theorem prim_table_marks_only_prims (s s' : RS) (o : Outcome unit) :
  _prim_table s.1 = ∅ →
  ReconstructStage s = (o, s') →
  ∀ n, n ∈ _prim_table s'.1 →
  ∃ psmap,
    build_path_index_to_spec_index_map (cr_specs (crate_reader s.1))
                                       (load_tables s.1)
    = (Ret psmap, load_tables s.1)
    ∧ marks_prim psmap (cr_specs (crate_reader s.1)) n.
Proof.
  intros Hempty Hrun n Hn. revert Hrun.
  unfold ReconstructStage, mbind, M_bind, bind, gets, modify. cbn [fst snd].
  destruct (NumNodes (crate_reader s.1) =? 0).
  { unfold PUSH_WARN, modify, mret, M_ret. intros ?; simplify_eq.
    cbn in Hn. rewrite Hempty in Hn. set_solver. }
  unfold liftI. cbn [fst snd update_impl ReaderState_pair].
  unfold build_path_index_to_spec_index_map, mbind, M_bind, bind, mret, M_ret.
  change (_specs (load_tables s.1)) with (cr_specs (crate_reader s.1)).
  destruct (path_index_loop_result (cr_specs (crate_reader s.1)) 0 ∅
              (load_tables s.1)) as [->|(k & m & -> & _)].
  { intros ?; simplify_eq. cbn in Hn. rewrite Hempty in Hn. set_solver. }
  cbn [fst snd]. intros Hrun. exists m. split; [done|].
  assert (rec_effect m (load_tables s.1) s'.1) as (_ & _ & Hspecs & _ & _ & _ & Hinv).
  { revert Hrun. unfold or_error, ReconstructPrimRecursively.
    match goal with
    | |- context [ReconstructPrimRecursively_fuel ?f ?pa ?cu ?rp ?lv ?ps ?st] =>
      destruct (ReconstructPrimRecursively_fuel_total ps f pa cu rp lv st
                  ltac:(done)) as [[o' s2] Hr];
      rewrite Hr;
      apply ReconstructPrimRecursively_fuel_effect in Hr
    end.
    cbn [fst snd] in Hr.
    destruct o' as [x| |]; intros ?; simplify_eq; cbn [fst snd]; [done| |done].
    etrans; [exact Hr | apply diag_only_rec_effect, diag_only_PushError]. }
  rewrite Hspecs in Hinv. cbn [_specs load_tables] in Hinv.
  apply Hinv; [|done]. cbn. rewrite Hempty. set_solver.
Qed.

(** A call for a node whose parent is not node 0 and has no Prim ends in
    the state its visit of the node and of the children left, whatever
    Prim that visit reconstructed. *)
Lemma ReconstructPrimRecursively_fuel_orphan (fuel : nat)
  (parent current level : Z) (psmap : gmap Z Z) (s : RS) :
  parent ≠ 0 →
  ReconstructPrimRecursively_fuel fuel parent current None level psmap s
  = drop_prim (visit_node_fuel fuel parent current level psmap s).
Proof.
  intros Hp%Z.eqb_neq. rewrite ReconstructPrimRecursively_fuel_visit.
  destruct (visit_node_fuel fuel parent current level psmap s)
    as [[[prim| |] s2]|]; try done.
  unfold attach_prim. rewrite Hp. by destruct prim.
Qed.

(** The loop over the children of a node that is not node 0 and has no
    Prim: every child is handed a null parent Prim, and so is dropped. *)
Lemma for_children_orphans (fuel : nat) (current level : Z)
  (psmap : gmap Z Z) (cs : list Z) :
  current ≠ 0 →
  ∀ s : RS,
  for_children
    (λ c currPrim s',
       if level =? INT_MAX then Some (Undefined, s')
       else ReconstructPrimRecursively_fuel fuel current (to_int32 c)
              currPrim (level + 1) psmap s')
    cs None s
  = for_children
      (λ c _ s',
         if level =? INT_MAX then Some (Undefined, s')
         else drop_prim (visit_node_fuel fuel current (to_int32 c)
                           (level + 1) psmap s'))
      cs None s
  ∧ ∀ p s2,
      for_children
        (λ c _ s',
           if level =? INT_MAX then Some (Undefined, s')
           else drop_prim (visit_node_fuel fuel current (to_int32 c)
                             (level + 1) psmap s'))
        cs None s = Some (Ret p, s2) →
      p = None.
Proof.
  intros Hc. induction cs as [|c cs IH]; intros s; cbn [for_children].
  - split; [done|]. by intros p s2 [= <- _].
  - destruct (level =? INT_MAX); [by split|].
    rewrite (ReconstructPrimRecursively_fuel_orphan _ _ _ _ _ _ Hc).
    destruct (visit_node_fuel fuel current (to_int32 c) (level + 1) psmap s)
      as [[[prim| |] s1]|]; cbn [drop_prim]; try by split.
    apply IH.
Qed.

(** C10: a node other than node 0 that produced no Prim (its specifier is
    [class] or [over], its type name is not known, or its spec is no Prim
    spec) hands a null parent Prim to each of its children. So every
    child is visited, with its own subtree, and the Prim that visit
    reconstructed is dropped in the state the visit left: it goes neither
    to the root Prims of the Stage nor to the children of another Prim,
    and no diagnostic is added; the Prim of the caller is handed back as
    it was. *)
Theorem ReconstructPrimRecursively_discards_orphan (fuel : nat)
  (parent current level : Z) (rootPrim : option Prim) (psmap : gmap Z Z)
  (s s1 : RS) (node : Node) :
  current ≠ 0 →
  level ≤ to_int32 kMaxPrimNestLevel →
  0 ≤ current < to_int32 (Z.of_nat (length (_nodes s.1))) →
  ReconstructPrimNode parent current level psmap s = (Ret None, s1) →
  vector_at (_nodes s1.1) current = Some node →
  ReconstructPrimRecursively_fuel (S fuel) parent current rootPrim level
                                  psmap s
  = match for_children
            (λ c _ s',
               if level =? INT_MAX then Some (Undefined, s')
               else drop_prim (visit_node_fuel fuel current (to_int32 c)
                                 (level + 1) psmap s'))
            (GetChildren node) None s1 with
    | Some (Ret _, s2) => Some (Ret rootPrim, s2)
    | other => other
    end.
Proof.
  intros Hc Hlevel Hrange Hnode Hnodes.
  cbn [ReconstructPrimRecursively_fuel].
  destruct (Z.gtb_spec level (to_int32 kMaxPrimNestLevel)) as [?|_]; [lia|].
  destruct (Z.ltb_spec current 0) as [?|_]; [lia|].
  destruct (Z.geb_spec current (to_int32 (Z.of_nat (length (_nodes s.1)))))
    as [?|_]; [lia|].
  cbn [orb]. rewrite Hnode, Hnodes.
  destruct (for_children_orphans fuel current level psmap (GetChildren node)
              Hc s1) as [-> Hnone].
  destruct (for_children _ (GetChildren node) None s1)
    as [[[p| |] s2]|] eqn:E; try done.
  rewrite (Hnone p s2 eq_refl). unfold attach_prim.
  by destruct (parent =? 0).
Qed.

End RecursionProps.

Lemma ReconstructPrimRecursively_depth_limit_witness :
  let s := (Impl_init (nested_scene Specifier.Def),
            mkStage (ext := reference_externals 1) StageMetas_default []) in
  ReconstructPrimRecursively (ext := reference_externals 1) 1 2 None 2
                             (identity_psmap 3) s
  = (Fail, update_impl (PushError depth_error) s)
  ∧ ReconstructPrimRecursively_fuel (ext := reference_externals 1) 7
      (-1) 0 None 0 (identity_psmap 3) s
    = Some (ReconstructPrimRecursively (ext := reference_externals 1)
              (-1) 0 None 0 (identity_psmap 3) s)
  ∧ ((ReconstructStage (ext := reference_externals 1) s).1 = Fail
     ∨ (ReconstructStage (ext := reference_externals 1) s).1 = Undefined).
Proof.
  intros s.
  pose proof (ReconstructPrimRecursively_depth_limit
                (ext := reference_externals 1)) as (Ha & Hb & Hc).
  split; [|split].
  - apply Ha. right. cbn. lia.
  - apply Hb. vm_compute. lia.
  - apply Hc.
    + vm_compute. discriminate.
    + reflexivity.
Defined.

Lemma prim_table_marks_only_prims_witness :
  let s := (Impl_init (nested_scene Specifier.Def),
            mkStage (ext := demo_ext) StageMetas_default []) in
  ∃ psmap,
    build_path_index_to_spec_index_map (cr_specs (crate_reader s.1))
                                       (load_tables s.1)
    = (Ret psmap, load_tables s.1)
    ∧ marks_prim psmap (cr_specs (crate_reader s.1)) 2.
Proof.
  intros s.
  apply (prim_table_marks_only_prims (ext := demo_ext) s
           (ReconstructStage (ext := demo_ext) s).2
           (ReconstructStage (ext := demo_ext) s).1).
  - reflexivity.
  - apply surjective_pairing.
  - refine (bool_decide_unpack _ _). vm_compute. exact I.
Defined.

Lemma ReconstructPrimRecursively_discards_orphan_witness :
  let s := (load_tables (Impl_init orphan_scene),
            mkStage (ext := demo_ext) StageMetas_default []) in
  match ReconstructPrimNode (ext := demo_ext) 0 1 1 (identity_psmap 4) s with
  | (Ret (Some g), sG) =>
    match ReconstructPrimNode (ext := demo_ext) 1 2 2 (identity_psmap 4) sG
    with
    | (Ret None, s1) =>
      ReconstructPrimRecursively_fuel (ext := demo_ext) 5 1 2 (Some g) 2
                                      (identity_psmap 4) sG
      = match for_children
                (λ c _ s',
                   if 2 =? INT_MAX then Some (Undefined, s')
                   else drop_prim (visit_node_fuel (ext := demo_ext) 4 2
                                     (to_int32 c) (2 + 1) (identity_psmap 4)
                                     s'))
                [3] None s1 with
        | Some (Ret _, s2) => Some (Ret (Some g), s2)
        | other => other
        end
      ∧ match visit_node_fuel (ext := demo_ext) 4 2 3 3 (identity_psmap 4) s1
        with
        | Some (Ret (Some b), s2) =>
          tp_name (prim_data b) = "B"
          ∧ length (root_prims s2.2) = 0%nat
          ∧ _warn s2.1 = _warn s1.1 ∧ _err s2.1 = []
        | _ => False
        end
    | _ => False
    end
  | _ => False
  end.
Proof.
  intros s.
  assert (match ReconstructPrimNode (ext := demo_ext) 0 1 1
                  (identity_psmap 4) s with
          | (Ret (Some g), sG) =>
            length (_nodes sG.1) = 4%nat
            ∧ match ReconstructPrimNode (ext := demo_ext) 1 2 2
                      (identity_psmap 4) sG with
              | (Ret None, s1) =>
                vector_at (_nodes s1.1) 2 = Some (mkNode [3])
                ∧ match visit_node_fuel (ext := demo_ext) 4 2 3 3
                          (identity_psmap 4) s1 with
                  | Some (Ret (Some b), s2) =>
                    tp_name (prim_data b) = "B"
                    ∧ length (root_prims s2.2) = 0%nat
                    ∧ _warn s2.1 = _warn s1.1 ∧ _err s2.1 = []
                  | _ => False
                  end
              | _ => False
              end
          | _ => False
          end) as Hrun by (vm_compute; by repeat split).
  destruct (ReconstructPrimNode (ext := demo_ext) 0 1 1 (identity_psmap 4) s)
    as [[[g|]| |] sG]; try done.
  destruct Hrun as [Hlen Hrun].
  destruct (ReconstructPrimNode (ext := demo_ext) 1 2 2 (identity_psmap 4) sG)
    as [[[a|]| |] s1] eqn:HA; try done.
  destruct Hrun as [Hnode Hvisit]. split; [|exact Hvisit].
  apply (ReconstructPrimRecursively_discards_orphan (ext := demo_ext) 4 1 2 2
           (Some g) (identity_psmap 4) sG s1 (mkNode [3])).
  - discriminate.
  - vm_compute. discriminate.
  - rewrite Hlen. vm_compute. split; [discriminate|reflexivity].
  - exact HA.
  - exact Hnode.
Defined.

(** * Further properties of the reader *)

(** ** List-ops *)

Lemma buckets_elem_of {T} (arg : ListOp T) (q : ListEditQual.t)
  (items : list T) :
  (q, items) ∈ buckets arg
  ↔ items = bucket_of q arg ∧ q ≠ ListEditQual.Invalid.
Proof.
  unfold buckets. rewrite !elem_of_cons, elem_of_nil. split.
  - intros [H|[H|[H|[H|[H|[H|[]]]]]]]; by simplify_eq.
  - intros [-> Hq]. destruct q; cbn; auto 10.
Qed.

(** X1: [DecodeListOp] loses nothing of a list-op that is not explicit:
    it lists every non-empty bucket once, under its own qualifier, and
    nothing else. Of an explicit list-op it lists the explicit items
    alone, also when there are none. *)
Theorem DecodeListOp_lossless {T} (arg : ListOp T) :
  NoDup (DecodeListOp arg).*1
  ∧ ∀ q items,
      (q, items) ∈ DecodeListOp arg ↔
      if IsExplicit arg
      then q = ListEditQual.ResetToExplicit ∧ items = GetExplicitItems arg
      else items = bucket_of q arg ∧ items ≠ [].
Proof.
  split.
  - destruct arg as [e ex ad pr ap de od]. unfold DecodeListOp. cbn.
    destruct e; [apply NoDup_singleton|].
    destruct ex, ad, ap, de, pr, od; cbn;
      refine (bool_decide_unpack _ _); vm_compute; exact I.
  - intros q items. rewrite DecodeListOp_buckets.
    destruct (IsExplicit arg).
    + rewrite list_elem_of_singleton. naive_solver.
    + unfold nonempty_buckets. rewrite list_elem_of_In, filter_In.
      rewrite <- list_elem_of_In, buckets_elem_of. cbn.
      rewrite nonempty_length. split; [naive_solver|].
      intros [-> Hne]. repeat split; [|done]. by intros ->.
Qed.

Lemma collect_schemas_Expected (items : list string) :
  ∀ acc names,
  collect_schemas items acc = Expected names ↔
  ∃ new, names = acc ++ new ∧ Forall2 schema_entry items new.
Proof.
  induction items as [|item items IH]; intros acc names; cbn.
  - split.
    + intros [= <-]. exists []. by rewrite app_nil_r.
    + intros (new & -> & ->%Forall2_nil_inv_l). by rewrite app_nil_r.
  - destruct (SchemaHandler item) as [pv|] eqn:Hpv.
    + rewrite IH. split.
      * intros (new & -> & Hnew). exists ((pv, "") :: new).
        rewrite <- app_assoc. split; [done|]. by constructor.
      * intros (new & -> & Hnew).
        apply Forall2_cons_inv_l in Hnew as ([n e] & new' & [Hn He] & Hnew & ->).
        cbn in Hn, He. simplify_eq. exists new'.
        rewrite <- app_assoc. by split.
    + split; [done|]. intros (new & -> & Hnew).
      apply Forall2_cons_inv_l in Hnew as (n & new' & [Hn _] & _ & _).
      congruence.
Qed.

Lemma schema_entry_functional (items : list string) :
  ∀ l1 l2, Forall2 schema_entry items l1 → Forall2 schema_entry items l2 →
  l1 = l2.
Proof.
  induction items as [|tok items IH]; intros l1 l2 H1 H2.
  - apply Forall2_nil_inv_l in H1, H2. congruence.
  - apply Forall2_cons_inv_l in H1 as ([n1 e1] & l1' & [Ha Hb] & H1 & ->).
    apply Forall2_cons_inv_l in H2 as ([n2 e2] & l2' & [Hc Hd] & H2 & ->).
    cbn in *. rewrite (IH l1' l2' H1 H2). congruence.
Qed.

Lemma schemas_of_Expected (q : ListEditQual.t) (items : list string)
  (r : APISchemas) :
  schemas_of q items = Expected r ↔
  api_listOpQual r = q ∧ Forall2 schema_entry items (api_names r).
Proof.
  unfold schemas_of.
  destruct (collect_schemas items []) as [names|e] eqn:E.
  - apply collect_schemas_Expected in E as (new & -> & Hnew). cbn. split.
    + by intros [= <-].
    + intros [<- H]. destruct r as [q' names']. cbn in *. do 2 f_equal.
      by eapply schema_entry_functional.
  - split; [done|]. intros [_ H].
    assert (collect_schemas items [] = Expected (api_names r)) as E'.
    { apply collect_schemas_Expected. by exists (api_names r). }
    congruence.
Qed.

(** X2: [ToAPISchemas] succeeds exactly on the list-ops that
    [DecodeListOp] decodes to a single bucket which is not the Order
    bucket and holds names of known API schemas only; the result has the
    qualifier of that bucket and one name per item, in order, each with
    an empty instance name. *)
Theorem ToAPISchemas_single_bucket (arg : ListOp string) (r : APISchemas) :
  ToAPISchemas arg = Expected r ↔
  ∃ items,
    DecodeListOp arg = [(api_listOpQual r, items)]
    ∧ api_listOpQual r ≠ ListEditQual.Order
    ∧ Forall2 schema_entry items (api_names r).
Proof.
  destruct arg as [e ex ad pr ap de od].
  unfold ToAPISchemas, DecodeListOp. cbn.
  destruct e.
  - rewrite schemas_of_Expected. split.
    + intros [Hq H]. exists ex. rewrite Hq.
      split; [done|]. split; [discriminate|done].
    + intros (items & Hdec & _ & H). by simplify_eq.
  - destruct ex, ad, ap, de, pr, od; cbn;
      rewrite ?schemas_of_Expected;
      (split; [ try discriminate; intros [Hq H]; eexists; rewrite Hq;
                (split; [reflexivity|]); (split; [discriminate|done])
              | intros (items & Hdec & Hne & H); simplify_eq; try done ]).
Qed.

(** ** UpcastType and ParseProperty *)

Section FurtherParseProperty.
Context `{ext : Externals}.

(** X3: [UpcastType] changes a value only when it returns [true], and
    then the value was a half-precision scalar or vector and is none
    afterwards; so calling it again on its result changes nothing. *)
Theorem UpcastType_settles (reqType : string) (v : Value) :
  (if (UpcastType reqType v).1
   then is_Some (half_lanes v) ∧ half_lanes (UpcastType reqType v).2 = None
   else (UpcastType reqType v).2 = v)
  ∧ UpcastType reqType (UpcastType reqType v).2
    = (false, (UpcastType reqType v).2).
Proof.
  unfold UpcastType.
  destruct (TryGetUnderlyingTypeId reqType) as [tyid|] eqn:E; cbn.
  - destruct tyid, v; cbn; rewrite ?E; cbn; eauto.
  - done.
Qed.

Lemma ParseProperty_field_outcome (fv : FieldValuePair) (l : PropLocals)
  (i : Impl) :
  match ParseProperty_field fv l i with
  | (Ret _, i') => ∃ ws, i' = add_warnings ws i ∧ (length ws ≤ 1)%nat
  | (Fail, i') => ∃ e, i' = PushError e i
  | (Undefined, _) => False
  end.
Proof.
  destruct fv as [name v].
  unfold ParseProperty_field, ParseProperty_targetPaths.
  unfold mbind, M_bind, bind, mret, M_ret, PUSH_ERROR_AND_RETURN, PUSH_WARN,
    modify. cbn.
  repeat (case_match; simplify_eq/=; try done);
    first [ by eexists
          | exists []; by rewrite add_warnings_nil; cbn; split; [|lia]
          | eexists [_]; split; [reflexivity|cbn; lia] ].
Qed.

Lemma ParseProperty_loop_outcome (fvs : FieldValuePairVector) :
  ∀ (l : PropLocals) (i : Impl),
  match for_each ParseProperty_field fvs l i with
  | (Ret _, i') => ∃ ws, i' = add_warnings ws i ∧ (length ws ≤ length fvs)%nat
  | (Fail, i') =>
    ∃ ws e, i' = PushError e (add_warnings ws i) ∧ (length ws < length fvs)%nat
  | (Undefined, _) => False
  end.
Proof.
  induction fvs as [|fv fvs IH]; intros l i; cbn [for_each].
  - exists []. by rewrite add_warnings_nil.
  - unfold mbind, M_bind, bind.
    pose proof (ParseProperty_field_outcome fv l i) as Hf.
    destruct (ParseProperty_field fv l i) as [[l1| |] i1]; [| |done].
    + destruct Hf as (ws1 & -> & Hlen1). specialize (IH l1 (add_warnings ws1 i)).
      destruct (for_each ParseProperty_field fvs l1 (add_warnings ws1 i))
        as [[l2| |] i2]; [| |done].
      * destruct IH as (ws2 & -> & Hlen2). exists (ws1 ++ ws2).
        rewrite add_warnings_app, length_app. cbn. split; [done|lia].
      * destruct IH as (ws2 & e & -> & Hlen2). exists (ws1 ++ ws2), e.
        rewrite add_warnings_app, length_app. cbn. split; [done|lia].
    + destruct Hf as (e & ->). exists [], e. rewrite add_warnings_nil.
      cbn. split; [done|lia].
Qed.

(** X4: whatever the fieldset, [ParseProperty] reads no vector out of
    bounds; when it returns a Property it has only appended warnings to
    the reader, at most one per field; and when it fails it has appended
    warnings, at most one per field, and then exactly one error. *)
Theorem ParseProperty_outcome (spec_type : SpecType.t)
  (fvs : FieldValuePairVector) (i : Impl) :
  match ParseProperty spec_type fvs i with
  | (Ret _, i') => ∃ ws, i' = add_warnings ws i ∧ (length ws ≤ length fvs)%nat
  | (Fail, i') =>
    ∃ ws e, i' = PushError e (add_warnings ws i) ∧ (length ws ≤ length fvs)%nat
  | (Undefined, _) => False
  end.
Proof.
  unfold ParseProperty. destruct (_ >? _).
  { exists [], "Too much FieldValue pairs.". rewrite add_warnings_nil.
    cbn. split; [done|lia]. }
  unfold mbind, M_bind, bind.
  pose proof (ParseProperty_loop_outcome fvs PropLocals_init i) as Hl.
  destruct (for_each ParseProperty_field fvs PropLocals_init i)
    as [[l1| |] i1]; [| |done].
  - destruct Hl as (ws & -> & Hlen). unfold make_property.
    unfold mret, M_ret, PUSH_ERROR_AND_RETURN. cbn.
    repeat (case_match; simplify_eq/=; try done); eauto.
  - destruct Hl as (ws & e & -> & Hlen). exists ws, e. split; [done|lia].
Qed.

Lemma ParseProperty_field_Ret_accepted (fv : FieldValuePair)
  (l l' : PropLocals) (i i' : Impl) :
  ParseProperty_field fv l i = (Ret l', i') → field_accepted fv = true.
Proof.
  destruct fv as [name v].
  unfold ParseProperty_field, field_accepted, ParseProperty_targetPaths.
  unfold mbind, M_bind, bind, mret, M_ret, PUSH_ERROR_AND_RETURN, PUSH_WARN,
    modify. cbn.
  repeat (case_match; simplify_eq/=; try done).
  all: intros _; rewrite ?bool_decide_eq_true; eauto.
  all: try apply orb_true_r.
  all: try match goal with
       | H : DecodeListOp ?p = _ :: _ |- IsExplicit ?p || false = true =>
         unfold DecodeListOp in H; destruct (IsExplicit p); [done|];
         repeat match goal with
                | E : nonempty _ = false |- _ => rewrite E in H; clear E
                end; discriminate H
       end.
  all: try (apply andb_true_iff; split; [apply Z.leb_le|apply Z.leb_le]; lia).
  match goal with
  | H : negb (IsExplicit ?p) = false |- _ =>
    apply negb_false_iff in H; rewrite H; by destruct (GetExplicitItems p)
  end.
Qed.

Lemma ParseProperty_loop_Ret_accepted (fvs : FieldValuePairVector) :
  ∀ (l l' : PropLocals) (i i' : Impl),
  for_each ParseProperty_field fvs l i = (Ret l', i') →
  forallb field_accepted fvs = true.
Proof.
  induction fvs as [|fv fvs IH]; intros l l' i i' H; [done|].
  cbn [for_each] in H. apply bind_ret_inv in H as (l1 & i1 & Hf & Hrest).
  cbn. apply andb_true_iff. split.
  - by eapply ParseProperty_field_Ret_accepted.
  - by eapply IH.
Qed.

(** X5: [ParseProperty] returns a Property only for a fieldset that has
    at most [kMaxFieldValuePairs] fields, each of which passes the check
    of its branch. So it returns none, wherever the field stands, when a
    [custom], [variability], [typeName], [timeSamples], [interpolation],
    [connectionPaths], [targetPaths], [elementSize], [targetChildren],
    [connectionChildren], [customData] or [comment] field has a value
    that is not of the type its branch asks for, when an [interpolation]
    token names no interpolation, when an [elementSize] is below 1 or,
    as [uint32_t], above [kMaxElementSize], when a [connectionPaths] is not explicit or
    has no explicit item, and when a [targetPaths] is not explicit and
    has no item in any bucket. *)
Theorem ParseProperty_success_accepted (spec_type : SpecType.t)
  (fvs : FieldValuePairVector) (i i' : Impl) (prop : Property) :
  ParseProperty spec_type fvs i = (Ret prop, i') →
  fieldset_accepted fvs = true.
Proof.
  unfold ParseProperty, fieldset_accepted.
  destruct (Z.gtb_spec (Z.of_nat (length fvs)) kMaxFieldValuePairs) as [?|Hle];
    [done|].
  intros H. apply bind_ret_inv in H as (l1 & i1 & Hloop & _).
  apply andb_true_iff. split; [by apply Z.leb_le|].
  by eapply ParseProperty_loop_Ret_accepted.
Qed.

(** X6: when the last classifying field of an accepted fieldset is a
    [connectionPaths], the Property is a connection whose targets are
    the explicit items of that list-op, and
    [Property::GetConnectionTarget] gives a path only when there is
    exactly one item: a connection to several paths has no connection
    target. *)
Theorem ParseProperty_connection_target (spec_type : SpecType.t)
  (pre post : FieldValuePairVector) (p : ListOp Path) (i : Impl) :
  fieldset_accepted (pre ++ ("connectionPaths", VListOpPath p) :: post) = true →
  Forall (λ fv : FieldValuePair, classifier fv.1 = None) post →
  ∃ prop ws,
    ParseProperty spec_type (pre ++ ("connectionPaths", VListOpPath p) :: post) i
    = (Ret prop, add_warnings ws i)
    ∧ IsConnection prop = true
    ∧ targets (rel prop) = GetExplicitItems p
    ∧ GetConnectionTarget prop
      = match GetExplicitItems p with [path] => Some path | _ => None end.
Proof.
  intros Hacc Hpost.
  apply fieldset_accepted_inv in Hacc as [Hsize Hacc].
  rewrite forallb_app in Hacc. cbn [forallb] in Hacc.
  apply andb_true_iff in Hacc as [Hpre Hacc].
  apply andb_true_iff in Hacc as [Hfield Hpostacc].
  destruct (ParseProperty_loop_accepted pre PropLocals_init i Hpre)
    as (l1 & ws1 & Hloop1 & _).
  cbn in Hfield. apply andb_true_iff in Hfield as [Hexp Hne].
  set (l2 := with_rel (Set_items (GetExplicitItems p)
                         (pl_rel (with_propType PropertyType.Connection l1)))
                      (with_propType PropertyType.Connection l1)).
  assert (ParseProperty_field ("connectionPaths", VListOpPath p) l1
            (add_warnings ws1 i) = (Ret l2, add_warnings ws1 i)) as Hstep.
  { cbn. rewrite Hexp. cbn. destruct (GetExplicitItems p); done. }
  destruct (ParseProperty_loop_accepted post l2 (add_warnings ws1 i) Hpostacc)
    as (l3 & ws3 & Hloop3 & Hty3 & _ & _ & Hrel3).
  rewrite (last_classifier_None post Hpost) in Hty3. cbn in Hty3.
  specialize (Hrel3 Hpost).
  exists (Property_of_relation (pl_rel l3) true (pl_custom l3)), (ws1 ++ ws3).
  split.
  { assert (for_each ParseProperty_field
              (pre ++ ("connectionPaths", VListOpPath p) :: post)
              PropLocals_init i
            = (Ret l3, add_warnings (ws1 ++ ws3) i)) as Hloop.
    { rewrite for_each_app, (bind_ret_l _ _ _ _ _ Hloop1). cbn [for_each].
      rewrite (bind_ret_l _ _ _ _ _ Hstep), Hloop3, !add_warnings_app. done. }
    unfold ParseProperty. rewrite Hsize, (bind_ret_l _ _ _ _ _ Hloop).
    unfold make_property. by rewrite Hty3. }
  split; [reflexivity|].
  unfold GetConnectionTarget.
  cbn [rel Property_of_relation IsConnection prop_type].
  rewrite Hrel3. subst l2. cbn [pl_rel with_rel with_propType].
  split; [apply Set_items_targets|].
  by destruct (GetExplicitItems p) as [|? [|? ?]].
Qed.

Lemma fieldset_meta_cons (fv : FieldValuePair) (fvs : FieldValuePairVector)
  (base : PropMeta) :
  override base (fieldset_meta (fv :: fvs))
  = override (override base (fieldset_meta [fv])) (fieldset_meta fvs).
Proof.
  unfold override, fieldset_meta, last_as, updated. rewrite !last_omap_cons.
  cbn.
  f_equal; match goal with |- context [last ?x] => by destruct (last x) end.
Qed.

Lemma ParseProperty_field_meta (fv : FieldValuePair) (l l' : PropLocals)
  (i i' : Impl) :
  ParseProperty_field fv l i = (Ret l', i') →
  locals_meta l' = override (locals_meta l) (fieldset_meta [fv])
  ∧ attr_meta (pl_attr l') = attr_meta (pl_attr l)
  ∧ rel_meta (pl_rel l') = rel_meta (pl_rel l).
Proof.
  destruct fv as [name v].
  unfold ParseProperty_field, ParseProperty_targetPaths, fieldset_meta,
    locals_meta, override, last_as, updated.
  unfold get_interpolation, get_StringData.
  unfold mbind, M_bind, bind, mret, M_ret, PUSH_ERROR_AND_RETURN, PUSH_WARN,
    modify, option_bind. cbn.
  case_name name;
  repeat (case_match; simplify_eq/=; try done); intros; simplify_eq;
    repeat split; try done.
  all: unfold Set_items; by repeat case_match.
Qed.

Lemma updated_Some {A} (d x : A) (o : option A) :
  Some x = updated (Some d) o → x = default d o.
Proof. destruct o; cbn; congruence. Qed.

Lemma updated_None {A} (x o : option A) : x = updated None o → x = o.
Proof. by destruct o. Qed.

Lemma ParseProperty_loop_meta (fvs : FieldValuePairVector) :
  ∀ (l l' : PropLocals) (i i' : Impl),
  for_each ParseProperty_field fvs l i = (Ret l', i') →
  locals_meta l' = override (locals_meta l) (fieldset_meta fvs)
  ∧ attr_meta (pl_attr l') = attr_meta (pl_attr l)
  ∧ rel_meta (pl_rel l') = rel_meta (pl_rel l).
Proof.
  induction fvs as [|fv fvs IH]; intros l l' i i' H.
  - cbn in H. unfold mret, M_ret in H. by simplify_eq.
  - cbn [for_each] in H. apply bind_ret_inv in H as (l1 & i1 & Hf & Hrest).
    apply ParseProperty_field_meta in Hf as (Hf1 & Hf2 & Hf3).
    apply IH in Hrest as (Hr1 & Hr2 & Hr3).
    rewrite fieldset_meta_cons, <- Hf1, Hr1, Hr2, Hr3. done.
Qed.

(** What [ParseProperty] returns, in terms of the locals its loop
    leaves. *)
Lemma ParseProperty_Ret_inv (spec_type : SpecType.t)
  (fvs : FieldValuePairVector) (i i' : Impl) (prop : Property) :
  ParseProperty spec_type fvs i = (Ret prop, i') →
  ∃ l i1,
    for_each ParseProperty_field fvs PropLocals_init i = (Ret l, i1)
    ∧ make_property spec_type l (store_metas l (store_scalar l)) i1
      = (Ret prop, i').
Proof.
  unfold ParseProperty. destruct (_ >? _); [done|].
  intros H. apply bind_ret_inv in H as (l & i1 & ? & ?). eauto.
Qed.

Lemma store_scalar_keeps (l : PropLocals) :
  variability (store_scalar l) = variability (pl_attr l)
  ∧ attr_meta (store_scalar l) = attr_meta (pl_attr l).
Proof. unfold store_scalar. by destruct (pl_is_scalar l). Qed.

Lemma store_metas_spec (l : PropLocals) (a : PrimAttrib) :
  attr_meta a = AttrMeta_default →
  variability (store_metas l a) = variability a
  ∧ attr_meta (store_metas l a)
    = mkAttrMeta (pl_interpolation l) (to_uint32 <$> pl_elementSize l)
                 (pl_comment l) (pl_customData l).
Proof.
  intros Ha. unfold store_metas. rewrite Ha.
  by destruct (pl_interpolation l), (pl_elementSize l), (pl_customData l),
              (pl_comment l).
Qed.

(** X7: an attribute with a value ([default], [timeSamples] or
    [interpolation] was the last classifying field) keeps the qualifiers
    and the metadata of its fieldset, each as its last field states it:
    [custom] (else false), [variability] (else varying), and in the
    attribute metadata [interpolation], [elementSize] (as [uint32_t]),
    [comment] and [customData]; nothing of a relationship is stored. *)
Theorem ParseProperty_attribute_metadata (spec_type : SpecType.t)
  (fvs : FieldValuePairVector) (i i' : Impl) (prop : Property) :
  ParseProperty spec_type fvs i = (Ret prop, i') →
  prop_type prop = PropertyType.Attrib →
  has_custom prop = default false (last_as "custom" get_bool fvs)
  ∧ variability (attrib prop)
    = default Variability.Varying (last_as "variability" get_Variability fvs)
  ∧ attr_meta (attrib prop)
    = mkAttrMeta (last_as "interpolation" get_interpolation fvs)
                 (to_uint32 <$> last_as "elementSize" get_int fvs)
                 (last_as "comment" get_StringData fvs)
                 (last_as "customData" get_CustomData fvs)
  ∧ rel prop = Relation_default.
Proof.
  intros (l & i1 & Hloop & Hmk)%ParseProperty_Ret_inv Hty.
  apply ParseProperty_loop_meta in Hloop as (Hmeta & Hattr & _).
  unfold locals_meta, override, fieldset_meta in Hmeta. cbn in Hmeta.
  injection Hmeta as Hc Hvar Hint Hes Hcd Hcm.
  pose proof (store_scalar_keeps l) as [Hv Hm].
  destruct (store_metas_spec l (store_scalar l)) as [Hv' Hm'].
  { by rewrite Hm, Hattr. }
  unfold make_property, mret, M_ret, PUSH_ERROR_AND_RETURN in Hmk.
  destruct (pl_propType l);
    [destruct (pl_typeName l); [|destruct (decide _)]|..];
    simplify_eq; try discriminate Hty.
  cbn [has_custom attrib rel Property_of_attrib].
  rewrite Hv', Hv, Hm'.
  apply updated_Some in Hc, Hvar.
  apply updated_None in Hint, Hes, Hcd, Hcm.
  by rewrite Hc, Hvar, Hint, Hes, Hcd, Hcm.
Qed.

(** X8: a Property that is not an attribute with a value (a declaration
    without value, a relationship or a connection) keeps of its fieldset
    the [custom] qualifier only: its attribute has the default
    variability, no metadata and no value, also when the fieldset had a
    [variability], [comment], [customData], [elementSize] or [default]
    field, and the metadata of its relationship stay empty. *)
Theorem ParseProperty_drops_metadata (spec_type : SpecType.t)
  (fvs : FieldValuePairVector) (i i' : Impl) (prop : Property) :
  ParseProperty spec_type fvs i = (Ret prop, i') →
  prop_type prop ≠ PropertyType.Attrib →
  has_custom prop = default false (last_as "custom" get_bool fvs)
  ∧ variability (attrib prop) = Variability.Varying
  ∧ attr_meta (attrib prop) = AttrMeta_default
  ∧ get_var (attrib prop) = PrimVar_empty
  ∧ rel_meta (rel prop) = AttrMeta_default.
Proof.
  intros (l & i1 & Hloop & Hmk)%ParseProperty_Ret_inv Hty.
  apply ParseProperty_loop_meta in Hloop as (Hmeta & _ & Hrel).
  unfold locals_meta, override, fieldset_meta in Hmeta. cbn in Hmeta.
  injection Hmeta as Hc _ _ _ _ _. apply updated_Some in Hc.
  unfold make_property, mret, M_ret, PUSH_ERROR_AND_RETURN in Hmk.
  destruct (pl_propType l);
    [destruct (pl_typeName l); [|destruct (decide _)]|..];
    simplify_eq; try done.
  all: cbn; by rewrite ?Hrel, Hc.
Qed.

(** ** BuildPropertyMap *)

Lemma ParseProperty_field_value (fv : FieldValuePair) (l : PropLocals)
  (i1 i2 : Impl) :
  (ParseProperty_field fv l i1).1 = (ParseProperty_field fv l i2).1.
Proof.
  destruct fv as [name v].
  unfold ParseProperty_field, ParseProperty_targetPaths.
  unfold mbind, M_bind, bind, mret, M_ret, PUSH_ERROR_AND_RETURN, PUSH_WARN,
    modify. cbn.
  repeat (case_match; simplify_eq/=; try done).
Qed.

Lemma ParseProperty_loop_value (fvs : FieldValuePairVector) :
  ∀ (l : PropLocals) (i1 i2 : Impl),
  (for_each ParseProperty_field fvs l i1).1
  = (for_each ParseProperty_field fvs l i2).1.
Proof.
  induction fvs as [|fv fvs IH]; intros l i1 i2; [done|].
  cbn [for_each]. unfold mbind, M_bind, bind.
  pose proof (ParseProperty_field_value fv l i1 i2) as H.
  destruct (ParseProperty_field fv l i1) as [[l1| |] j1],
           (ParseProperty_field fv l i2) as [[l2| |] j2];
    cbn in H; simplify_eq; try done.
Qed.

(** What [ParseProperty] returns does not depend on the reader. *)
Lemma ParseProperty_value (spec_type : SpecType.t)
  (fvs : FieldValuePairVector) (i1 i2 : Impl) :
  (ParseProperty spec_type fvs i1).1 = (ParseProperty spec_type fvs i2).1.
Proof.
  unfold ParseProperty. destruct (_ >? _); [done|].
  unfold mbind, M_bind, bind.
  pose proof (ParseProperty_loop_value fvs PropLocals_init i1 i2) as H.
  destruct (for_each ParseProperty_field fvs PropLocals_init i1)
    as [[l1| |] j1],
    (for_each ParseProperty_field fvs PropLocals_init i2) as [[l2| |] j2];
    cbn in H; simplify_eq; try done.
  unfold make_property, mret, M_ret, PUSH_ERROR_AND_RETURN.
  repeat (case_match; simplify_eq/=; try done).
Qed.

Lemma BuildPropertyMap_step_Ret (psmap : gmap Z Z) (c : Z)
  (props props' : gmap string Property) (impl impl' : Impl) :
  BuildPropertyMap_step psmap c props impl = (Ret props', impl') →
  0 ≤ to_int32 c < to_int32 (Z.of_nat (length (_nodes impl)))
  ∧ (props' = props
     ∨ ∃ name prop, property_child psmap impl c name prop
                    ∧ props' = emplace name prop props).
Proof.
  unfold BuildPropertyMap_step, property_child.
  unfold mbind, M_bind, bind, gets, mret, M_ret, PUSH_ERROR_AND_RETURN,
    undefined. cbn.
  destruct (Z.ltb_spec (to_int32 c) 0) as [?|Hlo]; [done|].
  destruct (Z.geb_spec (to_int32 c) (to_int32 (Z.of_nat (length (_nodes impl)))))
    as [?|Hhi]; [done|]. cbn.
  intros H. split; [lia|].
  destruct (psmap !! to_uint32 (to_int32 c)) as [spec_index|] eqn:Hps;
    [|left; congruence].
  destruct (_ >=? _); [done|].
  destruct (vector_at (_specs impl) spec_index) as [spec|] eqn:Hspec; [|done].
  destruct (bool_decide _ || bool_decide _) eqn:Hty; [|left; congruence].
  unfold GetPath in H.
  destruct (_ <=? _); [|done].
  destruct (_paths impl !! Z.to_nat (path_index spec)) as [path|] eqn:Hpath;
    [|done].
  destruct (_live_fieldsets impl !! fieldset_index spec) as [fvs|] eqn:Hlive;
    [|done].
  unfold or_error in H.
  destruct (ParseProperty (spec_type spec) fvs impl) as [[prop| |] i1] eqn:Hp;
    [|done..].
  injection H as <- <-. right. exists (GetPropPart path), prop.
  split; [|done]. exists spec_index, spec, path, fvs.
  repeat split; try done.
  - apply orb_true_iff in Hty as [?%bool_decide_eq_true|?%bool_decide_eq_true];
      auto.
  - by rewrite Hp.
Qed.

Lemma property_child_diag_only (psmap : gmap Z Z) (i i' : Impl) (c : Z)
  (name : string) (prop : Property) :
  diag_only i i' → property_child psmap i' c name prop →
  property_child psmap i c name prop.
Proof.
  intros (_ & _ & Hs & Hp & _ & Hl & _)
         (spec_index & spec & path & fvs & H1 & H2 & H3 & H4 & H5 & H6 & H7).
  exists spec_index, spec, path, fvs. rewrite <- Hs, <- Hp, <- Hl.
  repeat split; try done. by rewrite (ParseProperty_value _ _ i i').
Qed.

(** X9: when [BuildPropertyMap] succeeds, every listed child index is a
    valid node id, and every entry of the resulting map was in the map
    before or comes from a listed child that has an Attribute or
    Relationship spec: its key is the property part of the path of that
    spec and its value is what [ParseProperty] makes of the fieldset of
    that spec. Children of any other spec type add nothing. *)
Theorem BuildPropertyMap_provenance (pathIndices : list Z) (psmap : gmap Z Z)
  (props props' : gmap string Property) (impl impl' : Impl) :
  BuildPropertyMap pathIndices psmap props impl = (Ret props', impl') →
  (∀ c, c ∈ pathIndices →
        0 ≤ to_int32 c < to_int32 (Z.of_nat (length (_nodes impl))))
  ∧ (∀ name prop,
       props' !! name = Some prop →
       props !! name = Some prop
       ∨ ∃ c, c ∈ pathIndices ∧ property_child psmap impl c name prop).
Proof.
  unfold BuildPropertyMap. revert props impl.
  induction pathIndices as [|c cs IH]; intros props impl H.
  - cbn in H. unfold mret, M_ret in H. simplify_eq.
    split; [by intros c ?%elem_of_nil|]. auto.
  - cbn [for_each] in H. apply bind_ret_inv in H as (props1 & impl1 & Hs & Hr).
    pose proof (preserves_BuildPropertyMap [c] psmap props impl) as Hd.
    unfold BuildPropertyMap in Hd. cbn [for_each] in Hd.
    rewrite (bind_ret_l _ _ _ _ _ Hs) in Hd. cbn in Hd.
    apply BuildPropertyMap_step_Ret in Hs as [Hc Hs].
    apply IH in Hr as [Hrange Hkeys].
    pose proof Hd as (_ & Hnodes & _). split.
    + intros c' [->|Hin]%elem_of_cons; [done|].
      rewrite <- Hnodes. by apply Hrange.
    + intros name prop Hin. apply Hkeys in Hin as [Hin|(c' & Hc' & Hchild)].
      * destruct Hs as [->|(n & p & Hchild & ->)]; [by left|].
        unfold emplace in Hin. destruct (props !! n) eqn:Hn; [by left|].
        destruct (decide (n = name)) as [->|Hne].
        -- rewrite lookup_insert_eq in Hin. injection Hin as ->.
           right. exists c. split; [by left|done].
        -- rewrite lookup_insert_ne in Hin by done. by left.
      * right. exists c'. split; [by right|].
        by eapply property_child_diag_only.
Qed.

(** A node is a property child under one name and with one Property. *)
Lemma property_child_functional (psmap : gmap Z Z) (impl : Impl) (c : Z)
  (name1 name2 : string) (prop1 prop2 : Property) :
  property_child psmap impl c name1 prop1 →
  property_child psmap impl c name2 prop2 →
  name1 = name2 ∧ prop1 = prop2.
Proof.
  intros (si1 & sp1 & pa1 & fv1 & H1 & H2 & _ & H4 & -> & H6 & H7)
         (si2 & sp2 & pa2 & fv2 & G1 & G2 & _ & G4 & -> & G6 & G7).
  simplify_eq. split; [done|]. congruence.
Qed.

Lemma diag_only_property_child (psmap : gmap Z Z) (i i' : Impl) (c : Z)
  (name : string) (prop : Property) :
  diag_only i i' → property_child psmap i c name prop →
  property_child psmap i' c name prop.
Proof.
  intros (_ & _ & Hs & Hp & _ & Hl & _)
         (spec_index & spec & path & fvs & H1 & H2 & H3 & H4 & H5 & H6 & H7).
  exists spec_index, spec, path, fvs. rewrite Hs, Hp, Hl.
  repeat split; try done. by rewrite (ParseProperty_value _ _ i' i).
Qed.

(** One turn of the loop on a property child puts its Property under its
    name, unless the name is taken. *)
Lemma BuildPropertyMap_step_child (psmap : gmap Z Z) (c : Z)
  (props props' : gmap string Property) (impl impl' : Impl) (name : string)
  (prop : Property) :
  property_child psmap impl c name prop →
  BuildPropertyMap_step psmap c props impl = (Ret props', impl') →
  props' = emplace name prop props.
Proof.
  intros Hc Hstep.
  destruct (BuildPropertyMap_step_Ret _ _ _ _ _ _ Hstep)
    as [_ [->|(n & p & Hc' & ->)]].
  - revert Hstep.
    destruct Hc as (si & sp & pa & fv & H1 & H2 & H3 & H4 & -> & H6 & H7).
    unfold BuildPropertyMap_step, GetPath, or_error.
    unfold mbind, M_bind, bind, gets, mret, M_ret, PUSH_ERROR_AND_RETURN,
      undefined. cbn.
    destruct (_ || _); [done|]. rewrite H1.
    destruct (_ >=? _); [done|]. rewrite H2.
    assert (bool_decide (spec_type sp = SpecType.Attribute)
            || bool_decide (spec_type sp = SpecType.Relationship) = true)
      as ->.
    { destruct H3 as [->| ->]; by vm_compute. }
    destruct (_ <=? _); [|done]. rewrite H4. cbn. rewrite H6.
    destruct (ParseProperty (spec_type sp) fv impl) as [[q| |] i1];
      cbn in H7; [|done..].
    intros [= Heq _]. by simplify_eq.
  - by destruct (property_child_functional _ _ _ _ _ _ _ Hc Hc') as [-> ->].
Qed.

(** The first listed child with a name that is not in the map yet decides
    the entry of that name. *)
Lemma BuildPropertyMap_first_child (psmap : gmap Z Z) (c : Z)
  (post : list Z) (name : string) (first : Property) (pre : list Z) :
  ∀ (props props' : gmap string Property) (impl impl' : Impl),
  BuildPropertyMap (pre ++ c :: post) psmap props impl = (Ret props', impl') →
  props !! name = None →
  (∀ c' p, c' ∈ pre → ¬ property_child psmap impl c' name p) →
  property_child psmap impl c name first →
  props' !! name = Some first.
Proof.
  induction pre as [|c0 pre IH]; intros props props' impl impl' Hrun Hnone
    Hpre Hc.
  - cbn [app] in Hrun. unfold BuildPropertyMap in Hrun. cbn [for_each] in Hrun.
    apply bind_ret_inv in Hrun as (props1 & impl1 & Hstep & Hrest).
    apply (BuildPropertyMap_step_child _ _ _ _ _ _ _ _ Hc) in Hstep as ->.
    eapply (BuildPropertyMap_keeps post psmap); [|exact Hrest].
    by apply emplace_fresh.
  - cbn [app] in Hrun. unfold BuildPropertyMap in Hrun. cbn [for_each] in Hrun.
    apply bind_ret_inv in Hrun as (props1 & impl1 & Hstep & Hrest).
    pose proof (preserves_BuildPropertyMap [c0] psmap props impl) as Hd.
    unfold BuildPropertyMap in Hd. cbn [for_each] in Hd.
    rewrite (bind_ret_l _ _ _ _ _ Hstep) in Hd. cbn in Hd.
    eapply (IH props1 props' impl1 impl'); [exact Hrest| | |].
    + destruct (BuildPropertyMap_step_Ret _ _ _ _ _ _ Hstep)
        as [_ [->|(n & p & Hc0 & ->)]]; [done|].
      rewrite emplace_other; [done|]. intros ->.
      by eapply (Hpre c0 p); [left|].
    + intros c' p Hin Hc'. eapply (Hpre c' p); [by right|].
      by eapply property_child_diag_only.
    + by eapply diag_only_property_child.
Qed.

(** C5, as amended: [BuildPropertyMap] neither reports nor replaces a
    duplicate property name. What it writes to the reader (the warnings
    among it) does not depend on the names already in the map; an entry
    of the map is never overwritten; and of two listed children with one
    property name, the first of which is the first child of that name
    and finds the name free, the Property of the earlier is the one in
    the resulting map: the later one is parsed and dropped. *)
Theorem BuildPropertyMap_keeps_first_duplicate (pathIndices : list Z)
  (psmap : gmap Z Z) :
  (∀ (props1 props2 : gmap string Property) (impl : Impl),
     same_effect (BuildPropertyMap pathIndices psmap props1 impl)
                 (BuildPropertyMap pathIndices psmap props2 impl))
  ∧ (∀ (props props' : gmap string Property) (impl impl' : Impl)
       (name : string) (earlier : Property),
       props !! name = Some earlier →
       BuildPropertyMap pathIndices psmap props impl = (Ret props', impl') →
       props' !! name = Some earlier)
  ∧ (∀ (pre mid post : list Z) (c1 c2 : Z)
       (props props' : gmap string Property) (impl impl' : Impl)
       (name : string) (first second : Property),
       pathIndices = pre ++ c1 :: mid ++ c2 :: post →
       BuildPropertyMap pathIndices psmap props impl = (Ret props', impl') →
       props !! name = None →
       (∀ c p, c ∈ pre → ¬ property_child psmap impl c name p) →
       property_child psmap impl c1 name first →
       property_child psmap impl c2 name second →
       props' !! name = Some first).
Proof.
  split; [|split].
  - unfold BuildPropertyMap.
    induction pathIndices as [|c cs IH]; intros props1 props2 impl.
    + by split.
    + cbn [for_each]. unfold mbind, M_bind, bind.
      pose proof (BuildPropertyMap_step_same_effect psmap c props1 props2 impl)
        as [Hst Hout].
      destruct (BuildPropertyMap_step psmap c props1 impl) as [[m1| |] i1],
               (BuildPropertyMap_step psmap c props2 impl) as [[m2| |] i2];
        cbn in Hst, Hout; try done; subst; [apply IH | by split..].
  - apply BuildPropertyMap_keeps.
  - intros pre mid post c1 c2 props props' impl impl' name first second
      -> Hrun Hnone Hpre Hc1 _.
    by eapply BuildPropertyMap_first_child.
Qed.

(** ** ParsePrimFields and ReconstrcutStageMeta *)

Lemma updated_last {A} (f : FieldValuePair → option A) (fv : FieldValuePair)
  (fvs : FieldValuePairVector) (old : option A) :
  updated (updated old (f fv)) (last (omap f fvs))
  = updated old (last (omap f (fv :: fvs))).
Proof.
  rewrite last_omap_cons. unfold updated.
  by destruct (last (omap f fvs)), (f fv).
Qed.

Lemma default_last {A} (f : FieldValuePair → option A) (fv : FieldValuePair)
  (fvs : FieldValuePairVector) (old : A) :
  default (default old (f fv)) (last (omap f fvs))
  = default old (last (omap f (fv :: fvs))).
Proof.
  rewrite last_omap_cons. by destruct (last (omap f fvs)), (f fv).
Qed.

Lemma last_omap_singleton {A B} (f : A → option B) (x : A) :
  last (omap f [x]) = f x.
Proof. cbn. by destruct (f x). Qed.

Lemma PrimFields_after_nil (l : PrimFields) : PrimFields_after l [] = l.
Proof. by destruct l as [? ? ? []]. Qed.

Lemma PrimFields_after_cons (l : PrimFields) (fv : FieldValuePair)
  (fvs : FieldValuePairVector) :
  PrimFields_after (PrimFields_after l [fv]) fvs = PrimFields_after l (fv :: fvs).
Proof.
  unfold PrimFields_after, last_as. cbn [pf_typeName pf_specifier pf_properties
    pf_primMeta pm_active pm_kind pm_assetInfo pm_customData pm_doc pm_comment
    pm_apiSchemas pm_sceneName].
  by rewrite <- !updated_last, <- !default_last.
Qed.

Lemma ParsePrimFields_field_after (fv : FieldValuePair) (l l' : PrimFields)
  (i i' : Impl) :
  ParsePrimFields_field fv l i = (Ret l', i') → l' = PrimFields_after l [fv].
Proof.
  destruct fv as [name v]. destruct l as [tn sp props [a k ai cd d c api sn]].
  unfold ParsePrimFields_field, PrimFields_after, last_as, updated,
    get_kind, get_StringData, get_apiSchemas, with_primMeta.
  unfold mbind, M_bind, bind, mret, M_ret, PUSH_ERROR_AND_RETURN, PUSH_WARN,
    modify, option_bind. cbn.
  case_name name;
    repeat (case_match; simplify_eq/=; try done); intros; by simplify_eq.
Qed.

Lemma ParsePrimFields_loop_after (fvs : FieldValuePairVector) :
  ∀ (l pf : PrimFields) (i i' : Impl),
  for_each ParsePrimFields_field fvs l i = (Ret pf, i') →
  pf = PrimFields_after l fvs.
Proof.
  induction fvs as [|fv fvs IH]; intros l pf i i' H.
  - cbn in H. unfold mret, M_ret in H. rewrite PrimFields_after_nil.
    congruence.
  - cbn [for_each] in H. apply bind_ret_inv in H as (l1 & i1 & Hf & Hr).
    apply ParsePrimFields_field_after in Hf as ->.
    apply IH in Hr as ->. apply PrimFields_after_cons.
Qed.

Lemma PrimFields_after_init (fvs : FieldValuePairVector) :
  PrimFields_after PrimFields_init fvs
  = mkPrimFields (last_as "typeName" get_token fvs)
                 (last_as "specifier" get_Specifier fvs)
                 (default [] (last_as "properties" get_token_vector fvs))
                 (fieldset_PrimMeta fvs).
Proof.
  unfold PrimFields_after, fieldset_PrimMeta, updated. cbn.
  f_equal; [| |f_equal]; by case_match.
Qed.

(** X10: when [ParsePrimFields] succeeds, each of its outputs is what the
    last field of its name states, and nothing when there is no such
    field: the type name, the specifier, the property names, and in the
    Prim metadata [active], [kind], [assetInfo], [customData],
    [documentation], [comment], [apiSchemas] and [sceneName]. Fields of
    other names have no effect on the outputs. *)
Theorem ParsePrimFields_last_fields (fvs : FieldValuePairVector)
  (i i' : Impl) (pf : PrimFields) :
  ParsePrimFields fvs i = (Ret pf, i') →
  pf = mkPrimFields
         (last_as "typeName" get_token fvs)
         (last_as "specifier" get_Specifier fvs)
         (default [] (last_as "properties" get_token_vector fvs))
         (fieldset_PrimMeta fvs).
Proof.
  unfold ParsePrimFields. intros ->%ParsePrimFields_loop_after.
  apply PrimFields_after_init.
Qed.

Lemma StageMetas_after_nil (m : StageMetas) : StageMetas_after m [] = m.
Proof. by destruct m. Qed.

Lemma StageMetas_after_cons (m : StageMetas) (fv : FieldValuePair)
  (fvs : FieldValuePairVector) :
  StageMetas_after (StageMetas_after m [fv]) fvs = StageMetas_after m (fv :: fvs).
Proof.
  unfold StageMetas_after, last_as. cbn [upAxis metersPerUnit
    timeCodesPerSecond startTimeCode endTimeCode defaultPrim customLayerData
    sm_doc sm_comment].
  by rewrite <- !updated_last.
Qed.

Lemma ReconstrcutStageMeta_field_after (fv : FieldValuePair)
  (pc pc' : list string) (s s' : Impl * StageMetas) :
  ReconstrcutStageMeta_field fv pc s = (Ret pc', s') →
  s'.2 = StageMetas_after s.2 [fv]
  ∧ pc' = default pc (last_as "primChildren" get_token_vector [fv]).
Proof.
  destruct fv as [name v]. destruct s as [i [ax mpu tcps stc etc dp cld d c]].
  unfold ReconstrcutStageMeta_field, StageMetas_after, last_as, updated,
    get_upAxis, get_StringData, float_or_double, set_meta.
  unfold mbind, M_bind, bind, mret, M_ret, PUSH_ERROR_AND_RETURN, PUSH_WARN,
    modify, option_bind. cbn.
  case_name name;
    repeat (case_match; simplify_eq/=; try done); intros; by simplify_eq.
Qed.

Lemma ReconstrcutStageMeta_loop_after (fvs : FieldValuePairVector) :
  ∀ (s s' : Impl * StageMetas) (pc pc' : list string),
  for_each ReconstrcutStageMeta_field fvs pc s = (Ret pc', s') →
  s'.2 = StageMetas_after s.2 fvs
  ∧ pc' = default pc (last_as "primChildren" get_token_vector fvs).
Proof.
  induction fvs as [|fv fvs IH]; intros s s' pc pc' H.
  - cbn in H. unfold mret, M_ret in H. rewrite StageMetas_after_nil.
    by simplify_eq.
  - cbn [for_each] in H. apply bind_ret_inv in H as (pc1 & s1 & Hf & Hr).
    apply ReconstrcutStageMeta_field_after in Hf as [Hm ->].
    apply IH in Hr as [-> ->]. rewrite Hm, StageMetas_after_cons.
    split; [done|]. unfold last_as. rewrite last_omap_singleton.
    exact (default_last
             (λ fv : FieldValuePair,
                if String.eqb fv.1 "primChildren"
                then get_token_vector fv.2 else None) fv fvs pc).
Qed.

(** X11: when [ReconstrcutStageMeta] succeeds, each meta of the Stage is
    what the last field of its name states, and keeps the value the Stage
    had before when there is no such field ([upAxis], [metersPerUnit],
    [timeCodesPerSecond], [startTimeCode], [endTimeCode], [defaultPrim],
    [customLayerData], [documentation], [comment]; a [float] is widened
    to [double]); the Prim children returned are those of the last
    [primChildren] field, none without one. *)
Theorem ReconstrcutStageMeta_updates (fvs : FieldValuePairVector)
  (s s' : Impl * StageMetas) (primChildren : list string) :
  ReconstrcutStageMeta fvs s = (Ret primChildren, s') →
  s'.2 = StageMetas_after s.2 fvs
  ∧ primChildren = default [] (last_as "primChildren" get_token_vector fvs).
Proof. apply ReconstrcutStageMeta_loop_after. Qed.

(** ** ReconstructPrimNode *)

Lemma liftI_Ret_inv {X A} (m : M Impl A) (s s' : Impl * X) (a : A) :
  liftI m s = (Ret a, s') → m s.1 = (Ret a, s'.1) ∧ s'.2 = s.2.
Proof.
  unfold liftI. destruct (m s.1) as [o i1]. intros [= -> <-]. done.
Qed.

Lemma or_error_Ret_inv {St A} `{!ReaderState St} (m : M St A) (msg : string)
  (s s' : St) (a : A) :
  or_error m msg s = (Ret a, s') → m s = (Ret a, s').
Proof. unfold or_error. by destruct (m s) as [[?| |] ?]. Qed.

Lemma GetElemPath_Some (index : Z) (i i' : Impl) (p : Path) :
  GetElemPath index i = (Ret (Some p), i') →
  _elemPaths i !! Z.to_nat index = Some p ∧ i' = i.
Proof.
  unfold GetElemPath. repeat case_match; intros; by simplify_eq.
Qed.

Lemma find_schema_Some (typeName : string) (T : PrimSchema.t) :
  find_schema typeName = Some T → schema_type_name T = typeName.
Proof.
  unfold find_schema. intros [_ H]%find_some. symmetry.
  by apply String.eqb_eq.
Qed.

Lemma ReconstructPrimFromTypeName_Some (typeName prim_name : string)
  (node : Node) (psmap : gmap Z Z) (meta : PrimMeta) (i i' : Impl)
  (prim : Prim) :
  ReconstructPrimFromTypeName typeName prim_name node psmap meta i
  = (Ret (Some prim), i') →
  ∃ T d, prim = mkPrim Path_default (mkTypedPrim T d meta prim_name) []
         ∧ schema_type_name T = typeName
         ∧ ReconstructPrim T node psmap i = (Ret d, i').
Proof.
  unfold ReconstructPrimFromTypeName.
  destruct (find_schema typeName) as [T|] eqn:HT; [|done].
  destruct (ReconstructPrim T node psmap i) as [[d| |] i1] eqn:E; [|done..].
  intros [= <- <-]. exists T, d. repeat split; [|done].
  by apply find_schema_Some.
Qed.

Lemma ReconstructPrimNode_Prim_Some (current : Z) (node : Node)
  (psmap : gmap Z Z) (pf : PrimFields) (s s' : RS) (prim : Prim) :
  ReconstructPrimNode_Prim current node psmap pf s = (Ret (Some prim), s') →
  pf_specifier pf = Some Specifier.Def
  ∧ _elemPaths s.1 !! Z.to_nat (to_uint32 current) = Some (elementPath prim)
  ∧ tp_name (prim_data prim) = GetPrimPart (elementPath prim)
  ∧ ValidatePrimName (tp_name (prim_data prim)) = true
  ∧ schema_type_name (tp_schema (prim_data prim))
    = default "Model" (pf_typeName pf)
  ∧ tp_meta (prim_data prim) = pf_primMeta pf
  ∧ children prim = []
  ∧ current ∈ _prim_table s'.1
  ∧ s'.2 = s.2.
Proof.
  unfold ReconstructPrimNode_Prim. intros H.
  apply bind_ret_inv in H as (pv & s1 & Hep & H).
  apply liftI_Ret_inv in Hep as [Hep Hst1].
  destruct pv as [elemPath|]; [|done].
  apply GetElemPath_Some in Hep as [Hep Hs1].
  destruct (pf_specifier pf) as [[| | |]|]; try done.
  apply bind_ret_inv in H as (tn & s2 & Htn & H).
  assert (tn = default "Model" (pf_typeName pf) ∧ s2.2 = s1.2) as [-> Hst2].
  { destruct (pf_typeName pf); unfold mret, M_ret in Htn.
    - by simplify_eq.
    - apply bind_ret_inv in Htn as ([] & s1' & Hw & Htn).
      unfold PUSH_WARN, modify in Hw. unfold mret, M_ret in Htn.
      by simplify_eq. }
  destruct (ValidatePrimName (GetPrimPart elemPath)) eqn:Hval; [|done].
  cbn [negb] in H.
  apply bind_ret_inv in H as (p & s3 & Hr & H).
  apply liftI_Ret_inv in Hr as [Hr Hst3].
  apply bind_ret_inv in H as (table & s4 & Ht & H).
  unfold gets in Ht. injection Ht as <- <-.
  apply bind_ret_inv in H as ([] & s5 & Hins & H).
  unfold mret, M_ret in H. injection H as H <-.
  destruct p as [p|]; [|done]. cbn in H. injection H as <-.
  apply ReconstructPrimFromTypeName_Some in Hr as (T & d & -> & HT & _).
  cbn. split; [done|]. split; [congruence|].
  repeat split; try done.
  - destruct (bool_decide_reflect (current ∈ _prim_table s3.1)) as [Hin|Hin];
      unfold mret, M_ret, modify in Hins; simplify_eq; [done|].
    cbn. set_solver.
  - destruct (bool_decide _); unfold mret, M_ret, modify in Hins;
      simplify_eq; cbn; congruence.
Qed.

(** X12: [ReconstructPrimNode] returns a Prim only for a node other than
    node 0 whose spec is a Prim spec and whose fieldset states the
    specifier [def]. The Prim has the element path of the node, is named
    by the Prim part of that path (a valid Prim name), is of the schema
    that the last [typeName] field names ([Model] without one), carries
    the Prim metadata of the fieldset, and has no children yet; the node
    is marked in the Prim table and the Stage is left as it was. *)
Theorem ReconstructPrimNode_prim (parent current level : Z)
  (psmap : gmap Z Z) (s s' : RS) (prim : Prim) :
  ReconstructPrimNode parent current level psmap s = (Ret (Some prim), s') →
  ∃ spec_index spec fvs,
    current ≠ 0
    ∧ psmap !! to_uint32 current = Some spec_index
    ∧ vector_at (_specs s.1) spec_index = Some spec
    ∧ spec_type spec = SpecType.Prim
    ∧ _live_fieldsets s.1 !! fieldset_index spec = Some fvs
    ∧ last_as "specifier" get_Specifier fvs = Some Specifier.Def
    ∧ _elemPaths s.1 !! Z.to_nat (to_uint32 current) = Some (elementPath prim)
    ∧ tp_name (prim_data prim) = GetPrimPart (elementPath prim)
    ∧ ValidatePrimName (tp_name (prim_data prim)) = true
    ∧ schema_type_name (tp_schema (prim_data prim))
      = default "Model" (last_as "typeName" get_token fvs)
    ∧ tp_meta (prim_data prim) = fieldset_PrimMeta fvs
    ∧ children prim = []
    ∧ current ∈ _prim_table s'.1
    ∧ s'.2 = s.2.
Proof.
  unfold ReconstructPrimNode.
  unfold mbind, M_bind, bind, gets, mret, M_ret, undefined. cbn [fst snd].
  destruct (vector_at (_nodes s.1) current) as [node|]; [|done].
  destruct (psmap !! to_uint32 current) as [spec_index|] eqn:Hps; [|done].
  destruct (spec_index >=? _); [done|].
  destruct (vector_at (_specs s.1) spec_index) as [spec|] eqn:Hspec; [|done].
  destruct (_ && _); [done|].
  destruct (_live_fieldsets s.1 !! fieldset_index spec) as [fvs|] eqn:Hlive;
    [|done].
  destruct (_ >? _); [done|].
  destruct (Z.eqb_spec current 0) as [Hc|Hc].
  { unfold ReconstructPrimNode_root.
    unfold mbind, M_bind, bind, gets, mret, M_ret, undefined, modify.
    repeat (case_match; simplify_eq/=; try done). }
  destruct (or_error (liftI (ParsePrimFields fvs)) _ s) as [[pf| |] s1] eqn:Hpf;
    [|done..].
  apply or_error_Ret_inv, liftI_Ret_inv in Hpf as [Hpf Hst1].
  pose proof (preserves_ParsePrimFields fvs s.1) as Hd1. rewrite Hpf in Hd1.
  apply ParsePrimFields_loop_after in Hpf. rewrite PrimFields_after_init in Hpf.
  destruct (spec_type spec) eqn:Hty;
    unfold PUSH_WARN, PUSH_ERROR_AND_RETURN, modify; try done.
  intros (Hsp & Hel & Hname & Hval & Hschema & Hmeta & Hch & Htab & Hst)
         %ReconstructPrimNode_Prim_Some.
  subst pf. cbn in Hsp, Hschema, Hmeta.
  exists spec_index, spec, fvs.
  destruct Hd1 as (_ & _ & _ & _ & Hel1 & _). cbn in Hel1.
  rewrite <- Hel1. repeat split; try done. congruence.
Qed.

End FurtherParseProperty.

Lemma BuildPropertyMap_keeps_first_duplicate_witness :
  ∃ props' impl' first second,
    BuildPropertyMap (ext := demo_ext) [2; 3; 4] (identity_psmap 5) ∅
                     duplicate_after_other_reader
    = (Ret props', impl')
    ∧ property_child (ext := demo_ext) (identity_psmap 5)
        duplicate_after_other_reader 3 "x" first
    ∧ property_child (ext := demo_ext) (identity_psmap 5)
        duplicate_after_other_reader 4 "x" second
    ∧ first ≠ second
    ∧ props' !! "x" = Some first.
Proof.
  assert (∀ (c : Z) (fvs : FieldValuePairVector) (path : Path) (name : string)
            (prop : Property),
            identity_psmap 5 !! to_uint32 (to_int32 c) = Some c →
            vector_at (_specs duplicate_after_other_reader) c
            = Some (mkSpec c c SpecType.Attribute) →
            _paths duplicate_after_other_reader !! Z.to_nat c = Some path →
            name = GetPropPart path →
            _live_fieldsets duplicate_after_other_reader !! c = Some fvs →
            (ParseProperty (ext := demo_ext) SpecType.Attribute fvs
               duplicate_after_other_reader).1 = Ret prop →
            property_child (ext := demo_ext) (identity_psmap 5)
              duplicate_after_other_reader c name prop) as Hchild.
  { intros c fvs path name prop H1 H2 H3 H4 H5 H6.
    exists c, (mkSpec c c SpecType.Attribute), path, fvs.
    repeat split; try done. by left. }
  assert (property_child (ext := demo_ext) (identity_psmap 5)
            duplicate_after_other_reader 3 "x"
            (Property_of_attrib
               (mkPrimAttrib Variability.Varying AttrMeta_default "float"
                  (PrimVar_scalar (VFloat 1065353216))) false)) as H3.
  { eapply Hchild; reflexivity. }
  assert (property_child (ext := demo_ext) (identity_psmap 5)
            duplicate_after_other_reader 4 "x"
            (Property_of_attrib
               (mkPrimAttrib Variability.Varying AttrMeta_default "int"
                  (PrimVar_scalar (VInt 7))) false)) as H4.
  { eapply Hchild; reflexivity. }
  eexists _, _, _, _. split; [vm_compute; reflexivity|].
  split; [exact H3|]. split; [exact H4|]. split; [discriminate|].
  eapply (proj2 (proj2 (BuildPropertyMap_keeps_first_duplicate
                          (ext := demo_ext) [2; 3; 4] (identity_psmap 5)))
            [2] [] [] 3 4 ∅ _ duplicate_after_other_reader _ "x").
  - reflexivity.
  - vm_compute. reflexivity.
  - reflexivity.
  - intros c p ->%list_elem_of_singleton
      (si & sp & pa & fv & G1 & G2 & _ & G4 & G5 & _).
    vm_compute in G1. injection G1 as <-.
    vm_compute in G2. injection G2 as <-.
    vm_compute in G4. injection G4 as <-. discriminate G5.
  - exact H3.
  - exact H4.
Defined.

Lemma ParseProperty_success_accepted_witness :
  (∃ prop i',
     ParseProperty (ext := demo_ext) SpecType.Attribute
                   attribute_with_metadata (Impl_init empty_crate)
     = (Ret prop, i'))
  ∧ fieldset_accepted (ext := demo_ext) attribute_with_metadata = true.
Proof.
  split.
  - eexists _, _. vm_compute. reflexivity.
  - eapply (ParseProperty_success_accepted (ext := demo_ext)
              SpecType.Attribute attribute_with_metadata
              (Impl_init empty_crate)).
    vm_compute. reflexivity.
Defined.

Lemma ParseProperty_connection_target_witness :
  ∃ prop ws,
    ParseProperty (ext := demo_ext) SpecType.Attribute
      ([("typeName", VToken "float")]
       ++ ("connectionPaths", VListOpPath connection_to_two)
          :: [("custom", VBool true)])
      (Impl_init empty_crate)
    = (Ret prop, add_warnings ws (Impl_init empty_crate))
    ∧ IsConnection prop = true
    ∧ targets (rel prop) = [path_A; path_B]
    ∧ GetConnectionTarget prop = None.
Proof.
  apply (ParseProperty_connection_target (ext := demo_ext) SpecType.Attribute
           [("typeName", VToken "float")] [("custom", VBool true)]
           connection_to_two (Impl_init empty_crate)).
  - reflexivity.
  - by repeat constructor.
Defined.

Lemma ParseProperty_attribute_metadata_witness :
  ∃ prop i',
    ParseProperty (ext := demo_ext) SpecType.Attribute
                  attribute_with_metadata (Impl_init empty_crate)
    = (Ret prop, i')
    ∧ prop_type prop = PropertyType.Attrib
    ∧ has_custom prop = true
    ∧ variability (attrib prop) = Variability.Uniform
    ∧ am_elementSize (attr_meta (attrib prop)) = Some 4.
Proof.
  eexists _, _. split; [vm_compute; reflexivity|]. split; [reflexivity|].
  edestruct (ParseProperty_attribute_metadata (ext := demo_ext)
               SpecType.Attribute attribute_with_metadata
               (Impl_init empty_crate)) as (Hc & Hv & Hm & _).
  - vm_compute. reflexivity.
  - reflexivity.
  - rewrite Hc, Hv, Hm. by repeat split.
Defined.

Lemma ParseProperty_drops_metadata_witness :
  ∃ prop i',
    ParseProperty (ext := demo_ext) SpecType.Relationship
                  relationship_with_metadata (Impl_init empty_crate)
    = (Ret prop, i')
    ∧ prop_type prop = PropertyType.Relation
    ∧ has_custom prop = true
    ∧ variability (attrib prop) = Variability.Varying
    ∧ attr_meta (attrib prop) = AttrMeta_default
    ∧ rel_meta (rel prop) = AttrMeta_default.
Proof.
  eexists _, _. split; [vm_compute; reflexivity|]. split; [reflexivity|].
  edestruct (ParseProperty_drops_metadata (ext := demo_ext)
               SpecType.Relationship relationship_with_metadata
               (Impl_init empty_crate)) as (Hc & Hv & Hm & _ & Hr).
  - vm_compute. reflexivity.
  - discriminate.
  - rewrite Hc, Hv, Hm, Hr. by repeat split.
Defined.

Lemma BuildPropertyMap_provenance_witness :
  ∃ props' impl',
    BuildPropertyMap (ext := demo_ext) [2; 3] (identity_psmap 4) ∅
                     duplicate_property_reader
    = (Ret props', impl')
    ∧ ∀ name prop,
        props' !! name = Some prop →
        ∃ c, c ∈ [2; 3]
             ∧ property_child (ext := demo_ext) (identity_psmap 4)
                              duplicate_property_reader c name prop.
Proof.
  eexists _, _. split; [vm_compute; reflexivity|].
  opose proof* (BuildPropertyMap_provenance (ext := demo_ext) [2; 3]
               (identity_psmap 4) ∅ _ duplicate_property_reader) as [_ Hp];
    [vm_compute; reflexivity|].
  intros name prop Hin.
  destruct (Hp name prop Hin) as [Hempty|Hchild]; [|exact Hchild].
  by rewrite lookup_empty in Hempty.
Defined.

Lemma ParsePrimFields_last_fields_witness :
  ∃ pf i',
    ParsePrimFields (ext := demo_ext) prim_fields_twice (Impl_init empty_crate)
    = (Ret pf, i')
    ∧ pf = mkPrimFields (Some "Scope") (Some Specifier.Def) []
             (mkPrimMeta (Some true) None None None None None None None).
Proof.
  eexists _, _. split; [vm_compute; reflexivity|].
  apply (ParsePrimFields_last_fields (ext := demo_ext) prim_fields_twice
           (Impl_init empty_crate) (Impl_init empty_crate)).
  vm_compute. reflexivity.
Defined.

Lemma ReconstrcutStageMeta_updates_witness :
  ∃ primChildren s',
    ReconstrcutStageMeta (ext := demo_ext) stage_fields_twice
                         (Impl_init empty_crate, StageMetas_default)
    = (Ret primChildren, s')
    ∧ upAxis s'.2 = Some Axis.Y
    ∧ primChildren = ["A"].
Proof.
  eexists _, _. split; [vm_compute; reflexivity|].
  edestruct (ReconstrcutStageMeta_updates (ext := demo_ext) stage_fields_twice
               (Impl_init empty_crate, StageMetas_default)) as [Hm Hc].
  - vm_compute. reflexivity.
  - rewrite Hm, Hc. by split.
Defined.

Lemma ReconstructPrimNode_prim_witness :
  let s := (load_tables (Impl_init (nested_scene Specifier.Def)),
            mkStage (ext := demo_ext) StageMetas_default []) in
  match ReconstructPrimNode (ext := demo_ext) 0 1 1 (identity_psmap 3) s with
  | (Ret (Some prim), s') =>
    elementPath prim = mkPath "A" "" true
    ∧ tp_name (prim_data prim) = "A"
    ∧ schema_type_name (Externals := demo_ext) (tp_schema (prim_data prim))
      = "Xform"
    ∧ 1 ∈ _prim_table s'.1
    ∧ s'.2 = s.2
  | _ => False
  end.
Proof.
  intros s.
  assert (match ReconstructPrimNode (ext := demo_ext) 0 1 1
                  (identity_psmap 3) s with
          | (Ret (Some _), _) => True
          | _ => False
          end) as Hrun by (vm_compute; exact I).
  destruct (ReconstructPrimNode (ext := demo_ext) 0 1 1 (identity_psmap 3) s)
    as [[[prim|]| |] s'] eqn:E; try done.
  destruct (ReconstructPrimNode_prim (ext := demo_ext) 0 1 1
              (identity_psmap 3) s s' prim E)
    as (spec_index & spec & fvs & _ & Hps & Hspec & _ & Hlive & _ & Hel
        & Hname & _ & Hschema & _ & _ & Htab & Hst).
  vm_compute in Hps. injection Hps as <-.
  vm_compute in Hspec. injection Hspec as <-.
  vm_compute in Hlive. injection Hlive as <-.
  assert (elementPath prim = mkPath "A" "" true) as Hp.
  { change (_elemPaths s.1 !! Z.to_nat (to_uint32 1))
      with (Some (mkPath "A" "" true)) in Hel. congruence. }
  split; [exact Hp|]. split; [by rewrite Hname, Hp|].
  split; [exact Hschema|]. by split.
Defined.

(** ** What the reconstruction adds *)

#[global] Instance grows_preorder : PreOrder grows.
Proof.
  split.
  - intros i. by repeat split.
  - intros i1 i2 i3 (?&?&?) (?&?&?). repeat split; by etrans.
Qed.

#[global] Instance Keeps_StageMetas_preorder : PreOrder (@keeps StageMetas _).
Proof. by split. Qed.

#[global] Instance Keeps_Stage_preorder `{ext : Externals} :
  PreOrder (@keeps Stage _).
Proof.
  split.
  - intros st. unfold keeps, Keeps_Stage. done.
  - intros st1 st2 st3. unfold keeps, Keeps_Stage. apply transitivity.
Qed.

#[global, refine] Instance Ledger_Impl : Ledger Impl :=
  {| reader_of := id; later := grows |}.
Proof.
  - done.
  - done.
  - done.
Defined.

#[global, refine] Instance Ledger_pair {X} `{!Keeps X}
  `{!PreOrder (@keeps X _)} : Ledger (Impl * X) :=
  {| reader_of := fst; later := λ s s', grows s.1 s'.1 ∧ keeps s.2 s'.2 |}.
Proof.
  - split.
    + intros s. split; reflexivity.
    + intros s1 s2 s3 [? ?] [? ?]. split; by etrans.
  - by intros s s' [? _].
  - intros f s Hf. split; [done|reflexivity].
  - done.
Defined.

Lemma grows_PushError (msg : string) (i : Impl) : grows i (PushError msg i).
Proof. repeat split; cbn; [by apply prefix_app_r|done..]. Qed.

Lemma grows_PushWarn (msg : string) (i : Impl) : grows i (PushWarn msg i).
Proof. repeat split; cbn; [done|by apply prefix_app_r|done]. Qed.

Lemma grows_prim_table_insert (n : Z) (i : Impl) :
  grows i (prim_table_insert n i).
Proof. repeat split; cbn; [done..|set_solver]. Qed.

Lemma grows_err_length (i i' : Impl) :
  grows i i' → (length (_err i) ≤ length (_err i'))%nat.
Proof. intros [H _]. by apply prefix_length. Qed.

Section Reports.
Context {St : Type} `{Ledger St}.

Lemma later_err_length (s s' : St) :
  later s s' →
  (length (_err (reader_of s)) ≤ length (_err (reader_of s')))%nat.
Proof. intros Hl. by apply grows_err_length, later_grows. Qed.

Lemma reports_mret {A} (a : A) : reports (mret a : M St A).
Proof. intros s. split; [reflexivity|done]. Qed.

Lemma reports_gets {A} (f : St → A) : reports (gets f).
Proof. intros s. split; [reflexivity|done]. Qed.

Lemma reports_undefined {A} : reports (@undefined St A).
Proof. intros s. split; [reflexivity|done]. Qed.

Lemma reports_bind {A B} (m : M St A) (k : A → M St B) :
  reports m → (∀ a, reports (k a)) → reports (m ≫= k).
Proof.
  intros Hm Hk s. unfold mbind, M_bind, bind.
  destruct (Hm s) as [Hl Hf]. destruct (m s) as [[a| |] s1]; cbn in *;
    [|split; [done|naive_solver]..].
  destruct (Hk a s1) as [Hl' Hf']. split; [by etrans|].
  intros Hfail. specialize (Hf' Hfail).
  pose proof (later_err_length _ _ Hl). lia.
Qed.

Lemma reports_for_each {A B} (body : A → B → M St B) (l : list A) (acc : B) :
  (∀ x b, reports (body x b)) → reports (for_each body l acc).
Proof.
  intros Hbody. revert acc. induction l as [|x l IH]; intros acc.
  - apply reports_mret.
  - cbn [for_each]. apply reports_bind; [apply Hbody | apply IH].
Qed.

Lemma reports_PUSH_ERROR_AND_RETURN {A} (msg : string) :
  reports (PUSH_ERROR_AND_RETURN (A := A) msg).
Proof.
  intros s. unfold PUSH_ERROR_AND_RETURN. cbn. split.
  - apply later_update, grows_PushError.
  - intros _. rewrite reader_of_update. cbn. rewrite length_app. cbn. lia.
Qed.

Lemma reports_PUSH_WARN (msg : string) : reports (PUSH_WARN msg).
Proof.
  intros s. split; [|done]. apply later_update, grows_PushWarn.
Qed.

Lemma reports_mark (n : Z) :
  reports (modify (update_impl (prim_table_insert n))).
Proof.
  intros s. split; [|done]. apply later_update, grows_prim_table_insert.
Qed.

Lemma reports_or_error {A} (m : M St A) (msg : string) :
  reports m → reports (or_error m msg).
Proof.
  intros Hm s. unfold or_error. destruct (Hm s) as [Hl Hf].
  destruct (m s) as [[a| |] s1]; cbn in *; [by split| |by split]. split.
  - etrans; [done|]. apply later_update, grows_PushError.
  - intros _. rewrite reader_of_update. cbn. rewrite length_app. cbn.
    pose proof (later_err_length _ _ Hl). lia.
Qed.

End Reports.

Lemma reports_liftI {X A} `{!Keeps X} `{!PreOrder (@keeps X _)}
  (m : M Impl A) :
  reports m → reports (liftI m : M (Impl * X) A).
Proof.
  intros Hm [i x]. unfold liftI. cbn. destruct (Hm i) as [Hl Hf].
  destruct (m i) as [o i1]. cbn in *. split; [|done]. split; [done|reflexivity].
Qed.

Lemma reports_GetPath (index : Z) : reports (GetPath index).
Proof.
  intros s. unfold GetPath. repeat case_match; by split; [reflexivity|].
Qed.

Lemma reports_GetElemPath (index : Z) : reports (GetElemPath index).
Proof.
  intros s. unfold GetElemPath. repeat case_match; by split; [reflexivity|].
Qed.

(** Walks through a computation built from the combinators above. *)
Ltac reports_step :=
  match goal with
  | |- reports (mret _) => apply reports_mret
  | |- reports (_ ≫= _) => apply reports_bind; [|intros ?]
  | |- reports (for_each _ _ _) => apply reports_for_each; intros ? ?
  | |- reports (gets _) => apply reports_gets
  | |- reports undefined => apply reports_undefined
  | |- reports (PUSH_ERROR_AND_RETURN _) => apply reports_PUSH_ERROR_AND_RETURN
  | |- reports (PUSH_WARN _) => apply reports_PUSH_WARN
  | |- reports (modify (update_impl (prim_table_insert _))) =>
    apply reports_mark
  | |- reports (or_error _ _) => apply reports_or_error
  | |- reports (liftI _) => apply reports_liftI
  | |- reports (GetPath _) => apply reports_GetPath
  | |- reports (GetElemPath _) => apply reports_GetElemPath
  | |- reports (match ?x with _ => _ end) => destruct x
  end.

Section ReconstructionReports.
Context `{ext : Externals}.

Lemma reports_ParseProperty (spec_type : SpecType.t)
  (fvs : FieldValuePairVector) :
  reports (ParseProperty spec_type fvs).
Proof.
  unfold ParseProperty, make_property, ParseProperty_field,
    ParseProperty_targetPaths.
  repeat reports_step.
Qed.

Lemma reports_BuildPropertyMap (pathIndices : list Z) (psmap : gmap Z Z)
  (props : gmap string Property) :
  reports (BuildPropertyMap pathIndices psmap props).
Proof.
  unfold BuildPropertyMap, BuildPropertyMap_step.
  repeat first [apply reports_ParseProperty | reports_step].
Qed.

Lemma reports_ReconstructPrim (T : PrimSchema.t) (node : Node)
  (psmap : gmap Z Z) :
  reports (ReconstructPrim T node psmap).
Proof.
  unfold ReconstructPrim.
  repeat first [apply reports_BuildPropertyMap | reports_step].
Qed.

Lemma reports_ReconstructPrimFromTypeName (typeName prim_name : string)
  (node : Node) (psmap : gmap Z Z) (meta : PrimMeta) :
  reports (ReconstructPrimFromTypeName typeName prim_name node psmap meta).
Proof.
  unfold ReconstructPrimFromTypeName.
  destruct (find_schema typeName) as [T|]; [|repeat reports_step].
  intros s. destruct (reports_ReconstructPrim T node psmap s) as [Hl Hf].
  destruct (ReconstructPrim T node psmap s) as [[d| |] s1]; cbn in *;
    [by split| |by split].
  split; [|done]. etrans; [done|]. apply grows_PushError.
Qed.

Lemma reports_ParsePrimFields (fvs : FieldValuePairVector) :
  reports (ParsePrimFields fvs).
Proof.
  unfold ParsePrimFields, ParsePrimFields_field. repeat reports_step.
Qed.

Lemma reports_set_meta (f : StageMetas → StageMetas) : reports (set_meta f).
Proof. intros s. split; [|done]. split; [reflexivity|done]. Qed.

Lemma reports_ReconstrcutStageMeta (fvs : FieldValuePairVector) :
  reports (ReconstrcutStageMeta fvs).
Proof.
  unfold ReconstrcutStageMeta, ReconstrcutStageMeta_field. cbv zeta.
  repeat first [apply reports_set_meta | reports_step].
Qed.

Lemma reports_on_stage_metas {A} (m : M (Impl * StageMetas) A) :
  reports m → reports (on_stage_metas m).
Proof.
  intros Hm [i st]. unfold on_stage_metas. cbn.
  destruct (Hm (i, GetMetas st)) as [[Hl _] Hf].
  destruct (m (i, GetMetas st)) as [o [i1 ms]]. cbn in *.
  split; [|done]. split; [done|]. unfold keeps, Keeps_Stage. done.
Qed.

Lemma reports_ReconstructPrimNode (parent current level : Z)
  (psmap : gmap Z Z) :
  reports (ReconstructPrimNode parent current level psmap).
Proof.
  unfold ReconstructPrimNode, ReconstructPrimNode_root,
    ReconstructPrimNode_Prim.
  repeat first
    [ apply reports_ParsePrimFields
    | apply reports_ReconstructPrimFromTypeName
    | apply reports_ReconstrcutStageMeta
    | apply reports_on_stage_metas
    | reports_step ].
Qed.

Lemma reports_attach_prim (parent : Z) (prim rootPrim : option Prim) :
  reports (attach_prim parent prim rootPrim).
Proof.
  unfold attach_prim. destruct (parent =? 0), prim, rootPrim;
    repeat reports_step.
  all: intros s; split; [|done]; split; [reflexivity|];
    unfold keeps, Keeps_Stage; cbn; by apply prefix_app_r.
Qed.

Lemma for_children_reports
  (rec : Z → option Prim → RS → option (Outcome (option Prim) * RS))
  (cs : list Z) :
  (∀ c p s, reports_fuel s (rec c p s)) →
  ∀ p s, reports_fuel s (for_children rec cs p s).
Proof.
  intros Hrec. induction cs as [|c cs IH]; intros p s o s' H; cbn in H.
  - simplify_eq. split; [|done]. split; reflexivity.
  - destruct (rec c p s) as [[[p'| |] s1]|] eqn:E; simplify_eq.
    + destruct (Hrec c p s _ _ E) as [Hl _].
      destruct (IH p' s1 _ _ H) as [Hl' Hf'].
      split; [exact (transitivity (R := later) Hl Hl')|].
      intros Hfail. specialize (Hf' Hfail).
      pose proof (later_err_length (St := RS) _ _ Hl). cbn in *. lia.
    + apply (Hrec c p s _ _ E).
    + apply (Hrec c p s _ _ E).
Qed.

Lemma ReconstructPrimRecursively_fuel_reports (psmap : gmap Z Z) (fuel : nat) :
  ∀ (parent current : Z) (rootPrim : option Prim) (level : Z) (s : RS),
  reports_fuel s (ReconstructPrimRecursively_fuel fuel parent current rootPrim
                    level psmap s).
Proof.
  induction fuel as [|fuel IH]; intros parent current rootPrim level s o s' H;
    cbn [ReconstructPrimRecursively_fuel] in H.
  all: destruct (level >? _);
    [simplify_eq;
     pose proof (reports_PUSH_ERROR_AND_RETURN (A := option Prim)
                   depth_error s) as Hx;
     by rewrite H in Hx|].
  all: destruct (_ || _);
    [simplify_eq;
     match type of H with
     | PUSH_ERROR_AND_RETURN ?msg ?s0 = _ =>
       pose proof (reports_PUSH_ERROR_AND_RETURN (A := option Prim) msg s0)
         as Hx;
       by rewrite H in Hx
     end|].
  all: destruct (reports_ReconstructPrimNode parent current level psmap s)
    as [Hl Hf].
  all: destruct (ReconstructPrimNode parent current level psmap s)
    as [[prim| |] s1]; cbn [fst snd] in Hl, Hf; simplify_eq;
    try (by split; [|naive_solver]).
  all: destruct (vector_at (_nodes s1.1) current) as [node|];
    simplify_eq; try (by split; [|naive_solver]).
  match type of H with
  | match ?fc with _ => _ end = _ => destruct fc as [[o2 s2]|] eqn:Hfc
  end; [|done].
  eapply for_children_reports in Hfc as [Hl2 Hf2].
  2: { intros c p s3 o3 s3' H3. destruct (level =? INT_MAX).
       - simplify_eq. split; [|done]. split; reflexivity.
       - by eapply IH. }
  pose proof (later_err_length (St := RS) _ _ Hl) as Hlen. cbn in Hlen.
  pose proof (transitivity (R := later) Hl Hl2) as Hl12.
  destruct o2 as [prim'| |]; simplify_eq.
  - destruct (reports_attach_prim parent prim' rootPrim s2) as [Hl3 Hf3].
    rewrite H in Hl3, Hf3. cbn in Hl3, Hf3.
    split; [exact (transitivity (R := later) Hl12 Hl3)|].
    intros Hfail. specialize (Hf3 Hfail).
    pose proof (later_err_length (St := RS) _ _ Hl2) as Hlen2. cbn in Hlen2.
    lia.
  - split; [done|]. intros _. specialize (Hf2 eq_refl). lia.
  - split; [done|]. done.
Qed.

Lemma reports_ReconstructPrimRecursively (parent current : Z)
  (rootPrim : option Prim) (level : Z) (psmap : gmap Z Z) :
  reports (ReconstructPrimRecursively parent current rootPrim level psmap).
Proof.
  intros s. unfold ReconstructPrimRecursively.
  destruct (ReconstructPrimRecursively_fuel _ _ _ _ _ _ s) as [[o s']|] eqn:E.
  - by apply (ReconstructPrimRecursively_fuel_reports _ _ _ _ _ _ _ _ _ E).
  - split; [reflexivity|done].
Qed.

(** X13: however a call of [ReconstructPrimRecursively] ends, it has only
    added: the errors and the warnings the reader had are still there, in
    their order, before any new ones; no node has lost its Prim mark; the
    root Prims the Stage had are still its first root Prims. And when the
    call fails, it has appended at least one error. *)
Theorem ReconstructPrimRecursively_only_adds (parent current : Z)
  (rootPrim : option Prim) (level : Z) (psmap : gmap Z Z) (s : RS) :
  _err s.1 `prefix_of`
    _err (ReconstructPrimRecursively parent current rootPrim level psmap s).2.1
  ∧ _warn s.1 `prefix_of`
    _warn (ReconstructPrimRecursively parent current rootPrim level psmap s).2.1
  ∧ _prim_table s.1
    ⊆ _prim_table
        (ReconstructPrimRecursively parent current rootPrim level psmap s).2.1
  ∧ root_prims s.2 `prefix_of`
    root_prims
      (ReconstructPrimRecursively parent current rootPrim level psmap s).2.2
  ∧ ((ReconstructPrimRecursively parent current rootPrim level psmap s).1
     = Fail →
     (length (_err s.1)
      < length (_err (ReconstructPrimRecursively parent current rootPrim level
                        psmap s).2.1))%nat).
Proof.
  destruct (reports_ReconstructPrimRecursively parent current rootPrim level
              psmap s) as [[(He & Hw & Ht) Hr] Hf].
  by repeat split.
Qed.

Lemma reports_build_path_index_to_spec_index_map (specs : list Spec) :
  reports (build_path_index_to_spec_index_map specs).
Proof.
  unfold build_path_index_to_spec_index_map, path_index_to_spec_index_step.
  repeat reports_step.
Qed.

(** X14: however [ReconstructStage] ends, the errors and the warnings the
    reader had are still there, in their order, before any new ones, and
    no node has lost its Prim mark; and when it fails, it has appended at
    least one error, so that the error text is not empty after a
    failure. *)
Theorem ReconstructStage_reports (s : RS) :
  _err s.1 `prefix_of` _err (ReconstructStage s).2.1
  ∧ _warn s.1 `prefix_of` _warn (ReconstructStage s).2.1
  ∧ _prim_table s.1 ⊆ _prim_table (ReconstructStage s).2.1
  ∧ ((ReconstructStage s).1 = Fail →
     (length (_err s.1) < length (_err (ReconstructStage s).2.1))%nat).
Proof.
  assert (grows s.1 (ReconstructStage s).2.1
          ∧ ((ReconstructStage s).1 = Fail →
             (length (_err s.1) < length (_err (ReconstructStage s).2.1))%nat))
    as [(?&?&?) ?]; [|done].
  unfold ReconstructStage.
  unfold mbind, M_bind, bind, gets, modify, mret, M_ret. cbn [fst snd].
  destruct (NumNodes _ =? 0).
  { cbn. split; [apply grows_PushWarn|done]. }
  set (s0 := update_impl load_tables s).
  assert (grows s.1 s0.1) as H0 by (repeat split; reflexivity).
  assert (length (_err s0.1) = length (_err s.1)) as Hlen0 by done.
  destruct (reports_liftI (X := Stage)
              (build_path_index_to_spec_index_map (_specs s0.1))
              (reports_build_path_index_to_spec_index_map _) s0)
    as [[H1 _] Hf1].
  destruct (liftI _ s0) as [[m| |] s1]; cbn [fst snd] in *.
  2: { split; [by etrans|]. intros _. specialize (Hf1 eq_refl).
       cbn in Hf1. lia. }
  2: { split; [by etrans|]. done. }
  set (s2 := (s1.1, set_root_prims [] s1.2)).
  destruct (reports_or_error _ "Failed to reconstruct Stage(Prim hierarchy)"
              (reports_ReconstructPrimRecursively (-1) 0 None 0 m) s2)
    as [[H2 _] Hf2].
  pose proof (grows_err_length _ _ H1) as Hlen1.
  destruct (or_error _ _ s2) as [[r| |] s3]; cbn [fst snd] in *.
  - split; [by do 2 (etrans; [done|])|done].
  - split; [by do 2 (etrans; [done|])|]. intros _. specialize (Hf2 eq_refl).
    cbn in Hf2. lia.
  - split; [by do 2 (etrans; [done|])|done].
Qed.

End ReconstructionReports.

(** ** The constructor and ReadUSDC *)

(** X15: the constructor never leaves more than 1024 threads in the
    configuration, and it leaves at least one exactly when the given
    count is -1 (the hardware count is then used, and at least 1) or
    positive: a count of 0 or below -1 is not corrected. A count other
    than -1 and up to 1024 is kept as it is. *)
Theorem Impl_numThreads_range (hardware_concurrency numThreads : Z) :
  Impl_numThreads hardware_concurrency numThreads ≤ 1024
  ∧ (1 ≤ Impl_numThreads hardware_concurrency numThreads
     ↔ numThreads = -1 ∨ 1 ≤ numThreads)
  ∧ (numThreads ≠ -1 → numThreads ≤ 1024 →
     Impl_numThreads hardware_concurrency numThreads = numThreads).
Proof.
  unfold Impl_numThreads.
  destruct (Z.eqb_spec numThreads (-1)); lia.
Qed.

(** X16: [ReadUSDC] runs the stages of the crate reader in their order
    up to the first that fails, on a crate reader made anew. When all
    succeed it returns [true] and leaves the diagnostics of the reader
    as they were (the warnings of the crate reader are not taken over);
    when one fails it returns [false] and the diagnostics of the reader
    are replaced by those of the crate reader. *)
Theorem ReadUSDC_first_failure `{cr : CrateReading} (numThreads : Z)
  (warn err : list string) :
  ReadUSDC numThreads warn err
  = if (run_stages stages (new_CrateReader numThreads)).1
    then (true,
          mkReading (run_stages stages (new_CrateReader numThreads)).2
                    warn err)
    else (false,
          mkReading (run_stages stages (new_CrateReader numThreads)).2
            (crate_GetWarning
               (run_stages stages (new_CrateReader numThreads)).2)
            (crate_GetError
               (run_stages stages (new_CrateReader numThreads)).2)).
Proof.
  unfold ReadUSDC, stages, or_bail. cbn.
  repeat (match goal with
          | |- context [let '(_, _) := ?f ?c in _] =>
            destruct (f c) as [[] ?]; cbn; try done
          end).
Qed.

(** ** Paths *)

Lemma find_last_of_None (c : Ascii.ascii) (s : string) :
  find_last_of c s = None ↔ free_of c s = true.
Proof.
  induction s as [|a s IH]; cbn; [done|].
  destruct (find_last_of c s).
  - split; [done|]. intros [_ H]%andb_true_iff. apply IH in H. done.
  - destruct (Ascii.eqb a c); cbn; [done|]. split; [|done].
    intros _. by apply IH.
Qed.

Lemma IsRootPrim_name (p : Path) :
  IsRootPrim p = true →
  valid p = true ∧ IsAbsolutePath p = true
  ∧ ∃ name, prim_part p = String slash name ∧ name ≠ ""
            ∧ free_of slash name = true.
Proof.
  destruct p as [prim prop v].
  unfold IsRootPrim, IsRootPath, IsAbsolutePath. cbn.
  destruct v; cbn; [|done].
  destruct prim as [|a [|b rest]]; cbn; [done| |].
  - by destruct (bool_decide (Some a = Some slash)).
  - destruct (bool_decide_reflect (Some a = Some slash)) as [[= ->]|]; cbn;
      [|done].
    destruct (find_last_of slash rest) as [k|] eqn:Hrest; cbn; [done|].
    destruct (Ascii.eqb b slash) eqn:Hb; cbn; [done|].
    intros _. repeat split. exists (String b rest). repeat split; [done|].
    cbn. rewrite Hb. cbn. by apply find_last_of_None.
Qed.

(** X17: a Path is relative exactly when it is not absolute; a root
    Path is valid, has the Prim part [/], is absolute and is no root
    Prim; and a root Prim is a valid absolute Path whose Prim part is a
    [/] followed by a name that is not empty and has no [/]. *)
Theorem Path_kinds (p : Path) :
  IsRelativePath p = negb (IsAbsolutePath p)
  ∧ (if IsRootPath p
     then valid p = true ∧ prim_part p = "/" ∧ IsRootPrim p = false
          ∧ IsAbsolutePath p = true
     else True)
  ∧ (if IsRootPrim p
     then valid p = true ∧ IsAbsolutePath p = true
          ∧ ∃ name, prim_part p = String slash name ∧ name ≠ ""
                    ∧ free_of slash name = true
     else True).
Proof.
  split; [|split].
  - unfold IsRelativePath, IsAbsolutePath.
    by destruct (prim_part p) as [|a rest].
  - destruct p as [prim prop v]. unfold IsRootPrim, IsRootPath, IsAbsolutePath.
    cbn. destruct v; cbn; [|done].
    destruct prim as [|a [|b rest]]; cbn; [done| |done].
    by destruct (bool_decide_reflect (Some a = Some slash)) as [[= ->]|].
  - destruct (IsRootPrim p) eqn:E; [by apply IsRootPrim_name|done].
Qed.

(** X18: [MakeRelative] turns a root Prim path into the relative path of
    its name: the Prim part loses its leading [/] and has no [/] left,
    and the result is neither absolute nor a root Prim. The root Path is
    left as it is, and so stays absolute. The property part and the
    validity are never changed. *)
Theorem MakeRelative_root_prim (p : Path) :
  (IsRootPrim p = true →
   prim_part p = String slash (prim_part (MakeRelative p))
   ∧ free_of slash (prim_part (MakeRelative p)) = true
   ∧ IsRelativePath (MakeRelative p) = true
   ∧ IsRootPrim (MakeRelative p) = false)
  ∧ (IsRootPath p = true → MakeRelative p = p)
  ∧ prop_part (MakeRelative p) = prop_part p
  ∧ valid (MakeRelative p) = valid p.
Proof.
  split; [|split; [|split]].
  - intros H.
    destruct (IsRootPrim_name p H) as (Hv & Habs & name & Hp & Hne & Hfree).
    unfold MakeRelative. rewrite Habs, Hp. destruct name as [|b rest]; [done|].
    cbn -[free_of]. split. { reflexivity. } split. { exact Hfree. } split.
    + cbn in Hfree. apply andb_true_iff in Hfree as [Hb _].
      destruct (bool_decide_reflect (Some b = Some slash)) as [[= ->]|]; [|done].
      by rewrite Ascii.eqb_refl in Hb.
    + unfold IsRootPrim, IsRootPath. cbn.
      cbn in Hfree. apply andb_true_iff in Hfree as [Hb _].
      destruct (bool_decide_reflect (Some b = Some slash)) as [[= ->]|].
      * by rewrite Ascii.eqb_refl in Hb.
      * by repeat case_match.
  - unfold IsRootPath, MakeRelative, IsAbsolutePath.
    destruct p as [[|a [|b rest]] prop v]; cbn; destruct v; cbn; try done.
    all: by repeat case_match.
  - unfold MakeRelative. by destruct (_ && _).
  - unfold MakeRelative. by destruct (_ && _).
Qed.

Lemma append_nil_l (s : string) : "" +:+ s = s.
Proof. reflexivity. Qed.

Lemma append_cons (a : Ascii.ascii) (r t : string) :
  String a r +:+ t = String a (r +:+ t).
Proof. reflexivity. Qed.

Lemma append_nil_r (s : string) : s +:+ "" = s.
Proof. induction s as [|a s IH]; [done|]. by rewrite append_cons, IH. Qed.

Ltac norm_append :=
  repeat first [ rewrite append_nil_l in * | rewrite append_cons in *
               | rewrite append_nil_r in * ].

Lemma prim_prop_split (prim1 : string) :
  ∀ prim2 prop1 prop2 : string,
  free_of dot prim1 = true → free_of dot prim2 = true →
  prim1 +:+ (if (String.length prop1 =? 0)%nat then "" else "." +:+ prop1)
  = prim2 +:+ (if (String.length prop2 =? 0)%nat then "" else "." +:+ prop2) →
  prim1 = prim2 ∧ prop1 = prop2.
Proof.
  induction prim1 as [|a r1 IH]; intros prim2 prop1 prop2 H1 H2 H.
  - destruct prim2 as [|a' r2].
    + split; [done|].
      destruct prop1, prop2; cbn in H; norm_append; congruence.
    + cbn in H2. apply andb_true_iff in H2 as [Ha' _].
      destruct prop1; cbn in H; norm_append; [done|].
      injection H as <- _. by rewrite Ascii.eqb_refl in Ha'.
  - cbn in H1. apply andb_true_iff in H1 as [Ha H1].
    destruct prim2 as [|a' r2].
    + destruct prop2; cbn in H; norm_append; [done|].
      injection H as -> _. by rewrite Ascii.eqb_refl in Ha.
    + cbn in H2. apply andb_true_iff in H2 as [_ H2].
      rewrite !append_cons in H. injection H as <- H.
      destruct (IH r2 prop1 prop2 H1 H2 H) as [-> ->]. done.
Qed.

(** X19: among the Paths of one validity whose Prim part has no [.], the
    full path name tells Paths apart: two such Paths with one full path
    name have the same Prim part and the same property part. *)
Theorem full_path_name_inj (p q : Path) :
  valid p = valid q →
  free_of dot (prim_part p) = true → free_of dot (prim_part q) = true →
  full_path_name p = full_path_name q → p = q.
Proof.
  destruct p as [prim1 prop1 v1], q as [prim2 prop2 v2]. cbn.
  intros <- H1 H2. unfold full_path_name. cbn [valid prim_part prop_part].
  intros H.
  assert (prim1 +:+ (if (String.length prop1 =? 0)%nat then ""
                     else "." +:+ prop1)
          = prim2 +:+ (if (String.length prop2 =? 0)%nat then ""
                       else "." +:+ prop2)) as H'.
  { destruct v1; cbn [negb] in H;
      destruct (String.length prop1 =? 0)%nat, (String.length prop2 =? 0)%nat;
      norm_append; by simplify_eq. }
  by destruct (prim_prop_split _ _ _ _ H1 H2 H') as [-> ->].
Qed.

Lemma full_path_name_inj_witness :
  full_path_name (mkPath "/A" "x" true) = "/A.x"
  ∧ mkPath "/A" "x" true = mkPath "/A" "x" true.
Proof.
  split; [reflexivity|].
  by apply (full_path_name_inj (mkPath "/A" "x" true) (mkPath "/A" "x" true)).
Defined.

(** ** ListOpHeader *)

Lemma all_bytes_spec (b : Z) : 0 ≤ b < 256 → b ∈ all_bytes.
Proof.
  intros H. unfold all_bytes. apply list_elem_of_In, in_map_iff.
  exists (Z.to_nat b). split; [lia|]. apply in_seq. lia.
Qed.

(** X20: copying a list-op header keeps its seven flags and clears the
    bit that is no flag: the copy of the header with bits [b] has the
    bits [b & 0x7f], it answers every flag query as the original does,
    and copying it again changes nothing. *)
Theorem ListOpHeader_copy_normalises (b : Z) :
  0 ≤ b < 256 →
  let h := ListOpHeader.mk b in
  ListOpHeader.bits (ListOpHeader.copy h) = Z.land b 127
  ∧ ListOpHeader.copy (ListOpHeader.copy h) = ListOpHeader.copy h
  ∧ ListOpHeader.IsExplicit (ListOpHeader.copy h) = ListOpHeader.IsExplicit h
  ∧ ListOpHeader.HasExplicitItems (ListOpHeader.copy h)
    = ListOpHeader.HasExplicitItems h
  ∧ ListOpHeader.HasAddedItems (ListOpHeader.copy h)
    = ListOpHeader.HasAddedItems h
  ∧ ListOpHeader.HasPrependedItems (ListOpHeader.copy h)
    = ListOpHeader.HasPrependedItems h
  ∧ ListOpHeader.HasAppendedItems (ListOpHeader.copy h)
    = ListOpHeader.HasAppendedItems h
  ∧ ListOpHeader.HasDeletedItems (ListOpHeader.copy h)
    = ListOpHeader.HasDeletedItems h
  ∧ ListOpHeader.HasOrderedItems (ListOpHeader.copy h)
    = ListOpHeader.HasOrderedItems h.
Proof.
  intros Hb%all_bytes_spec h. subst h.
  assert (forallb (λ b,
            (ListOpHeader.bits (ListOpHeader.copy (ListOpHeader.mk b))
             =? Z.land b 127)
            && (ListOpHeader.bits
                  (ListOpHeader.copy (ListOpHeader.copy (ListOpHeader.mk b)))
                =? ListOpHeader.bits (ListOpHeader.copy (ListOpHeader.mk b)))
            && forallb (λ bit,
                 Bool.eqb
                   (ListOpHeader.has bit (ListOpHeader.copy (ListOpHeader.mk b)))
                   (ListOpHeader.has bit (ListOpHeader.mk b)))
                 [ListOpHeader.IsExplicitBit; ListOpHeader.HasExplicitItemsBit;
                  ListOpHeader.HasAddedItemsBit;
                  ListOpHeader.HasPrependedItemsBit;
                  ListOpHeader.HasAppendedItemsBit;
                  ListOpHeader.HasDeletedItemsBit;
                  ListOpHeader.HasOrderedItemsBit]) all_bytes = true) as Hall.
  { vm_compute. reflexivity. }
  rewrite forallb_forall in Hall. apply list_elem_of_In, Hall in Hb.
  apply andb_true_iff in Hb as [[H1 H2]%andb_true_iff H3].
  apply Z.eqb_eq in H1, H2. split; [done|]. split.
  { destruct (ListOpHeader.copy (ListOpHeader.copy _)),
             (ListOpHeader.copy (ListOpHeader.mk b)). cbn in H2. by f_equal. }
  cbn [forallb] in H3.
  repeat (apply andb_true_iff in H3 as [?%Bool.eqb_prop H3]).
  by repeat split.
Qed.

Lemma ListOpHeader_copy_normalises_witness :
  ListOpHeader.bits (ListOpHeader.copy (ListOpHeader.mk 255)) = 127
  ∧ ListOpHeader.HasOrderedItems (ListOpHeader.copy (ListOpHeader.mk 255))
    = true.
Proof.
  destruct (ListOpHeader_copy_normalises 255) as (Hb & _ & _ & _ & _ & _ & _ & _ & Ho);
    [lia|].
  split; [exact Hb|]. rewrite Ho. reflexivity.
Defined.

(** ** Matrix helpers *)

(** X21: [to_matrix3x3] undoes [to_matrix]: it gives back the 3x3 matrix
    and the translation. [to_matrix] undoes [to_matrix3x3] exactly on
    the matrices whose last column is that of the identity. And
    [upper_left_3x3_only] is the matrix of the upper left 3x3 part with
    no translation exactly when [m[1][3]] and [m[2][3]] are zero
    already, since it leaves these two entries as they are. (Entries are
    compared bit for bit.) *)
Theorem to_matrix_round_trip (m33 : matrix3d) (tx : double3)
  (m44 : matrix4d) :
  to_matrix3x3 (to_matrix m33 tx) = (m33, tx)
  ∧ (to_matrix (to_matrix3x3 m44).1 (to_matrix3x3 m44).2 = m44
     ↔ m4_03 m44 = double_zero ∧ m4_13 m44 = double_zero
       ∧ m4_23 m44 = double_zero ∧ m4_33 m44 = double_one)
  ∧ (upper_left_3x3_only m44
     = to_matrix (to_matrix3x3 m44).1
                 (mkDouble3 double_zero double_zero double_zero)
     ↔ m4_13 m44 = double_zero ∧ m4_23 m44 = double_zero).
Proof.
  destruct m33, tx, m44. cbn.
  split; [done|]. split; split.
  - intros [=]. by subst.
  - intros (-> & -> & -> & ->). done.
  - intros [=]. by subst.
  - intros (-> & ->). done.
Qed.

(** ** GeomMesh::ValidateGeomSubset *)

(** X22: [ValidateGeomSubset] accepts a mesh exactly when it has no
    GeomSubset child, and never returns [false]. For a mesh with a child
    it always returns an error, and which one depends only on whether
    [faceVertexCounts] is authored: neither the face indices of the
    subsets nor the value of [faceVertexCounts] are ever looked at. *)
Theorem ValidateGeomSubset_rejects_subsets {FaceVertexCounts : Type}
  (authored : FaceVertexCounts → bool)
  (GetValue : FaceVertexCounts → option (list Z))
  (mesh : GeomMesh) :
  (ValidateGeomSubset authored GetValue mesh = Expected true
   ↔ geom_subset_children mesh = [])
  ∧ ValidateGeomSubset authored GetValue mesh ≠ Expected false
  ∧ ∀ other : GeomMesh,
      authored (faceVertexCounts other) = authored (faceVertexCounts mesh) →
      (geom_subset_children other = [] ↔ geom_subset_children mesh = []) →
      ValidateGeomSubset authored GetValue other
      = ValidateGeomSubset authored GetValue mesh.
Proof.
  unfold ValidateGeomSubset. split; [|split].
  - destruct (geom_subset_children mesh); [done|].
    by destruct (authored (faceVertexCounts mesh)).
  - destruct (geom_subset_children mesh); [done|].
    by destruct (authored (faceVertexCounts mesh)).
  - intros other Ha He. rewrite Ha.
    destruct (geom_subset_children mesh) as [|x xs],
             (geom_subset_children other) as [|y ys]; try done.
    + discriminate (proj2 He eq_refl).
    + discriminate (proj1 He eq_refl).
    + by destruct (authored (faceVertexCounts mesh)).
Qed.
